(** * Access control lists of OpenPBS: [src/lib/Libattr/attr_fn_acl.c]

    A shallow embedding of the ACL attribute functions (the match
    functions [hacl_match], [user_match], [sacl_match], the order functions
    [host_order], [user_order], [group_order], the duplicate check
    [chk_dup_acl], the mutation [set_allacl] and the decision [acl_check])
    together with the properties of the ACL engine that the design document
    states about them.

    Memory is modelled the way the C code uses it.  A [block] is the content
    of one allocated [char] array, a pointer into it is an offset of type
    [Z], and a read outside the block has no value ([None]).  A C string is
    a pointer to bytes that run up to the first NUL of the block. *)

From Stdlib Require Import ZArith Lia Bool.
From Stdlib Require Import Strings.Byte Strings.String.
From stdpp Require Import base option list sets strings.

Local Open Scope Z_scope.

(** ** Characters and blocks *)

Abbreviation byte := Init.Byte.byte.

Abbreviation block := (list byte).

(** [(unsigned char) c]. *)
Definition uchar (c : byte) : Z := Z.of_N (Byte.to_N c).

(** [(int) c] for a plain [char], which is signed on the platforms PBS
    builds on. *)
Definition int_of_char (c : byte) : Z :=
  if uchar c <? 128 then uchar c else uchar c - 256.

(** [tolower] of <ctype.h> in the "C" locale. *)
Definition tolower (c : Z) : Z :=
  if (65 <=? c) && (c <=? 90) then c + 32 else c.

Definition NUL : byte := x00.
Definition ch_plus : byte := "+"%byte.
Definition ch_minus : byte := "-"%byte.
Definition ch_star : byte := "*"%byte.
Definition ch_at : byte := "@"%byte.
Definition ch_slash : byte := "/"%byte.
Definition ch_dot : byte := "."%byte.

(** Reading the [char] that [p] points to. *)
Definition load (m : block) (p : Z) : option byte :=
  if 0 <=? p then m !! Z.to_nat p else None.

(** The bytes from the head of [l] up to the first NUL. *)
Fixpoint scan_nul (l : list byte) : option (list byte) :=
  match l with
  | [] => None
  | c :: l' => if Byte.eqb c NUL then Some [] else cons c <$> scan_nul l'
  end.

(** The C string that starts at [p]. *)
Definition cstr (m : block) (p : Z) : option (list byte) :=
  if 0 <=? p then scan_nul (drop (Z.to_nat p) m) else None.

(** [strlen(p)] *)
Definition strlen (m : block) (p : Z) : option Z :=
  (fun s => Z.of_nat (length s)) <$> cstr m p.

(** [strcmp] on the contents of two strings: the difference of the first
    two bytes that differ, taken as [unsigned char]. *)
Fixpoint strcmp_bytes (a b : list byte) : Z :=
  match a, b with
  | [], [] => 0
  | [], y :: _ => 0 - uchar y
  | x :: _, [] => uchar x
  | x :: a', y :: b' =>
      if Byte.eqb x y then strcmp_bytes a' b' else uchar x - uchar y
  end.

(** [strcmp(p1, p2)] *)
Definition strcmp (m1 : block) (p1 : Z) (m2 : block) (p2 : Z) : option Z :=
  a ← cstr m1 p1; b ← cstr m2 p2; Some (strcmp_bytes a b).

(** A string literal as the block that holds it, terminator included. *)
Definition lit (s : string) : block := list_byte_of_string s ++ [NUL].

(** The outcome of a loop body: leave the function with a value, or go on
    with a new loop state. *)
Inductive flow (R S : Type) : Type :=
| Return (r : R)
| Next (s : S).
Arguments Return {R S} r.
Arguments Next {R S} s.

(** ** Host match *)

(** The loop of [hacl_match] (lines 661-666): it leaves early with 1 on a
    mismatch and otherwise stops with [pc = can] or [pm = master]. *)
Fixpoint hacl_loop (fuel : nat) (mc : block) (can : Z) (mm : block)
    (master : Z) (pc pm : Z) : option (flow Z (Z * Z)) :=
  if (can <? pc) && (master <? pm) then
    match fuel with
    | O => None
    | S fuel' =>
        cc ← load mc pc; cm ← load mm pm;
        if negb (tolower (int_of_char cc) =? tolower (int_of_char cm))
        then Some (Return 1)
        else hacl_loop fuel' mc can mm master (pc - 1) (pm - 1)
    end
  else Some (Next (pc, pm)).

(** What [hacl_match] answers after the loop (lines 670-676). *)
Definition hacl_decide (mc : block) (can : Z) (mm : block) (master : Z)
    (pc pm : Z) : option Z :=
  if pm =? master then
    cm ← load mm pm;
    if Byte.eqb cm ch_star then Some 0
    else if pc =? can then
      cc ← load mc pc;
      if tolower (int_of_char cc) =? tolower (int_of_char cm)
      then Some 0 else Some 1
    else Some 1
  else Some 1.

(** [hacl_match(can, master)]: 0 on a match, 1 otherwise. *)
Definition hacl_match (mc : block) (can : Z) (mm : block) (master : Z)
    : option Z :=
  lc ← strlen mc can;
  lm ← strlen mm master;
  r ← hacl_loop (Z.to_nat lc) mc can mm master (can + lc - 1) (master + lm - 1);
  match r with
  | Return v => Some v
  | Next (pc, pm) => hacl_decide mc can mm master pc pm
  end.

(** ** Order functions *)

(** Lines 822-825, 590-593, 627-630: step over a leading '+' or '-'. *)
Definition skip_sign (m : block) (s : Z) : option Z :=
  c ← load m s;
  Some (if Byte.eqb c ch_plus || Byte.eqb c ch_minus then s + 1 else s).

(** The loop of [host_order] (lines 829-850).  Every turn reads the
    bytes at [p2] and [p1] for [d] before it looks at the pointers. *)
Fixpoint host_order_loop (fuel : nat) (m1 : block) (s1 : Z) (m2 : block)
    (s2 : Z) (p1 p2 : Z) : option Z :=
  match fuel with
  | O => None
  | S fuel' =>
      c2 ← load m2 p2; c1 ← load m1 p1;
      let d := int_of_char c2 - int_of_char c1 in
      if (s1 <? p1) && (s2 <? p2) then
        if negb (d =? 0) then Some d
        else host_order_loop fuel' m1 s1 m2 s2 (p1 - 1) (p2 - 1)
      else if (p1 =? s1) && (p2 =? s2) then
        if Byte.eqb c1 ch_star then Some 1
        else if Byte.eqb c2 ch_star then Some (-1)
        else Some d
      else if p1 =? s1 then Some 1
      else Some (-1)
  end.

(** [host_order(s1, s2)] *)
Definition host_order (m1 : block) (s1 : Z) (m2 : block) (s2 : Z)
    : option Z :=
  s1 ← skip_sign m1 s1;
  s2 ← skip_sign m2 s2;
  l1 ← strlen m1 s1;
  l2 ← strlen m2 s2;
  host_order_loop (S (Z.to_nat l1)) m1 s1 m2 s2 (s1 + l1 - 1) (s2 + l2 - 1).

(** The loop of [user_order] (lines 597-605). *)
Fixpoint user_order_loop (fuel : nat) (m1 : block) (s1 : Z) (m2 : block)
    (s2 : Z) : option Z :=
  match fuel with
  | O => None
  | S fuel' =>
      c1 ← load m1 s1; c2 ← load m2 s2;
      let d := int_of_char c1 - int_of_char c2 in
      if negb (d =? 0) then Some d
      else if Byte.eqb c1 ch_at || Byte.eqb c1 NUL
      then host_order m1 (s1 + 1) m2 (s2 + 1)
      else user_order_loop fuel' m1 (s1 + 1) m2 (s2 + 1)
  end.

(** [user_order(s1, s2)] *)
Definition user_order (m1 : block) (s1 : Z) (m2 : block) (s2 : Z)
    : option Z :=
  s1 ← skip_sign m1 s1;
  s2 ← skip_sign m2 s2;
  user_order_loop (S (length m1)) m1 s1 m2 s2.

(** [group_order(s1, s2)] *)
Definition group_order (m1 : block) (s1 : Z) (m2 : block) (s2 : Z)
    : option Z :=
  s1 ← skip_sign m1 s1;
  s2 ← skip_sign m2 s2;
  strcmp m1 s1 m2 s2.

(** ** User match *)

(** The do-while loop of [user_match] (lines 547-552); it stops when
    [master] points to '@' or NUL. *)
Fixpoint user_match_loop (fuel : nat) (mc : block) (can : Z) (mm : block)
    (master : Z) : option (flow Z (Z * Z)) :=
  match fuel with
  | O => None
  | S fuel' =>
      cm ← load mm master; cc ← load mc can;
      if negb (Byte.eqb cm cc) then Some (Return 1)
      else
        cm' ← load mm (master + 1);
        if negb (Byte.eqb cm' ch_at) && negb (Byte.eqb cm' NUL)
        then user_match_loop fuel' mc (can + 1) mm (master + 1)
        else Some (Next (can + 1, master + 1))
  end.

(** [user_match(can, master)] *)
Definition user_match (mc : block) (can : Z) (mm : block) (master : Z)
    : option Z :=
  r ← user_match_loop (S (length mm)) mc can mm master;
  match r with
  | Return v => Some v
  | Next (can, master) =>
      cm ← load mm master;
      if Byte.eqb cm NUL then
        cc ← load mc can;
        if Byte.eqb cc NUL || Byte.eqb cc ch_at then Some 0 else Some 1
      else
        cc ← load mc can;
        if negb (Byte.eqb cc ch_at) then Some 1
        else hacl_match mc (can + 1) mm (master + 1)
  end.

(** ** What the file takes from outside

    The C library functions, the group directory of the operating system
    and the constants of [pbs_ifl.h], [attribute.h] and [pbs_config.h] are
    not part of the sources.  They are parameters of the model. *)
Record extern := {
  (** [inet_pton(AF_INET, s, &addr)] followed by [ntohl(addr.s_addr)]: the
      address as a number in host byte order, [None] when [inet_pton]
      returns 0 *)
  inet_pton : list byte -> option Z;
  (** [atoi(s)] *)
  atoi : list byte -> Z;
  (** [getpwnam] and [getgrouplist] with [getgrgid]: the names of the
      groups of a user, [None] for an unknown user *)
  getgrouplist : list byte -> option (list (list byte));
  (** the global [server_host] *)
  server_host : block;
  (** whether [HOST_ACL_DEFAULT_ALL] is defined *)
  HOST_ACL_DEFAULT_ALL : bool;
  PBS_MAXIP_LEN : Z;
  ACL_Host : Z;
  ACL_User : Z;
  ACL_Group : Z;
  ACL_Subnet : Z;
  ATR_VFLAG_SET : Z
}.

#[global] Instance byte_eq_dec : EqDecision byte := Byte.byte_eq_dec.

(** ** Group and subnet match *)

(** [gacl_match(can, master)], the branch without WIN32. *)
Definition gacl_match (E : extern) (mc : block) (can : Z) (mm : block)
    (master : Z) : option Z :=
  c ← cstr mc can;
  m ← cstr mm master;
  match getgrouplist E c with
  | None => Some 1
  | Some groups => Some (if bool_decide (m ∈ groups) then 0 else 1)
  end.

(** [strchr(s, c)] for a [c] other than NUL, as the index of the first
    [c] in the content of [s]. *)
Fixpoint strchr (s : list byte) (c : byte) : option nat :=
  match s with
  | [] => None
  | x :: s' => if Byte.eqb x c then Some O else S <$> strchr s' c
  end.

(** [(uint32_t) (short_mask ? ~0 << (32 - short_mask) : 0)] *)
Definition short_mask_bits (short_mask : Z) : Z :=
  if short_mask =? 0 then 0
  else Z.shiftl (Z.lnot 0) (32 - short_mask) mod 2 ^ 32.

(** The mask that follows the '/' (lines 781-792); [None] where the code
    returns 1. *)
Definition subnet_mask (E : extern) (after : list byte) : option Z :=
  match strchr after ch_dot with
  | Some _ => inet_pton E after
  | None =>
      let short_mask := atoi E after in
      if (short_mask <? 0) || (32 <? short_mask) then None
      else Some (short_mask_bits short_mask)
  end.

(** [sacl_match] on the contents of its two strings. *)
Definition sacl_match_bytes (E : extern) (can master : list byte) : Z :=
  match inet_pton E can with
  | None => 1
  | Some ip =>
      match strchr master ch_slash with
      | None => 1
      | Some len =>
          let after := drop (S len) master in
          if bool_decide (after = []) then 1
          else if PBS_MAXIP_LEN E <? Z.of_nat len then 1
          else
            match inet_pton E (take len master) with
            | None => 1
            | Some subnet =>
                match subnet_mask E after with
                | None => 1
                | Some mask =>
                    if mask =? 0 then 1
                    else if Z.land ip mask =? Z.land subnet mask then 0
                    else 1
                end
            end
      end
  end.

(** [sacl_match(can, master)] *)
Definition sacl_match (E : extern) (mc : block) (can : Z) (mm : block)
    (master : Z) : option Z :=
  c ← cstr mc can;
  m ← cstr mm master;
  Some (sacl_match_bytes E c m).

(** ** The array of strings *)

(** [struct array_strings] of [attribute.h].  [as_buf] is the content of
    the buffer ([None] for a NULL pointer); [as_next] and the pointers of
    [as_string] are offsets from [as_buf]; a slot of [as_string] that is
    NULL or was never written is [None]. *)
Record array_strings := {
  as_npointers : Z;
  as_usedptr : Z;
  as_bufsize : Z;
  as_buf : option block;
  as_next : Z;
  as_string : list (option Z)
}.

(** The part of [struct attribute] that the ACL functions use. *)
Record attribute := {
  at_flags : Z;
  at_arst : option array_strings
}.

Definition buf_of (pas : array_strings) : block := default [] (as_buf pas).

(** [pas->as_string[i]] as a pointer that can be followed. *)
Definition slot (pas : array_strings) (i : Z) : option Z :=
  if 0 <=? i then mjoin (as_string pas !! Z.to_nat i) else None.

(** ** The decision *)

Definition match_fn := block -> Z -> block -> Z -> option Z.

(** The kinds of ACL that the [switch] of [acl_check] tells apart. *)
Inductive acl_type := Host | User | Group | Subnet | Generic.

(** The case of the [switch] (lines 217-233) that a type code takes. *)
Definition acl_type_of (E : extern) (type : Z) : acl_type :=
  if type =? ACL_Host E then Host
  else if type =? ACL_User E then User
  else if type =? ACL_Group E then Group
  else if type =? ACL_Subnet E then Subnet
  else Generic.

(** The match function the [switch] selects. *)
Definition match_func_of (E : extern) (type : Z) : match_fn :=
  match acl_type_of E type with
  | Host => hacl_match
  | User => user_match
  | Group => gacl_match E
  | Subnet => sacl_match E
  | Generic => strcmp
  end.

(** The loop of [acl_check] (lines 254-271) from entry [i] on. *)
Fixpoint acl_loop (fuel : nat) (match_func : match_fn) (mn : block)
    (name : Z) (pas : array_strings) (i : Z) (default_rtn : Z) : option Z :=
  if i <? as_usedptr pas then
    match fuel with
    | O => None
    | S fuel' =>
        pstr ← slot pas i;
        c ← load (buf_of pas) pstr;
        st ← (if Byte.eqb c ch_plus || Byte.eqb c ch_minus then
                c1 ← load (buf_of pas) (pstr + 1);
                Some (if Byte.eqb c1 NUL
                      then (if Byte.eqb c ch_plus then 1 else 0)
                      else default_rtn, pstr + 1)
              else Some (default_rtn, pstr));
        r ← match_func mn name (buf_of pas) st.2;
        if r =? 0 then Some (if Byte.eqb c ch_minus then 0 else 1)
        else acl_loop fuel' match_func mn name pas (i + 1) st.1
    end
  else Some default_rtn.

(** [acl_check(pattr, name, type)]; [name] is [None] for a NULL pointer. *)
Definition acl_check (E : extern) (pattr : attribute)
    (name : option (block * Z)) (type : Z) : option Z :=
  let default_rtn := if HOST_ACL_DEFAULT_ALL E then 1 else 0 in
  let match_func := match_func_of E type in
  match name with
  | None => Some default_rtn
  | Some (mn, name) =>
      let no_list :=
        match at_arst pattr with
        | None => true
        | Some pas => as_usedptr pas =? 0
        end in
      if (Z.land (at_flags pattr) (ATR_VFLAG_SET E) =? 0) || no_list then
        if HOST_ACL_DEFAULT_ALL E then Some 1
        else if type =? ACL_Host E then
          r ← hacl_match mn name (server_host E) 0;
          Some (if r =? 0 then 1 else 0)
        else Some 0
      else
        match at_arst pattr with
        | None => None
        | Some pas =>
            acl_loop (Z.to_nat (as_usedptr pas)) match_func mn name pas 0
              default_rtn
        end
  end.

(** ** The mutation *)

(** [enum batch_op] of [pbs_ifl.h]. *)
Inductive batch_op :=
| SET | UNSET | INCR | DECR | EQ | NE | GE | GT | LE | LT | DFLT.

(** What [set_allacl] returns: 0, written [PBSE_NONE], or an error number
    of [pbs_error.h]. *)
Inductive retcode := PBSE_NONE | PBSE_INTERNAL | PBSE_SYSTEM | PBSE_DUPLIST.

(** The answers of the allocator to the four requests [set_allacl] can
    make, in the order of the source.  A buffer that is granted comes with
    the bytes that happen to be in the new memory. *)
Record allocator := {
  (** line 366, [malloc] of the control structure *)
  malloc_pas : bool;
  (** line 404, [malloc(nsize)] *)
  malloc_buf : option (list byte);
  (** lines 434 and 436, [realloc(pas->as_buf, need)] or [malloc(need)] *)
  realloc_buf : option (list byte);
  (** line 455, [realloc] of the control structure *)
  realloc_pas : bool;
  (** line 402: where the buffer that [free] gives back was, counted from
      the null pointer *)
  freed_buf : positive
}.

(** A block of [n] bytes that starts with [old]; the rest is [fresh]. *)
Definition grant (old : block) (fresh : list byte) (n : Z) : block :=
  take (Z.to_nat n) (old ++ fresh ++ replicate (Z.to_nat n) NUL).

(** Values of type [unsigned long] and [int]. *)
Definition ulong (x : Z) : Z := x mod 2 ^ 64.
Definition int (x : Z) : Z := (x + 2 ^ 31) mod 2 ^ 32 - 2 ^ 31.

(** Writing one byte. *)
Definition store (m : block) (p : Z) (c : byte) : option block :=
  if (0 <=? p) && (p <? Z.of_nat (length m))
  then Some (<[Z.to_nat p := c]> m) else None.

(** Writing the bytes [bs] from [p] on. *)
Definition store_bytes (m : block) (p : Z) (bs : list byte) : option block :=
  if (0 <=? p) && (p + Z.of_nat (length bs) <=? Z.of_nat (length m))
  then Some (take (Z.to_nat p) m ++ bs ++
             drop (Z.to_nat p + length bs) m)
  else None.

(** [strcpy(dst, src)] where [s] is the content of [src]. *)
Definition strcpy (m : block) (dst : Z) (s : list byte) : option block :=
  store_bytes m dst (s ++ [NUL]).

(** [memmove(dst, src, n)] within one block. *)
Definition memmove (m : block) (dst src n : Z) : option block :=
  if (0 <=? src) && (0 <=? n) && (src + n <=? Z.of_nat (length m))
  then store_bytes m dst (take (Z.to_nat n) (drop (Z.to_nat src) m))
  else None.

(** [memset(buf, 0, n)] *)
Definition memset0 (buf : option block) (n : Z) : option (option block) :=
  match buf with
  | None => if n =? 0 then Some None else None
  | Some m => Some <$> store_bytes m 0 (replicate (Z.to_nat n) NUL)
  end.

(** [ptrs[i]] and [ptrs[i] = v] *)
Definition get_slot (ptrs : list (option Z)) (i : Z) : option (option Z) :=
  if 0 <=? i then ptrs !! Z.to_nat i else None.

Definition set_slot (ptrs : list (option Z)) (i : Z) (v : option Z)
    : option (list (option Z)) :=
  if (0 <=? i) && (i <? Z.of_nat (length ptrs))
  then Some (<[Z.to_nat i := v]> ptrs) else None.

(** [for (j = lo; j < hi; ++j) if (f j) return 1;] and 0 after the loop. *)
Fixpoint any_upto (fuel : nat) (f : Z -> option bool) (j hi : Z)
    : option bool :=
  if j <? hi then
    match fuel with
    | O => None
    | S fuel' =>
        b ← f j;
        if b : bool then Some true else any_upto fuel' f (j + 1) hi
    end
  else Some false.

(** [strcmp(a->as_string[i], b->as_string[j]) == 0] *)
Definition same_string (a : array_strings) (i : Z) (b : array_strings)
    (j : Z) : option bool :=
  p ← slot a i; q ← slot b j;
  d ← strcmp (buf_of a) p (buf_of b) q;
  Some (d =? 0).

(** [chk_dup_acl(old, new)] *)
Definition chk_dup_acl (old new : array_strings) : option bool :=
  any_upto (Z.to_nat (as_usedptr new))
    (fun i =>
       self ← any_upto (Z.to_nat (as_usedptr new))
                (fun j => if i =? j then Some false
                          else same_string new i new j)
                0 (as_usedptr new);
       if self : bool then Some true
       else any_upto (Z.to_nat (as_usedptr old))
              (fun j => same_string new i old j) 0 (as_usedptr old))
    0 (as_usedptr new).

(** [for (i = lo; i < hi; i++) ptrs[i] = f ptrs[i];] *)
Fixpoint each_slot (fuel : nat) (f : option Z -> option Z)
    (ptrs : list (option Z)) (i hi : Z) : option (list (option Z)) :=
  if i <? hi then
    match fuel with
    | O => None
    | S fuel' =>
        v ← get_slot ptrs i;
        ptrs' ← set_slot ptrs i (f v);
        each_slot fuel' f ptrs' (i + 1) hi
    end
  else Some ptrs.

(** The search of lines 466-469: the first [j] whose string sorts after
    the new one, [as_usedptr] when there is none. *)
Fixpoint find_place (fuel : nat) (order_func : match_fn)
    (pas : array_strings) (mnew : block) (pnew : Z) (j : Z) : option Z :=
  if j <? as_usedptr pas then
    match fuel with
    | O => None
    | S fuel' =>
        p ← slot pas j;
        d ← order_func (buf_of pas) p mnew pnew;
        if 0 <? d then Some j
        else find_place fuel' order_func pas mnew pnew (j + 1)
    end
  else Some j.

(** The loop of lines 477-480, which moves the bytes from [lo] to [pc] up
    by [offset], last byte first. *)
Fixpoint shift_up (fuel : nat) (m : block) (lo offset pc : Z)
    : option block :=
  if lo <=? pc then
    match fuel with
    | O => None
    | S fuel' =>
        c ← load m pc;
        m' ← store m (pc + offset) c;
        shift_up fuel' m' lo offset (pc - 1)
    end
  else Some m.

(** The loop of lines 481-483. *)
Fixpoint shift_ptrs (fuel : nat) (ptrs : list (option Z)) (j offset k : Z)
    : option (list (option Z)) :=
  if j <? k then
    match fuel with
    | O => None
    | S fuel' =>
        v ← get_slot ptrs (k - 1);
        ptrs' ← set_slot ptrs k ((fun p => p + offset) <$> v);
        shift_ptrs fuel' ptrs' j offset (k - 1)
    end
  else Some ptrs.

(** Lines 472-490: the string with content [s], which takes [offset]
    bytes with its NUL, is put into [pas] at place [j]. *)
Definition put_entry (pas : array_strings) (j offset : Z) (s : list byte)
    : option array_strings :=
  st ← (if j <? as_usedptr pas then
          where_ ← slot pas j;
          m ← shift_up (Z.to_nat (as_next pas - where_)) (buf_of pas)
                 where_ offset (as_next pas - 1);
          ptrs ← shift_ptrs (Z.to_nat (as_usedptr pas - j)) (as_string pas)
                    j offset (as_usedptr pas);
          Some (m, ptrs, where_)
        else Some (buf_of pas, as_string pas, as_next pas));
  let '(m, ptrs, where_) := st in
  m ← strcpy m where_ s;
  ptrs ← set_slot ptrs j (Some where_);
  Some {| as_npointers := as_npointers pas;
          as_usedptr := as_usedptr pas + 1;
          as_bufsize := as_bufsize pas;
          as_buf := Some m;
          as_next := as_next pas + offset;
          as_string := ptrs |}.

(** One turn of the loop of lines 465-491: string [i] of [newpas] is put
    into [pas] before the first string that sorts after it. *)
Definition insert_entry (order_func : match_fn) (pas newpas : array_strings)
    (i : Z) : option array_strings :=
  pnew ← slot newpas i;
  j ← find_place (Z.to_nat (as_usedptr pas)) order_func pas
         (buf_of newpas) pnew 0;
  len ← strlen (buf_of newpas) pnew;
  s ← cstr (buf_of newpas) pnew;
  put_entry pas j (len + 1) s.

(** The loop of lines 465-491. *)
Fixpoint insert_all (fuel : nat) (order_func : match_fn)
    (pas newpas : array_strings) (i : Z) : option array_strings :=
  if i <? as_usedptr newpas then
    match fuel with
    | O => None
    | S fuel' =>
        pas' ← insert_entry order_func pas newpas i;
        insert_all fuel' order_func pas' newpas (i + 1)
    end
  else Some pas.

(** The search of lines 496-497: the first [i] whose string equals string
    [j] of [newpas], [None] inside when there is none. *)
Fixpoint find_equal (fuel : nat) (pas newpas : array_strings) (j i : Z)
    : option (option Z) :=
  if i <? as_usedptr pas then
    match fuel with
    | O => None
    | S fuel' =>
        b ← same_string pas i newpas j;
        if b : bool then Some (Some i)
        else find_equal fuel' pas newpas j (i + 1)
    end
  else Some None.

(** The loop of lines 505-506. *)
Fixpoint compact_ptrs (fuel : nat) (ptrs : list (option Z)) (nsize i hi : Z)
    : option (list (option Z)) :=
  if i <? hi then
    match fuel with
    | O => None
    | S fuel' =>
        v ← get_slot ptrs i;
        ptrs' ← set_slot ptrs (i - 1) ((fun p => p - nsize) <$> v);
        compact_ptrs fuel' ptrs' nsize (i + 1) hi
    end
  else Some ptrs.

(** Lines 498-508: string [i] is taken out of [pas]. *)
Definition remove_entry (pas : array_strings) (i : Z) : option array_strings :=
  p ← slot pas i;
  len ← strlen (buf_of pas) p;
  let nsize := len + 1 in
  let pc := p + nsize in
  let need := as_next pas - pc in
  m ← memmove (buf_of pas) p pc need;
  ptrs ← compact_ptrs (Z.to_nat (as_npointers pas - (i + 1)))
            (as_string pas) nsize (i + 1) (as_npointers pas);
  let i' := Z.max (i + 1) (as_npointers pas) in
  ptrs ← set_slot ptrs (i' - 1) None;
  Some {| as_npointers := as_npointers pas;
          as_usedptr := as_usedptr pas - 1;
          as_bufsize := as_bufsize pas;
          as_buf := Some m;
          as_next := as_next pas - nsize;
          as_string := ptrs |}.

(** The loop of lines 495-512. *)
Fixpoint remove_all (fuel : nat) (pas newpas : array_strings) (j : Z)
    : option array_strings :=
  if j <? as_usedptr newpas then
    match fuel with
    | O => None
    | S fuel' =>
        found ← find_equal (Z.to_nat (as_usedptr pas)) pas newpas j 0;
        pas' ← match found with
                | Some i => remove_entry pas i
                | None => Some pas
                end;
        remove_all fuel' pas' newpas (j + 1)
    end
  else Some pas.

(** The [SET] case up to where it falls into [INCR] (lines 391-414).
    [Return] is a [break] or a [return] with the code to give back.
    When [malloc] fails at line 404 the buffer is the null pointer and
    [as_next], set at line 394, still points to the buffer that line 402
    freed: counted from the buffer it is the address of that block, not
    an offset into any memory the array has. *)
Definition set_case (A : allocator) (pas newpas : array_strings)
    : option (flow (retcode * array_strings) array_strings) :=
  ptrs ← each_slot (Z.to_nat (as_usedptr pas)) (fun _ => None)
            (as_string pas) 0 (as_usedptr pas);
  let pas := {| as_npointers := as_npointers pas;
                as_usedptr := 0;
                as_bufsize := as_bufsize pas;
                as_buf := as_buf pas;
                as_next := 0;
                as_string := ptrs |} in
  if as_usedptr newpas =? 0 then Some (Return (PBSE_NONE, pas))
  else
    let nsize := ulong (as_next newpas) in
    if ulong (as_bufsize pas) <? nsize then
      let nsize := ulong (nsize + nsize / 2) in
      match malloc_buf A with
      | None =>
          Some (Return (PBSE_SYSTEM,
                        {| as_npointers := as_npointers pas;
                           as_usedptr := 0;
                           as_bufsize := 0;
                           as_buf := None;
                           as_next := match as_buf pas with
                                      | Some _ => Z.pos (freed_buf A)
                                      | None => 0
                                      end;
                           as_string := ptrs |}))
      | Some fresh =>
          Some (Next {| as_npointers := as_npointers pas;
                        as_usedptr := 0;
                        as_bufsize := int nsize;
                        as_buf := Some (grant [] fresh nsize);
                        as_next := 0;
                        as_string := ptrs |})
      end
    else
      m ← memset0 (as_buf pas) (as_bufsize pas);
      Some (Next {| as_npointers := as_npointers pas;
                    as_usedptr := 0;
                    as_bufsize := as_bufsize pas;
                    as_buf := m;
                    as_next := 0;
                    as_string := ptrs |}).

(** Lines 425-446: room in the buffer for [nsize] more bytes.  The
    pointers are offsets from the start of the buffer, so the loop that
    adjusts them to the new address leaves each as it is. *)
Definition grow_buf (A : allocator) (pas : array_strings) (nsize : Z)
    : option (flow retcode array_strings) :=
  let used := int (as_next pas) in
  if ulong (int (as_bufsize pas - used)) <? nsize then
    let need := ulong (as_bufsize pas + 2 * nsize) in
    match realloc_buf A with
    | None => Some (Return PBSE_SYSTEM)
    | Some fresh =>
        ptrs ← each_slot (Z.to_nat (as_usedptr pas)) (fun p => p)
                  (as_string pas) 0 (as_usedptr pas);
        Some (Next {| as_npointers := as_npointers pas;
                      as_usedptr := as_usedptr pas;
                      as_bufsize := int need;
                      as_buf := Some (grant (buf_of pas) fresh need);
                      as_next := used;
                      as_string := ptrs |})
    end
  else Some (Next pas).

(** Lines 448-461: slots for [n] more strings. *)
Definition grow_ptrs (A : allocator) (pas : array_strings) (n : Z)
    : flow retcode array_strings :=
  let j := int (as_usedptr pas + n) in
  if as_npointers pas <? j then
    let j := Z.quot (int (3 * j)) 2 in
    if realloc_pas A then
      Next {| as_npointers := j;
              as_usedptr := as_usedptr pas;
              as_bufsize := as_bufsize pas;
              as_buf := as_buf pas;
              as_next := as_next pas;
              as_string :=
                take (Z.to_nat j)
                  (as_string pas ++ replicate (Z.to_nat j) None) |}
    else Return PBSE_SYSTEM
  else Next pas.

(** The [INCR] case (lines 418-492). *)
Definition incr_case (A : allocator) (order_func : match_fn)
    (pas newpas : array_strings) : option (retcode * array_strings) :=
  dup ← chk_dup_acl pas newpas;
  if dup : bool then Some (PBSE_DUPLIST, pas)
  else
    grown ← grow_buf A pas (ulong (as_next newpas));
    match grown with
    | Return e => Some (e, pas)
    | Next pas1 =>
        match grow_ptrs A pas1 (as_usedptr newpas) with
        | Return e => Some (e, pas1)
        | Next pas2 =>
            pas3 ← insert_all (Z.to_nat (as_usedptr newpas)) order_func
                      pas2 newpas 0;
            Some (PBSE_NONE, pas3)
        end
    end.

(** Lines 364-376: the array of strings of the attribute, made with room
    for as many pointers as the operand has when the attribute has none. *)
Definition make_arst (A : allocator) (attr : attribute)
    (newpas : array_strings) : option array_strings :=
  match at_arst attr with
  | Some pas => Some pas
  | None =>
      if malloc_pas A then
        Some {| as_npointers := as_npointers newpas;
                as_usedptr := 0;
                as_bufsize := 0;
                as_buf := None;
                as_next := 0;
                as_string :=
                  replicate (Z.to_nat (as_npointers newpas)) None |}
      else None
  end.

(** [set_allacl(attr, new, op, order_func)]: the value returned and the
    attribute afterwards.  [post_attr_set] of the caller's library marks
    the attribute as set and modified; it is the parameter [post]. *)
Definition set_allacl (E : extern) (A : allocator)
    (post : attribute -> attribute) (order_func : match_fn)
    (attr new : attribute) (op : batch_op) : option (retcode * attribute) :=
  if Z.land (at_flags new) (ATR_VFLAG_SET E) =? 0 then None
  else
    match at_arst new with
    | None => Some (PBSE_INTERNAL, attr)
    | Some newpas =>
        match make_arst A attr newpas with
        | None => Some (PBSE_SYSTEM, attr)
        | Some pas =>
            let put pas := {| at_flags := at_flags attr;
                              at_arst := Some pas |} in
            r ← match op with
                | SET =>
                    f ← set_case A pas newpas;
                    match f with
                    | Return r => Some r
                    | Next pas' => incr_case A order_func pas' newpas
                    end
                | INCR => incr_case A order_func pas newpas
                | DECR =>
                    pas' ← remove_all (Z.to_nat (as_usedptr newpas))
                              pas newpas 0;
                    Some (PBSE_NONE, pas')
                | _ => Some (PBSE_INTERNAL, pas)
                end;
            match r with
            | (PBSE_NONE, pas') => Some (PBSE_NONE, post (put pas'))
            | (e, pas') => Some (e, put pas')
            end
        end
    end.

(** [set_uacl], [set_gacl] and [set_hostacl] (lines 123-180): the mutation
    with the order function of the kind of ACL. *)
Definition set_uacl (E : extern) (A : allocator)
    (post : attribute -> attribute) (attr new : attribute) (op : batch_op)
    : option (retcode * attribute) :=
  set_allacl E A post user_order attr new op.

Definition set_gacl (E : extern) (A : allocator)
    (post : attribute -> attribute) (attr new : attribute) (op : batch_op)
    : option (retcode * attribute) :=
  set_allacl E A post group_order attr new op.

Definition set_hostacl (E : extern) (A : allocator)
    (post : attribute -> attribute) (attr new : attribute) (op : batch_op)
    : option (retcode * attribute) :=
  set_allacl E A post host_order attr new op.

(** ** Arrays of strings as lists *)

(** The offsets of the strings of [l] when they are stored one after the
    other from offset [o] on. *)
Fixpoint offsets (o : Z) (l : list (list byte)) : list Z :=
  match l with
  | [] => []
  | s :: l' => o :: offsets (o + Z.of_nat (length s) + 1) l'
  end.

(** The bytes of the strings of [l] stored one after the other. *)
Definition packed (l : list (list byte)) : list byte :=
  concat (map (fun s => s ++ [NUL]) l).

(** The array that holds exactly the strings of [l], the way the decoder
    of the attribute builds the operand of a mutation. *)
Definition arst_of (l : list (list byte)) : array_strings :=
  {| as_npointers := Z.of_nat (length l);
     as_usedptr := Z.of_nat (length l);
     as_bufsize := Z.of_nat (length (packed l));
     as_buf := Some (packed l);
     as_next := Z.of_nat (length (packed l));
     as_string := Some <$> offsets 0 l |}.

(** The strings an array holds, read through its pointers. *)
Definition strings_of (pas : array_strings) : list (option (list byte)) :=
  (fun p => p ≫= cstr (buf_of pas)) <$>
    take (Z.to_nat (as_usedptr pas)) (as_string pas).

Definition entries_of (attr : attribute) : list (option (list byte)) :=
  match at_arst attr with
  | None => []
  | Some pas => strings_of pas
  end.

Definition bytes (s : string) : list byte := list_byte_of_string s.

(** An environment for examples: dotted-quad addresses and decimal
    numbers are read the way the C library reads them. *)
Definition is_digit (c : byte) : bool :=
  (48 <=? uchar c) && (uchar c <=? 57).

(** The digits at the head of [s] as a number, and what follows them. *)
Fixpoint read_digits (acc : Z) (s : list byte) : Z * list byte :=
  match s with
  | c :: s' => if is_digit c then read_digits (10 * acc + (uchar c - 48)) s'
               else (acc, s)
  | [] => (acc, s)
  end.

(** One number of a dotted address, as [inet_pton] of the C library
    reads it: one to three digits, at most 255, and no digit after a
    leading zero. *)
Definition read_octet (s : list byte) : option (Z * list byte) :=
  match s with
  | a :: s1 =>
      if is_digit a then
        match s1 with
        | b :: s2 =>
            if is_digit b then
              if uchar a =? 48 then None
              else
                match s2 with
                | c :: s3 =>
                    if is_digit c then
                      let v := 100 * (uchar a - 48) + 10 * (uchar b - 48)
                               + (uchar c - 48) in
                      if v <=? 255 then Some (v, s3) else None
                    else Some (10 * (uchar a - 48) + (uchar b - 48), s2)
                | [] => Some (10 * (uchar a - 48) + (uchar b - 48), s2)
                end
            else Some (uchar a - 48, s1)
        | [] => Some (uchar a - 48, s1)
        end
      else None
  | [] => None
  end.

Definition expect_dot (s : list byte) : option (list byte) :=
  match s with
  | c :: s' => if Byte.eqb c ch_dot then Some s' else None
  | [] => None
  end.

(** "ddd.ddd.ddd.ddd" as a 32-bit number: four such numbers with one
    dot between two of them and nothing else, as [inet_pton] of the C
    library takes an [AF_INET] address. *)
Definition dotted_quad (s : list byte) : option Z :=
  '(a, s) ← read_octet s; s ← expect_dot s;
  '(b, s) ← read_octet s; s ← expect_dot s;
  '(c, s) ← read_octet s; s ← expect_dot s;
  '(d, s) ← read_octet s;
  if bool_decide (s = []) then Some (((a * 256 + b) * 256 + c) * 256 + d)
  else None.

(** White space as [isspace] has it in the C locale. *)
Definition is_space (c : byte) : bool :=
  (uchar c =? 32) || ((9 <=? uchar c) && (uchar c <=? 13)).

Fixpoint skip_spaces (s : list byte) : list byte :=
  match s with
  | c :: s' => if is_space c then skip_spaces s' else s
  | [] => []
  end.

(** What [strtol] gives for a number outside of [long]. *)
Definition long_sat (v : Z) : Z := Z.max (- 2 ^ 63) (Z.min v (2 ^ 63 - 1)).

(** [atoi] of the C library, which is [(int) strtol(s, NULL, 10)]: white
    space is skipped, then an optional sign and the digits that follow
    are read, whatever comes after them is ignored, and the [long] is cut
    to an [int]. *)
Definition decimal (s : list byte) : Z :=
  let v := match skip_spaces s with
           | c :: s' =>
               if Byte.eqb c ch_minus then - (read_digits 0 s').1
               else if Byte.eqb c ch_plus then (read_digits 0 s').1
               else (read_digits 0 (c :: s')).1
           | [] => 0
           end in
  int (long_sat v).

Definition example_extern : extern :=
  {| inet_pton := dotted_quad;
     atoi := decimal;
     getgrouplist := fun _ => None;
     server_host := lit "server.example.com";
     HOST_ACL_DEFAULT_ALL := false;
     PBS_MAXIP_LEN := 15;
     ACL_Host := 1;
     ACL_User := 2;
     ACL_Group := 3;
     ACL_Subnet := 4;
     ATR_VFLAG_SET := 1 |}.

(** An allocator that grants every request, with zeroed memory. *)
Definition generous : allocator :=
  {| malloc_pas := true;
     malloc_buf := Some [];
     realloc_buf := Some [];
     realloc_pas := true;
     freed_buf := 4096 |}.

Definition attr_of (l : list string) : attribute :=
  {| at_flags := 1; at_arst := Some (arst_of (bytes <$> l)) |}.

Definition no_list : attribute := {| at_flags := 0; at_arst := None |}.

(** A [post_attr_set] for examples: it marks the attribute as set. *)
Definition mark_set (a : attribute) : attribute :=
  {| at_flags := Z.lor (at_flags a) 1; at_arst := at_arst a |}.

(** ** The statements of the design document *)

(** Two characters that are equal when case is ignored. *)
Definition same_char_ci (x y : byte) : Prop :=
  tolower (int_of_char x) = tolower (int_of_char y).

(** Two strings of the same length whose characters are equal when case
    is ignored. *)
Definition same_ci (a b : list byte) : Prop := Forall2 same_char_ci a b.

(** The backward scan reaches the first character of the pattern, and that
    character is '*': the characters after the '*' are the end of the
    candidate, and the candidate has a character left for the '*' unless
    the '*' is the whole pattern, where the scan starts on it. *)
Definition wildcard_match (c m : list byte) : Prop :=
  exists ms cp cs,
    m = ch_star :: ms /\ c = cp ++ cs /\ same_ci cs ms /\ (ms = [] \/ cp <> []).

(** The match of the design document: the wildcard, or both strings used
    up together with all characters equal. *)
Definition hacl_claim (c m : list byte) : Prop :=
  wildcard_match c m \/ same_ci c m.

(** The same with strings that are not empty in the second case. *)
Definition hacl_amended (c m : list byte) : Prop :=
  wildcard_match c m \/ (c <> [] /\ same_ci c m).

(** [hacl_match] on the contents of its strings, last character first. *)
Fixpoint hacl_rev (rc rm : list byte) : Z :=
  match rc, rm with
  | x :: ((_ :: _) as rc'), y :: ((_ :: _) as rm') =>
      if tolower (int_of_char x) =? tolower (int_of_char y)
      then hacl_rev rc' rm' else 1
  | _, [y] =>
      if Byte.eqb y ch_star then 0
      else match rc with
           | [x] =>
               if tolower (int_of_char x) =? tolower (int_of_char y)
               then 0 else 1
           | _ => 1
           end
  | _, _ => 1
  end.

(** The bytes of [rc], last first, end at offset [p + length rc - 1]. *)
Definition holds_rev (m : block) (p : Z) (rc : list byte) : Prop :=
  forall (k : nat) (c : byte),
    rc !! k = Some c ->
    load m (p + Z.of_nat (length rc) - 1 - Z.of_nat k) = Some c.

(** [wildcard_match] on strings read last character first. *)
Definition wildcard_rev (rc rm : list byte) : Prop :=
  exists rs pre rcs,
    rm = rs ++ [ch_star] /\ rc = rcs ++ pre /\ same_ci rcs rs /\
    (rs = [] \/ pre <> []).


(** An entry without its leading '+' or '-'. *)
Definition strip_sign (e : list byte) : list byte :=
  match e with
  | c :: e' => if Byte.eqb c ch_plus || Byte.eqb c ch_minus then e' else e
  | [] => []
  end.

(** The running default after an entry: "+" and "-" set it. *)
Definition next_default (e : list byte) (default_rtn : Z) : Z :=
  match e with
  | [c] => if Byte.eqb c ch_plus then 1
           else if Byte.eqb c ch_minus then 0 else default_rtn
  | _ => default_rtn
  end.

(** What a matching entry decides: deny for a leading '-', else allow. *)
Definition verdict (e : list byte) : Z :=
  match e with
  | c :: _ => if Byte.eqb c ch_minus then 0 else 1
  | [] => 1
  end.

(** The mask that has the [n] high bits of its 32 bits set. *)
Definition prefix_mask (n : Z) : Z := 2 ^ 32 - 2 ^ (32 - n).

(** The mask written behind the '/': a dotted mask as [inet_pton] reads
    it, or the number that [atoi] makes of the string when that number is
    from 0 to 32. *)
Definition claimed_mask (E : extern) (after : list byte) : option Z :=
  if bool_decide (ch_dot ∈ after) then inet_pton E after
  else
    let n := atoi E after in
    if bool_decide (0 <= n <= 32) then Some (prefix_mask n) else None.

(** The subnet match in terms of what [inet_pton] and [atoi] make of the
    strings: the candidate is an address, the pattern is a subnet, a '/'
    and a mask that is not empty, the mask is not 0, and address and
    subnet agree under the mask. *)
Definition sacl_claim (E : extern) (can master : list byte) : Prop :=
  exists ip sub after subnet mask,
    inet_pton E can = Some ip /\
    master = sub ++ ch_slash :: after /\ (ch_slash ∉ sub) /\ after <> [] /\
    inet_pton E sub = Some subnet /\
    claimed_mask E after = Some mask /\
    mask <> 0 /\ Z.land ip mask = Z.land subnet mask.

(** The subnet match of the design document, on the strings as they are
    written.  A prefix length from 0 to 32 is a string of decimal digits
    that writes such a number. *)
Definition prefix_length (after : list byte) : option Z :=
  if forallb is_digit after && negb (bool_decide (after = [])) then
    let n := (read_digits 0 after).1 in
    if n <=? 32 then Some n else None
  else None.

(** The mask behind the '/': a dotted mask, or a prefix length from 0 to
    32. *)
Definition written_mask (after : list byte) : option Z :=
  if bool_decide (ch_dot ∈ after) then dotted_quad after
  else prefix_mask <$> prefix_length after.

(** The candidate is a dotted address, the pattern splits at its '/' into
    a dotted subnet and a mask, the mask is not 0, and address and subnet
    agree under the mask. *)
Definition sacl_written (can master : list byte) : bool :=
  match dotted_quad can, strchr master ch_slash with
  | Some ip, Some len =>
      match dotted_quad (take len master),
            written_mask (drop (S len) master) with
      | Some subnet, Some mask =>
          negb (mask =? 0) && (Z.land ip mask =? Z.land subnet mask)
      | _, _ => false
      end
  | _, _ => false
  end.

(** ** Arrays of strings and the lists they stand for *)

(** [pas] holds the strings of [l]: they lie one after the other from the
    start of the buffer, [as_next] is the first byte behind them, the first
    slots of [as_string] point to them, and the fields of type [int] hold
    the sizes of the buffer and of the table of slots. *)
Record holds (l : list (list byte)) (pas : array_strings) : Prop := {
  holds_nonul : Forall (fun s => NUL ∉ s) l;
  holds_usedptr : as_usedptr pas = Z.of_nat (length l);
  holds_npointers : as_npointers pas = Z.of_nat (length (as_string pas));
  holds_next : as_next pas = Z.of_nat (length (packed l));
  holds_bufsize : as_bufsize pas = Z.of_nat (length (buf_of pas));
  holds_buf : exists rest, buf_of pas = packed l ++ rest;
  holds_string : exists slots, as_string pas = (Some <$> offsets 0 l) ++ slots;
  holds_int : as_bufsize pas < 2 ^ 31 /\ as_npointers pas < 2 ^ 31
}.

(** The value of an ACL attribute stands for the list [l]: no array of
    strings yet and the empty list, or an array that holds [l]. *)
Definition attr_holds (l : list (list byte)) (attr : attribute) : Prop :=
  match at_arst attr with
  | None => l = []
  | Some pas => holds l pas
  end.

(** The operand of a mutation gives the strings of [l]: its first slots
    point to them, and [as_next] lies behind all their bytes. *)
Record gives (l : list (list byte)) (new : attribute) (E : extern)
    (newpas : array_strings) : Prop := {
  gives_set : Z.land (at_flags new) (ATR_VFLAG_SET E) <> 0;
  gives_arst : at_arst new = Some newpas;
  gives_usedptr : as_usedptr newpas = Z.of_nat (length l);
  gives_strings :
    forall (i : nat) (s : list byte),
      l !! i = Some s ->
      exists p, slot newpas (Z.of_nat i) = Some p /\
                cstr (buf_of newpas) p = Some s;
  gives_next : Z.of_nat (length (packed l)) <= as_next newpas < 2 ^ 31;
  gives_npointers : 0 <= as_npointers newpas < 2 ^ 31
}.

(** An Add has a duplicate: two equal strings in the operand, or a string
    of the operand that the list holds already. *)
Definition duplicate (l ln : list (list byte)) : Prop :=
  ~ NoDup ln \/ exists s, s ∈ ln /\ s ∈ l.

(** The list without the first string that equals [s]; the list itself
    when no string equals [s]. *)
Fixpoint remove_first (s : list byte) (l : list (list byte))
    : list (list byte) :=
  match l with
  | [] => []
  | x :: l' => if bool_decide (x = s) then l' else x :: remove_first s l'
  end.

(** Remove with the operand [ln]: its strings are taken out one by one. *)
Definition remove_each (ln l : list (list byte)) : list (list byte) :=
  foldl (fun acc s => remove_first s acc) l ln.

(** The index of the first string of [l] that equals [s]. *)
Fixpoint first_index (s : list byte) (l : list (list byte)) : option nat :=
  match l with
  | [] => None
  | x :: l' => if bool_decide (x = s) then Some O
               else S <$> first_index s l'
  end.

(** An order function returns for every two strings that are not empty. *)
Definition returns_on_strings (order_func : match_fn) : Prop :=
  forall m1 p1 m2 p2 s1 s2,
    cstr m1 p1 = Some s1 -> cstr m2 p2 = Some s2 ->
    s1 <> [] -> s2 <> [] ->
    is_Some (order_func m1 p1 m2 p2).

(** An order function returns on the entries of an Add of [ln] to [l]:
    whenever it is given a string that is stored or in the operand, and a
    different string of the operand. *)
Definition returns_on_entries (order_func : match_fn)
    (l ln : list (list byte)) : Prop :=
  forall m1 p1 m2 p2 s1 s2,
    cstr m1 p1 = Some s1 -> cstr m2 p2 = Some s2 ->
    s1 ∈ l ++ ln -> s2 ∈ ln -> s1 <> s2 ->
    is_Some (order_func m1 p1 m2 p2).

(** The strings of [l] can be read through the first slots of [pas]. *)
Definition reads (l : list (list byte)) (pas : array_strings) : Prop :=
  as_usedptr pas = Z.of_nat (length l) /\
  forall (i : nat) (s : list byte),
    l !! i = Some s ->
    exists p, slot pas (Z.of_nat i) = Some p /\ cstr (buf_of pas) p = Some s.

(** An allocator that refuses every request. *)
Definition refusing : allocator :=
  {| malloc_pas := false;
     malloc_buf := None;
     realloc_buf := None;
     realloc_pas := false;
     freed_buf := 4096 |}.

(** The attribute [attr] with the array [pas] as its value. *)
Definition with_arst (attr : attribute) (pas : array_strings) : attribute :=
  {| at_flags := at_flags attr; at_arst := Some pas |}.

(** The allocator grants what an Add can ask for. *)
Definition grants_add (A : allocator) : Prop :=
  is_Some (realloc_buf A) /\ realloc_pas A = true.

(** The size of the buffer of an attribute, 0 without an array. *)
Definition bufsize_of (attr : attribute) : Z :=
  match at_arst attr with
  | Some pas => as_bufsize pas
  | None => 0
  end.

(** The sizes of an operand are those of C ints that are not negative. *)
Definition operand_sized (new : attribute) : Prop :=
  forall newpas,
    at_arst new = Some newpas ->
    0 <= as_next newpas < 2 ^ 31 /\ 0 <= as_npointers newpas < 2 ^ 31.

(** ** The functions on the contents of their strings *)

(** [hacl_match] on the contents of its two strings. *)
Definition hacl_match_bytes (c m : list byte) : Z :=
  hacl_rev (reverse c) (reverse m).

(** [user_match] on the contents of its two strings, for a master that is
    not empty: the loop compares character by character until the master
    is at '@' or at its end. *)
Fixpoint user_match_bytes (c m : list byte) {struct m} : Z :=
  match m, c with
  | x :: m', y :: c' =>
      if Byte.eqb x y then
        match m' with
        | [] =>
            match c' with
            | [] => 0
            | z :: _ => if Byte.eqb z ch_at then 0 else 1
            end
        | x' :: hm =>
            if Byte.eqb x' ch_at then
              match c' with
              | z :: hc =>
                  if Byte.eqb z ch_at then hacl_match_bytes hc hm else 1
              | [] => 1
              end
            else user_match_bytes c' m'
        end
      else 1
  | _, _ => 1
  end.

(** [gacl_match] on the contents of its two strings. *)
Definition gacl_match_bytes (E : extern) (c m : list byte) : Z :=
  match getgrouplist E c with
  | None => 1
  | Some groups => if bool_decide (m ∈ groups) then 0 else 1
  end.

(** The match function of a kind of ACL on the contents of its strings. *)
Definition match_bytes (E : extern) (t : acl_type) (c m : list byte) : Z :=
  match t with
  | Host => hacl_match_bytes c m
  | User => user_match_bytes c m
  | Group => gacl_match_bytes E c m
  | Subnet => sacl_match_bytes E c m
  | Generic => strcmp_bytes c m
  end.

(** The candidate [c] matches the entry [e] of an ACL of kind [t]. *)
Definition matches (E : extern) (t : acl_type) (c e : list byte) : Prop :=
  match_bytes E t c (strip_sign e) = 0.

(** The scan of [acl_check] over the entries of the list. *)
Fixpoint scan (f : list byte -> Z) (l : list (list byte)) (default_rtn : Z)
    : Z :=
  match l with
  | [] => default_rtn
  | e :: l' =>
      if f (strip_sign e) =? 0 then verdict e
      else scan f l' (next_default e default_rtn)
  end.

(** The scan as the design document has it: an entry that is exactly "+"
    or "-" sets the default and the scan goes on, without a match being
    tried against it. *)
Fixpoint scan_claimed (f : list byte -> Z) (l : list (list byte))
    (default_rtn : Z) : Z :=
  match l with
  | [] => default_rtn
  | e :: l' =>
      if bool_decide (e = [ch_plus] \/ e = [ch_minus])
      then scan_claimed f l' (next_default e default_rtn)
      else if f (strip_sign e) =? 0 then verdict e
      else scan_claimed f l' default_rtn
  end.

(** The default after all the entries of [l]: that of the last "+" or "-"
    among them. *)
Definition final_default (l : list (list byte)) (default_rtn : Z) : Z :=
  foldl (fun d e => next_default e d) default_rtn l.

(** The default [acl_check] starts with. *)
Definition first_default (E : extern) : Z :=
  if HOST_ACL_DEFAULT_ALL E then 1 else 0.

(** The attribute is set and has entries. *)
Definition has_list (E : extern) (pattr : attribute) (l : list (list byte))
    : Prop :=
  Z.land (at_flags pattr) (ATR_VFLAG_SET E) <> 0 /\
  l <> [] /\
  exists pas, at_arst pattr = Some pas /\ holds l pas.

(** The user match in words: the master is a user name [x :: u], which
    runs up to the first '@' behind its first character, alone or with a
    host pattern behind the '@'.  A master without host matches the
    candidates with that user name, with any host or none; a master with a
    host pattern matches the candidates with that user name and a host
    that the pattern matches as in [hacl_match]. *)
Definition user_matches (c m : list byte) : Prop :=
  exists (x : byte) (u : list byte),
    (ch_at ∉ u) /\
    ((m = x :: u /\ (c = x :: u \/ exists h, c = x :: u ++ ch_at :: h)) \/
     (exists hm hc,
        m = x :: u ++ ch_at :: hm /\ c = x :: u ++ ch_at :: hc /\
        hacl_amended hc hm)).

(** The attribute is not set, has no array of strings, or has no entry. *)
Definition no_entries (E : extern) (pattr : attribute) : Prop :=
  Z.land (at_flags pattr) (ATR_VFLAG_SET E) = 0 \/
  match at_arst pattr with
  | None => True
  | Some pas => as_usedptr pas = 0
  end.

(** ** The order functions on the contents of their strings *)

(** [group_order] on the contents of its two strings. *)
Definition group_ord (s1 s2 : list byte) : Z :=
  strcmp_bytes (strip_sign s1) (strip_sign s2).

(** The loop of [host_order] on the two strings behind their signs, read
    last character first. *)
Fixpoint host_rev (r1 r2 : list byte) : Z :=
  match r1, r2 with
  | x :: ((_ :: _) as r1'), y :: ((_ :: _) as r2') =>
      if int_of_char y - int_of_char x =? 0 then host_rev r1' r2'
      else int_of_char y - int_of_char x
  | [x], [y] =>
      if Byte.eqb x ch_star then 1
      else if Byte.eqb y ch_star then -1
      else int_of_char y - int_of_char x
  | [_], _ => 1
  | _, _ => -1
  end.

(** [host_order] on the contents of its two strings. *)
Definition host_ord (s1 s2 : list byte) : Z :=
  host_rev (reverse (strip_sign s1)) (reverse (strip_sign s2)).

(** The order function answers [ord] on the contents of two strings that
    are not empty. *)
Definition orders_by (order_func : match_fn)
    (ord : list byte -> list byte -> Z) : Prop :=
  forall m1 p1 m2 p2 s1 s2,
    cstr m1 p1 = Some s1 -> cstr m2 p2 = Some s2 ->
    s1 <> [] -> s2 <> [] ->
    order_func m1 p1 m2 p2 = Some (ord s1 s2).

(** The place of the string [s] in the list [l]: before the first string
    that [ord] puts behind it, at the end when there is none. *)
Fixpoint place (ord : list byte -> list byte -> Z) (s : list byte)
    (l : list (list byte)) : nat :=
  match l with
  | [] => O
  | e :: l' => if 0 <? ord e s then O else S (place ord s l')
  end.

Definition insert_by (ord : list byte -> list byte -> Z) (s : list byte)
    (l : list (list byte)) : list (list byte) :=
  take (place ord s l) l ++ s :: drop (place ord s l) l.

(** The strings of [ln] put into [l] one after the other. *)
Definition add_by (ord : list byte -> list byte -> Z)
    (ln l : list (list byte)) : list (list byte) :=
  foldl (fun acc s => insert_by ord s acc) l ln.

(** Every entry with the one behind it is in the order of [ord]. *)
Definition sorted_by (ord : list byte -> list byte -> Z)
    (l : list (list byte)) : Prop :=
  forall (i : nat) (a b : list byte),
    l !! i = Some a -> l !! S i = Some b -> ord a b <= 0.

(** The entry behind its sign starts with '*'. *)
Definition wildcard_entry (e : list byte) : Prop :=
  exists r, strip_sign e = ch_star :: r.

(** The allocator grants what a Replace can ask for. *)
Definition grants_replace (A : allocator) : Prop :=
  is_Some (malloc_buf A) /\ grants_add A.

(** The entries of the array are in the order of [order_func]: called on
    an entry and the one behind it, as [set_allacl] calls it, it returns a
    value that is not above 0. *)
Definition in_order (order_func : match_fn) (pas : array_strings) : Prop :=
  forall i : nat,
    Z.of_nat (S i) < as_usedptr pas ->
    exists p q d,
      slot pas (Z.of_nat i) = Some p /\ slot pas (Z.of_nat (S i)) = Some q /\
      order_func (buf_of pas) p (buf_of pas) q = Some d /\ d <= 0.

Definition attr_in_order (order_func : match_fn) (attr : attribute) : Prop :=
  match at_arst attr with
  | None => True
  | Some pas => in_order order_func pas
  end.

(** [user_order] on the two strings behind their signs: the first
    characters that differ decide, and behind an '@' in both it is
    [host_order] on what follows.  [None] stands for two strings that are
    the same up to their ends, without '@', where the loop goes on behind
    the two terminators. *)
Fixpoint user_ord (k1 k2 : list byte) : option Z :=
  match k1, k2 with
  | x :: k1', y :: k2' =>
      if int_of_char x - int_of_char y =? 0 then
        if Byte.eqb x ch_at then Some (host_ord k1' k2')
        else user_ord k1' k2'
      else Some (int_of_char x - int_of_char y)
  | x :: _, [] => Some (int_of_char x)
  | [], y :: _ => Some (- int_of_char y)
  | [], [] => None
  end.

(** [user_order] on the contents of two entries, 0 standing in where it
    reads behind the strings. *)
Definition user_ord_of (s1 s2 : list byte) : Z :=
  default 0 (user_ord (strip_sign s1) (strip_sign s2)).

(** Two entries on which [user_order] stays inside the strings: behind
    their signs they differ, or they have an '@'. *)
Definition user_comparable (s1 s2 : list byte) : Prop :=
  ~ (strip_sign s1 = strip_sign s2 /\ ch_at ∉ strip_sign s1).

(** The order function answers [ord] on the contents of two strings that
    are not empty and stand in the relation [P]. *)
Definition orders_on (P : list byte -> list byte -> Prop)
    (order_func : match_fn) (ord : list byte -> list byte -> Z) : Prop :=
  forall m1 p1 m2 p2 s1 s2,
    cstr m1 p1 = Some s1 -> cstr m2 p2 = Some s2 ->
    s1 <> [] -> s2 <> [] -> P s1 s2 ->
    order_func m1 p1 m2 p2 = Some (ord s1 s2).

(** * Properties *)

(** ** The functions on given strings *)

Example hacl_ex1 : hacl_match (lit "a.example.com") 0 (lit "*.example.com") 0 = Some 0.
Proof. reflexivity. Qed.

Example hacl_ex2 : hacl_match (lit "a.Example.COM") 0 (lit "A.example.com") 0 = Some 0.
Proof. reflexivity. Qed.

Example hacl_ex3 : hacl_match (lit "") 0 (lit "") 0 = Some 1.
Proof. reflexivity. Qed.

Example hacl_ex4 : hacl_match (lit "") 0 (lit "*") 0 = Some 0.
Proof. reflexivity. Qed.

Example hacl_ex5 : hacl_match (lit ".com") 0 (lit "*.com") 0 = Some 1.
Proof. reflexivity. Qed.

Example host_order_ex1 : host_order (lit "*.com") 0 (lit "+*.com") 0 = Some 1.
Proof. reflexivity. Qed.

Example host_order_ex2 : host_order (lit "+*.com") 0 (lit "*.com") 0 = Some 1.
Proof. reflexivity. Qed.

Example host_order_ex3 : host_order (lit "+") 0 (lit "-") 0 = Some (-1).
Proof. reflexivity. Qed.

Example host_order_ex4 : host_order (lit "") 0 (lit "a") 0 = None.
Proof. reflexivity. Qed.

Example user_order_ex1 : user_order (lit "bob") 0 (lit "+bob") 0 = None.
Proof. reflexivity. Qed.

Example user_order_ex2 : user_order (lit "bob@a") 0 (lit "+bob@b") 0 = Some 1.
Proof. reflexivity. Qed.

Example user_match_ex1 :
  user_match (lit "alice@x.example.com") 0 (lit "alice") 0 = Some 0.
Proof. reflexivity. Qed.

Example user_match_ex2 :
  user_match (lit "alice@x.example.org") 0 (lit "alice@*.example.com") 0 = Some 1.
Proof. reflexivity. Qed.

Example user_match_ex3 :
  user_match (lit "alice@x.example.com") 0 (lit "alice@*.example.com") 0 = Some 0.
Proof. reflexivity. Qed.

(** ** Bytes, loads and C strings *)

Lemma byte_eqb_spec (x y : byte) : reflect (x = y) (Byte.eqb x y).
Proof.
  destruct (Byte.eqb x y) eqn:H; constructor.
  - by apply Byte.byte_dec_bl.
  - by apply Byte.eqb_false.
Qed.

Lemma byte_eqb_refl (x : byte) : Byte.eqb x x = true.
Proof. by apply Byte.byte_dec_lb. Qed.

Lemma byte_eqb_ne (x y : byte) : x <> y -> Byte.eqb x y = false.
Proof. intros H. by destruct (byte_eqb_spec x y). Qed.

Ltac byte_cases :=
  repeat match goal with
  | |- context [Byte.eqb ?x ?y] => destruct (byte_eqb_spec x y); subst
  | H : context [Byte.eqb ?x ?y] |- _ => destruct (byte_eqb_spec x y); subst
  end.

Ltac zcases :=
  repeat match goal with
  | |- context [?a <? ?b] => destruct (Z.ltb_spec a b)
  | |- context [?a <=? ?b] => destruct (Z.leb_spec a b)
  | |- context [?a =? ?b] => destruct (Z.eqb_spec a b)
  | H : context [?a <? ?b] |- _ => destruct (Z.ltb_spec a b)
  | H : context [?a <=? ?b] |- _ => destruct (Z.leb_spec a b)
  | H : context [?a =? ?b] |- _ => destruct (Z.eqb_spec a b)
  end.

Lemma uchar_range (c : byte) : 0 <= uchar c < 256.
Proof.
  unfold uchar. pose proof (Byte.to_N_bounded c) as H. lia.
Qed.

Lemma uchar_inj (x y : byte) : uchar x = uchar y -> x = y.
Proof.
  unfold uchar. intros H. apply N2Z.inj in H.
  pose proof (Byte.of_to_N x) as Hx. pose proof (Byte.of_to_N y) as Hy.
  rewrite H in Hx. congruence.
Qed.

Lemma int_of_char_inj (x y : byte) : int_of_char x = int_of_char y -> x = y.
Proof.
  unfold int_of_char. intros H. apply uchar_inj.
  pose proof (uchar_range x). pose proof (uchar_range y).
  destruct (Z.ltb_spec (uchar x) 128), (Z.ltb_spec (uchar y) 128); lia.
Qed.

Lemma load_Some (m : block) (p : Z) (c : byte) :
  load m p = Some c <-> 0 <= p /\ m !! Z.to_nat p = Some c.
Proof.
  unfold load. zcases; [naive_solver|].
  split; [done|]. intros [? _]. lia.
Qed.

Lemma load_nat (m : block) (i : nat) : load m (Z.of_nat i) = m !! i.
Proof.
  unfold load. zcases; [|lia]. by rewrite Nat2Z.id.
Qed.

Lemma load_neg (m : block) (p : Z) : p < 0 -> load m p = None.
Proof. unfold load. intros H. zcases; [lia|done]. Qed.

Lemma scan_nul_app (s rest : list byte) :
  NUL ∉ s -> scan_nul (s ++ NUL :: rest) = Some s.
Proof.
  induction s as [|c s IH]; intros H; simpl; [done|].
  rewrite byte_eqb_ne by set_solver. rewrite IH by set_solver. done.
Qed.

Lemma scan_nul_inv (l s : list byte) :
  scan_nul l = Some s -> (NUL ∉ s) /\ exists rest, l = s ++ NUL :: rest.
Proof.
  revert s. induction l as [|c l IH]; intros s; simpl; [done|].
  destruct (byte_eqb_spec c NUL) as [->|Hc].
  - intros [= <-]. split; [set_solver|]. by exists l.
  - destruct (scan_nul l) as [s'|]; simpl; [|done].
    intros [= <-]. destruct (IH s' eq_refl) as [Hs' [rest ->]].
    split; [set_solver|]. by exists rest.
Qed.

Lemma scan_nul_Some (l s : list byte) :
  scan_nul l = Some s <-> (NUL ∉ s) /\ exists rest, l = s ++ NUL :: rest.
Proof.
  split; [apply scan_nul_inv|].
  intros [Hs [rest ->]]. by apply scan_nul_app.
Qed.

Lemma cstr_Some (m : block) (p : Z) (s : list byte) :
  cstr m p = Some s <->
  0 <= p /\ (NUL ∉ s) /\ exists rest, drop (Z.to_nat p) m = s ++ NUL :: rest.
Proof.
  unfold cstr. zcases.
  - rewrite scan_nul_Some. naive_solver.
  - split; [done|]. intros [? _]. lia.
Qed.

Lemma cstr_nonneg (m : block) (p : Z) (s : list byte) :
  cstr m p = Some s -> 0 <= p.
Proof. rewrite cstr_Some. tauto. Qed.

Lemma cstr_nonul (m : block) (p : Z) (s : list byte) :
  cstr m p = Some s -> NUL ∉ s.
Proof. rewrite cstr_Some. tauto. Qed.

Lemma cstr_load (m : block) (p : Z) (s : list byte) (i : nat) :
  cstr m p = Some s -> (i <= length s)%nat ->
  load m (p + Z.of_nat i) = (s ++ [NUL]) !! i.
Proof.
  rewrite cstr_Some. intros (Hp & _ & rest & Hd) Hi.
  replace (p + Z.of_nat i) with (Z.of_nat (Z.to_nat p + i)%nat) by lia.
  rewrite load_nat, <-lookup_drop, Hd.
  replace (s ++ NUL :: rest) with ((s ++ [NUL]) ++ rest)
    by (by rewrite <-app_assoc).
  rewrite lookup_app_l; [done|]. rewrite length_app. simpl. lia.
Qed.

Lemma cstr_load_char (m : block) (p : Z) (s : list byte) (i : nat) (c : byte) :
  cstr m p = Some s -> s !! i = Some c -> load m (p + Z.of_nat i) = Some c.
Proof.
  intros H Hi. rewrite (cstr_load m p s i H).
  - by rewrite lookup_app_l_Some with (x := c).
  - apply lookup_lt_Some in Hi. lia.
Qed.

Lemma cstr_load_end (m : block) (p : Z) (s : list byte) :
  cstr m p = Some s -> load m (p + Z.of_nat (length s)) = Some NUL.
Proof.
  intros H. rewrite (cstr_load m p s (length s) H); [|done].
  by rewrite lookup_app_r, Nat.sub_diag.
Qed.

Lemma cstr_load_head (m : block) (p : Z) (s : list byte) :
  cstr m p = Some s -> load m p = Some (hd NUL s).
Proof.
  intros H. destruct s as [|c s].
  - pose proof (cstr_load_end _ _ _ H) as H'. simpl in H'.
    by rewrite Z.add_0_r in H'.
  - pose proof (cstr_load_char m p (c :: s) 0 c H eq_refl) as H'.
    simpl in H'. by rewrite Z.add_0_r in H'.
Qed.

Lemma cstr_tail (m : block) (p : Z) (c : byte) (s : list byte) :
  cstr m p = Some (c :: s) -> cstr m (p + 1) = Some s.
Proof.
  rewrite !cstr_Some. intros (Hp & Hn & rest & Hd).
  split; [lia|]. split; [set_solver|]. exists rest.
  replace (Z.to_nat (p + 1)) with (Z.to_nat p + 1)%nat by lia.
  by rewrite <-drop_drop, Hd.
Qed.

Lemma strlen_Some (m : block) (p : Z) (s : list byte) :
  cstr m p = Some s -> strlen m p = Some (Z.of_nat (length s)).
Proof. unfold strlen. by intros ->. Qed.

Lemma cstr_lit (s : string) :
  NUL ∉ list_byte_of_string s -> cstr (lit s) 0 = Some (list_byte_of_string s).
Proof.
  intros H. apply cstr_Some. split; [done|]. split; [done|]. by exists [].
Qed.

Lemma strcmp_bytes_refl (a : list byte) : strcmp_bytes a a = 0.
Proof. induction a as [|x a IH]; simpl; [done|]. by rewrite byte_eqb_refl. Qed.

Lemma strcmp_bytes_eq (a b : list byte) :
  NUL ∉ a -> NUL ∉ b -> strcmp_bytes a b = 0 <-> a = b.
Proof.
  intros Ha Hb. split; [|intros ->; apply strcmp_bytes_refl].
  revert b Hb. induction a as [|x a IH]; intros [|y b] Hb; simpl.
  - done.
  - intros H. assert (y = NUL) as E; [|set_solver].
    apply uchar_inj. change (uchar NUL) with 0. lia.
  - intros H. assert (x = NUL) as E; [|set_solver].
    apply uchar_inj. change (uchar NUL) with 0. lia.
  - destruct (byte_eqb_spec x y) as [->|Hxy].
    + intros H. f_equal. apply IH; [set_solver|set_solver|done].
    + intros H. assert (uchar x = uchar y) as E by lia.
      by apply uchar_inj in E.
Qed.

Lemma strcmp_cstr (m1 : block) (p1 : Z) (m2 : block) (p2 : Z)
    (a b : list byte) :
  cstr m1 p1 = Some a -> cstr m2 p2 = Some b ->
  strcmp m1 p1 m2 p2 = Some (strcmp_bytes a b).
Proof. unfold strcmp. by intros -> ->. Qed.

Lemma strcmp_same (m1 : block) (p1 : Z) (m2 : block) (p2 : Z)
    (a b : list byte) :
  cstr m1 p1 = Some a -> cstr m2 p2 = Some b ->
  (fun d => d =? 0) <$> strcmp m1 p1 m2 p2 = Some (bool_decide (a = b)).
Proof.
  intros Ha Hb. rewrite (strcmp_cstr _ _ _ _ _ _ Ha Hb). simpl. f_equal.
  pose proof (strcmp_bytes_eq a b (cstr_nonul _ _ _ Ha) (cstr_nonul _ _ _ Hb)).
  destruct (Z.eqb_spec (strcmp_bytes a b) 0); case_bool_decide; naive_solver.
Qed.

(** ** Host match *)

Lemma holds_rev_cstr (m : block) (p : Z) (s : list byte) :
  cstr m p = Some s -> holds_rev m p (reverse s).
Proof.
  intros H k c Hk.
  assert (k < length s)%nat as Hlt.
  { apply lookup_lt_Some in Hk. by rewrite length_reverse in Hk. }
  rewrite length_reverse.
  rewrite reverse_lookup in Hk by done.
  replace (p + Z.of_nat (length s) - 1 - Z.of_nat k)
    with (p + Z.of_nat (length s - S k)) by lia.
  by apply (cstr_load_char m p s).
Qed.

Lemma holds_rev_tail (m : block) (p : Z) (x : byte) (rc : list byte) :
  holds_rev m p (x :: rc) -> holds_rev m p rc.
Proof.
  intros H k c Hk. specialize (H (S k) c Hk). simpl in H.
  rewrite <-H. f_equal. lia.
Qed.

Lemma holds_rev_head (m : block) (p : Z) (x : byte) (rc : list byte) :
  holds_rev m p (x :: rc) -> load m (p + Z.of_nat (length rc)) = Some x.
Proof.
  intros H. specialize (H O x eq_refl). simpl in H.
  rewrite <-H. f_equal. lia.
Qed.

Lemma hacl_loop_stop (fuel : nat) (mc : block) (can : Z) (mm : block)
    (master pc pm : Z) :
  pc <= can \/ pm <= master ->
  hacl_loop fuel mc can mm master pc pm = Some (Next (pc, pm)).
Proof.
  intros H.
  assert ((can <? pc) && (master <? pm) = false) as E.
  { destruct (Z.ltb_spec can pc), (Z.ltb_spec master pm); simpl; lia || done. }
  destruct fuel; simpl; by rewrite E.
Qed.

Lemma hacl_loop_step (fuel : nat) (mc : block) (can : Z) (mm : block)
    (master pc pm : Z) (cc cm : byte) :
  can < pc -> master < pm -> load mc pc = Some cc -> load mm pm = Some cm ->
  hacl_loop (S fuel) mc can mm master pc pm =
  if tolower (int_of_char cc) =? tolower (int_of_char cm)
  then hacl_loop fuel mc can mm master (pc - 1) (pm - 1)
  else Some (Return 1).
Proof.
  intros H1 H2 Hc Hm. simpl.
  destruct (Z.ltb_spec can pc); [|lia].
  destruct (Z.ltb_spec master pm); [|lia].
  simpl. rewrite Hc, Hm. simpl.
  by destruct (tolower (int_of_char cc) =? tolower (int_of_char cm)).
Qed.

Lemma hacl_decide_off (mc : block) (can : Z) (mm : block) (master pc pm : Z) :
  pm <> master -> hacl_decide mc can mm master pc pm = Some 1.
Proof.
  intros H. unfold hacl_decide. by destruct (Z.eqb_spec pm master).
Qed.

Lemma hacl_decide_on (mc : block) (can : Z) (mm : block) (master pc : Z)
    (cm : byte) :
  load mm master = Some cm ->
  hacl_decide mc can mm master pc master =
  if Byte.eqb cm ch_star then Some 0
  else if pc =? can then
    cc ← load mc pc;
    if tolower (int_of_char cc) =? tolower (int_of_char cm)
    then Some 0 else Some 1
  else Some 1.
Proof.
  intros H. unfold hacl_decide. rewrite Z.eqb_refl, H. done.
Qed.

Lemma hacl_loop_rev (mc : block) (can : Z) (mm : block) (master : Z)
    (rc rm : list byte) (fuel : nat) (pc pm : Z) :
  holds_rev mc can rc -> holds_rev mm master rm ->
  pc = can + Z.of_nat (length rc) - 1 ->
  pm = master + Z.of_nat (length rm) - 1 ->
  (length rc <= S fuel)%nat ->
  hacl_loop fuel mc can mm master pc pm
  ≫= (fun r => match r with
               | Return v => Some v
               | Next (pc, pm) => hacl_decide mc can mm master pc pm
               end)
  = Some (hacl_rev rc rm).
Proof.
  revert rm fuel pc pm.
  induction rc as [|x rc IH]; intros rm fuel pc pm Hc Hm Hpc Hpm Hf.
  - (* an empty candidate: the loop does not run *)
    rewrite hacl_loop_stop by (simpl in Hpc; lia). simpl.
    destruct rm as [|y [|y' rm]]; simpl in Hpm; cbn [hacl_rev].
    + by rewrite hacl_decide_off by lia.
    + replace pm with master by lia.
      rewrite (hacl_decide_on _ _ _ _ _ y).
      2:{ rewrite <-(holds_rev_head _ _ _ _ Hm). f_equal. simpl. lia. }
      destruct (byte_eqb_spec y ch_star); [done|].
      destruct (Z.eqb_spec pc can); [simpl in Hpc; lia|done].
    + by rewrite hacl_decide_off by lia.
  - destruct rc as [|x' rc].
    + (* one character left in the candidate *)
      rewrite hacl_loop_stop by (simpl in Hpc; lia). simpl.
      destruct rm as [|y [|y' rm]]; simpl in Hpm; cbn [hacl_rev].
      * by rewrite hacl_decide_off by lia.
      * replace pm with master by lia.
        rewrite (hacl_decide_on _ _ _ _ _ y).
        2:{ rewrite <-(holds_rev_head _ _ _ _ Hm). f_equal. simpl. lia. }
        destruct (byte_eqb_spec y ch_star); [done|].
        destruct (Z.eqb_spec pc can); [|simpl in Hpc; lia].
        replace pc with (can + Z.of_nat (length (@nil byte)))
          by (simpl in *; lia).
        rewrite (holds_rev_head _ _ _ _ Hc). simpl.
        by destruct (tolower (int_of_char x) =? tolower (int_of_char y)).
      * by rewrite hacl_decide_off by lia.
    + (* at least two characters left in the candidate *)
      destruct rm as [|y [|y' rm]]; [cbn [hacl_rev]..|].
      * rewrite hacl_loop_stop by (simpl in Hpm; lia). simpl.
        by rewrite hacl_decide_off by (simpl in Hpm; lia).
      * rewrite hacl_loop_stop by (simpl in Hpm; lia). simpl.
        replace pm with master by (simpl in Hpm; lia).
        rewrite (hacl_decide_on _ _ _ _ _ y).
        2:{ rewrite <-(holds_rev_head _ _ _ _ Hm). f_equal. simpl. lia. }
        destruct (byte_eqb_spec y ch_star); [done|].
        destruct (Z.eqb_spec pc can); [simpl in Hpc; lia|done].
      * destruct fuel as [|fuel]; [simpl in Hf; lia|].
        rewrite (hacl_loop_step _ _ _ _ _ _ _ x y).
        2,3: simpl in Hpc, Hpm; lia.
        2:{ rewrite <-(holds_rev_head _ _ _ _ Hc). f_equal. simpl in *. lia. }
        2:{ rewrite <-(holds_rev_head _ _ _ _ Hm). f_equal. simpl in *. lia. }
        change (hacl_rev (x :: x' :: rc) (y :: y' :: rm))
          with (if tolower (int_of_char x) =? tolower (int_of_char y)
                then hacl_rev (x' :: rc) (y' :: rm) else 1).
        destruct (tolower (int_of_char x) =? tolower (int_of_char y));
          [|done].
        apply IH.
        -- by eapply holds_rev_tail.
        -- by eapply holds_rev_tail.
        -- simpl in *. lia.
        -- simpl in *. lia.
        -- simpl in *. lia.
Qed.

Lemma hacl_match_rev (mc : block) (can : Z) (mm : block) (master : Z)
    (c m : list byte) :
  cstr mc can = Some c -> cstr mm master = Some m ->
  hacl_match mc can mm master = Some (hacl_rev (reverse c) (reverse m)).
Proof.
  intros Hc Hm. unfold hacl_match.
  rewrite (strlen_Some _ _ _ Hc), (strlen_Some _ _ _ Hm). simpl.
  apply hacl_loop_rev.
  - by apply holds_rev_cstr.
  - by apply holds_rev_cstr.
  - by rewrite length_reverse.
  - by rewrite length_reverse.
  - rewrite length_reverse. lia.
Qed.

Lemma same_ci_nil_l (b : list byte) : same_ci [] b <-> b = [].
Proof. split; [by inversion 1|intros ->; constructor]. Qed.

Lemma same_ci_nil_r (a : list byte) : same_ci a [] <-> a = [].
Proof. split; [by inversion 1|intros ->; constructor]. Qed.

Lemma same_ci_cons (x y : byte) (a b : list byte) :
  same_ci (x :: a) (y :: b) <-> same_char_ci x y /\ same_ci a b.
Proof. unfold same_ci. split; [by inversion 1|intros []; by constructor]. Qed.

Lemma same_ci_reverse (a b : list byte) :
  same_ci (reverse a) (reverse b) <-> same_ci a b.
Proof.
  unfold same_ci. split; intros H.
  - rewrite <-(reverse_involutive a), <-(reverse_involutive b).
    by apply Forall2_reverse.
  - by apply Forall2_reverse.
Qed.

Lemma same_char_ci_eqb (x y : byte) :
  (tolower (int_of_char x) =? tolower (int_of_char y)) = true <->
  same_char_ci x y.
Proof. unfold same_char_ci. apply Z.eqb_eq. Qed.

Lemma wildcard_rev_reverse (c m : list byte) :
  wildcard_rev (reverse c) (reverse m) <-> wildcard_match c m.
Proof.
  split.
  - intros (rs & pre & rcs & Hm & Hc & Hs & Hp).
    exists (reverse rs), (reverse pre), (reverse rcs).
    split; [|split; [|split]].
    + rewrite <-(reverse_involutive m), Hm, reverse_app. done.
    + rewrite <-(reverse_involutive c), Hc, reverse_app. done.
    + by apply same_ci_reverse.
    + destruct Hp as [->|Hp]; [by left|right].
      intros E. apply Hp. rewrite <-(reverse_involutive pre), E. done.
  - intros (ms & cp & cs & -> & -> & Hs & Hp).
    exists (reverse ms), (reverse cp), (reverse cs).
    split; [|split; [|split]].
    + by rewrite reverse_cons.
    + by rewrite reverse_app.
    + by apply same_ci_reverse.
    + destruct Hp as [->|Hp]; [by left|right].
      intros E. apply Hp. rewrite <-(reverse_involutive cp), E. done.
Qed.

Lemma wildcard_rev_nil (rm : list byte) :
  wildcard_rev [] rm <-> rm = [ch_star].
Proof.
  split.
  - intros (rs & pre & rcs & -> & Hc & Hs & _).
    symmetry in Hc. apply app_eq_nil in Hc as [-> ->].
    apply same_ci_nil_l in Hs as ->. done.
  - intros ->. exists [], [], []. repeat split; [constructor|by left].
Qed.

Lemma wildcard_rev_star (rc : list byte) : wildcard_rev rc [ch_star].
Proof. exists [], rc, []. repeat split; [constructor|by left]. Qed.

Lemma wildcard_rev_single (rc : list byte) (y : byte) :
  wildcard_rev rc [y] <-> y = ch_star.
Proof.
  split; [|intros ->; apply wildcard_rev_star].
  intros (rs & pre & rcs & Hm & _).
  destruct rs as [|r [|r' rs]]; by simplify_eq/=.
Qed.

Lemma wildcard_rev_cons (x y : byte) (rc rm : list byte) :
  rc <> [] -> rm <> [] ->
  wildcard_rev (x :: rc) (y :: rm) <-> same_char_ci x y /\ wildcard_rev rc rm.
Proof.
  intros Hrc Hrm. split.
  - intros (rs & pre & rcs & Hm & Hc & Hs & Hp).
    destruct rs as [|r rs]; [simplify_eq/=|].
    simplify_eq/=.
    destruct rcs as [|x0 rcs]; [by apply same_ci_nil_l in Hs|].
    apply same_ci_cons in Hs as [Hx Hs]. simplify_eq/=.
    split; [done|]. exists rs, pre, rcs.
    repeat split; [done|]. right. by destruct Hp.
  - intros [Hx (rs & pre & rcs & -> & -> & Hs & Hp)].
    exists (y :: rs), pre, (x :: rcs).
    repeat split; [by apply same_ci_cons|]. right.
    destruct Hp as [->|Hp]; [|done].
    apply same_ci_nil_r in Hs as ->. done.
Qed.

Lemma hacl_rev_cons2 (x x' y y' : byte) (rc rm : list byte) :
  hacl_rev (x :: x' :: rc) (y :: y' :: rm) =
  if tolower (int_of_char x) =? tolower (int_of_char y)
  then hacl_rev (x' :: rc) (y' :: rm) else 1.
Proof. done. Qed.

Lemma hacl_rev_range (rc rm : list byte) :
  hacl_rev rc rm = 0 \/ hacl_rev rc rm = 1.
Proof.
  revert rm. induction rc as [|x rc IH]; intros rm.
  - destruct rm as [|y [|y' rm]]; simpl; [by right| |by right].
    destruct (Byte.eqb y ch_star); first [by left|by right].
  - destruct rc as [|x' rc], rm as [|y [|y' rm]];
      try (rewrite hacl_rev_cons2; destruct (_ =? _); [apply IH|by right]);
      cbn [hacl_rev]; try (by right).
    + destruct (Byte.eqb y ch_star); [by left|].
      destruct (_ =? _); first [by left|by right].
    + destruct (Byte.eqb y ch_star); first [by left|by right].
Qed.

Lemma hacl_rev_match (rc rm : list byte) :
  hacl_rev rc rm = 0 <->
  wildcard_rev rc rm \/ (rc <> [] /\ same_ci rc rm).
Proof.
  revert rm. induction rc as [|x rc IH]; intros rm.
  - rewrite wildcard_rev_nil.
    destruct rm as [|y [|y' rm]]; simpl; [naive_solver| |naive_solver].
    destruct (byte_eqb_spec y ch_star); naive_solver.
  - destruct rc as [|x' rc].
    + destruct rm as [|y [|y' rm]]; cbn [hacl_rev].
      * split; [done|]. intros [(rs & ? & ? & ? & _)|[_ H]].
        -- by destruct rs.
        -- by apply same_ci_nil_r in H.
      * rewrite wildcard_rev_single, same_ci_cons, same_ci_nil_l.
        destruct (byte_eqb_spec y ch_star); [naive_solver|].
        destruct (Z.eqb_spec (tolower (int_of_char x)) (tolower (int_of_char y)));
          unfold same_char_ci; naive_solver.
      * split; [done|]. intros [(rs & pre & rcs & Hm & Hc & Hs & Hp)|[_ H]].
        -- apply (f_equal length) in Hm, Hc. apply Forall2_length in Hs.
           rewrite !length_app in *. simpl in *.
           destruct Hp as [->|Hp]; [simpl in *; lia|].
           destruct pre; [done|simpl in *; lia].
        -- apply same_ci_cons in H as [_ H]. by apply same_ci_nil_l in H.
    + destruct rm as [|y [|y' rm]].
      * cbn [hacl_rev]. split; [done|].
        intros [(rs & ? & ? & ? & _)|[_ H]].
        -- by destruct rs.
        -- by apply same_ci_nil_r in H.
      * cbn [hacl_rev]. rewrite wildcard_rev_single.
        destruct (byte_eqb_spec y ch_star); [naive_solver|].
        split; [done|]. intros [?|[_ H]]; [done|].
        apply same_ci_cons in H as [_ H]. by apply same_ci_nil_r in H.
      * rewrite hacl_rev_cons2.
        rewrite wildcard_rev_cons by done. rewrite same_ci_cons.
        destruct (Z.eqb_spec (tolower (int_of_char x)) (tolower (int_of_char y)))
          as [E|E].
        -- rewrite IH. unfold same_char_ci. naive_solver.
        -- unfold same_char_ci. naive_solver.
Qed.

Lemma hacl_amended_reverse (c m : list byte) :
  hacl_amended c m <->
  wildcard_rev (reverse c) (reverse m) \/
  (reverse c <> [] /\ same_ci (reverse c) (reverse m)).
Proof.
  unfold hacl_amended. rewrite wildcard_rev_reverse, same_ci_reverse.
  assert (reverse c <> [] <-> c <> []) as ->; [|done].
  split; intros H E; apply H.
  - by rewrite E.
  - rewrite <-(reverse_involutive c), E. done.
Qed.

(** [hacl_match] returns 0 or 1 for every candidate and pattern, and it
    returns 0 (a match) exactly when the backward scan
    reaches the first character of the pattern and that character is '*',
    or when the two strings are not empty, have the same length and are
    equal character by character when case is ignored.  A pattern of one
    character other than '*' matches exactly the candidates of one
    character that equal it when case is ignored. *)
Theorem hacl_match_amended (mc : block) (can : Z) (mm : block) (master : Z)
    (c m : list byte) :
  cstr mc can = Some c -> cstr mm master = Some m ->
  (exists r, hacl_match mc can mm master = Some r /\
             (r = 0 \/ r = 1) /\ (r = 0 <-> hacl_amended c m)) /\
  (forall x, m = [x] -> x <> ch_star ->
             (hacl_match mc can mm master = Some 0 <->
              exists y, c = [y] /\ same_char_ci y x)).
Proof.
  intros Hc Hm. rewrite (hacl_match_rev _ _ _ _ _ _ Hc Hm). split.
  - eexists. split; [done|]. split; [apply hacl_rev_range|].
    by rewrite hacl_amended_reverse, hacl_rev_match.
  - intros x -> Hx. split.
    + intros [= H]. apply hacl_rev_match in H.
      apply hacl_amended_reverse in H as [H|[Hne H]].
      * destruct H as (ms & cp & cs & Hstar & _).
        injection Hstar as Hstar _. done.
      * destruct c as [|y [|y' c]]; [done| |].
        -- exists y. split; [done|]. by apply same_ci_cons in H as [H _].
        -- apply same_ci_cons in H as [_ H]. by apply same_ci_nil_r in H.
    + intros (y & -> & Hy). f_equal. apply hacl_rev_match.
      apply hacl_amended_reverse. right. split; [done|].
      apply same_ci_cons. split; [done|constructor].
Qed.

(** C4 fails in the code.  A candidate and a pattern that are the same
    string are used up together with all characters equal, which the claim
    counts as a match, and the description above the function as well
    ("Strings match if identical").  [hacl_match] answers 0 (a match) when
    the string is not empty and 1 (no match) when it is: the loop does not
    run, [pm] is one below [master], and the test [pm == master] of line
    670 fails. *)
Theorem hacl_match_identical_strings (mc : block) (can : Z) (mm : block)
    (master : Z) (s : list byte) :
  cstr mc can = Some s -> cstr mm master = Some s ->
  hacl_claim s s /\
  hacl_match mc can mm master = Some (if bool_decide (s = []) then 1 else 0).
Proof.
  intros Hc Hm. assert (same_ci s s) as Hs.
  { clear. induction s; constructor; [done|by apply IHs]. }
  split; [by right|].
  rewrite (hacl_match_rev _ _ _ _ _ _ Hc Hm). f_equal.
  case_bool_decide as He.
  - by subst s.
  - apply hacl_rev_match. right. split.
    + intros Hr. apply He. by rewrite <-(reverse_involutive s), Hr.
    + by apply same_ci_reverse.
Qed.

Lemma hacl_match_identical_strings_witness :
  hacl_claim [] [] /\
  hacl_match (lit "") 0 (lit "") 0 =
  Some (if bool_decide (@nil byte = []) then 1 else 0).
Proof.
  apply (hacl_match_identical_strings (lit "") 0 (lit "") 0 []); reflexivity.
Defined.

(** The same for the host of an entry of a User ACL: the entry "bob@" does
    not match the candidate "bob@". *)
Lemma user_match_empty_host :
  user_match (lit "bob@") 0 (lit "bob@") 0 = Some 1.
Proof. reflexivity. Qed.

Lemma hacl_match_amended_witness :
  (exists r, hacl_match (lit "a.Example.com") 0 (lit "*.example.COM") 0 = Some r /\
             (r = 0 \/ r = 1) /\
             (r = 0 <-> hacl_amended (bytes "a.Example.com")
                                      (bytes "*.example.COM"))) /\
  (forall x, bytes "*.example.COM" = [x] -> x <> ch_star ->
             (hacl_match (lit "a.Example.com") 0 (lit "*.example.COM") 0 = Some 0 <->
              exists y, bytes "a.Example.com" = [y] /\ same_char_ci y x)).
Proof.
  apply (hacl_match_amended (lit "a.Example.com") 0 (lit "*.example.COM") 0);
    reflexivity.
Defined.

Lemma same_char_ci_star (x y : byte) :
  same_char_ci x y -> (x = ch_star <-> y = ch_star).
Proof.
  unfold same_char_ci, tolower. intros H.
  assert (forall z : byte, int_of_char z = 42 <-> z = ch_star) as Hs.
  { intros z. split; [|by intros ->].
    intros Hz. by apply int_of_char_inj. }
  rewrite <-!Hs.
  destruct (Z.leb_spec 65 (int_of_char x)), (Z.leb_spec (int_of_char x) 90),
    (Z.leb_spec 65 (int_of_char y)), (Z.leb_spec (int_of_char y) 90);
    simpl in H; lia.
Qed.

(** Patterns that are equal when case is ignored match the same
    candidates. *)
Lemma hacl_rev_same_ci (rc rm rm' : list byte) :
  same_ci rm rm' -> hacl_rev rc rm = hacl_rev rc rm'.
Proof.
  revert rm rm'. induction rc as [|x rc IH]; intros rm rm' H.
  - destruct H as [|y y' ? ? Hy [|]]; simpl; try done.
    apply same_char_ci_star in Hy.
    destruct (byte_eqb_spec y ch_star), (byte_eqb_spec y' ch_star);
      naive_solver.
  - destruct rc as [|x' rc].
    + destruct H as [|y y' ? ? Hy [|]]; cbn [hacl_rev]; try done.
      pose proof (same_char_ci_star _ _ Hy).
      unfold same_char_ci in Hy. rewrite Hy.
      destruct (byte_eqb_spec y ch_star), (byte_eqb_spec y' ch_star);
        naive_solver.
    + destruct H as [|y y' ? ? Hy [|z z' rm rm' Hz H]].
      * done.
      * cbn [hacl_rev]. apply same_char_ci_star in Hy.
        destruct (byte_eqb_spec y ch_star), (byte_eqb_spec y' ch_star);
          naive_solver.
      * rewrite !hacl_rev_cons2. unfold same_char_ci in Hy. rewrite Hy.
        destruct (_ =? _); [|done]. apply IH. by constructor.
Qed.

Lemma hacl_match_same_ci (mc : block) (can : Z) (mm mm' : block)
    (master master' : Z) (m m' : list byte) :
  cstr mm master = Some m -> cstr mm' master' = Some m' -> same_ci m m' ->
  hacl_match mc can mm master = hacl_match mc can mm' master'.
Proof.
  intros Hm Hm' H. destruct (cstr mc can) as [c|] eqn:Hc.
  - rewrite (hacl_match_rev _ _ _ _ _ _ Hc Hm),
      (hacl_match_rev _ _ _ _ _ _ Hc Hm').
    f_equal. apply hacl_rev_same_ci. by apply same_ci_reverse.
  - unfold hacl_match, strlen. by rewrite Hc.
Qed.

Lemma hacl_rev_nil_r (rc : list byte) : hacl_rev rc [] = 1.
Proof. by destruct rc as [|? [|]]. Qed.

(** ** The decision *)

(** Whether an entry starts with '+' or '-'. *)
Lemma strip_sign_cstr (m : block) (p : Z) (e : list byte) :
  cstr m p = Some e ->
  cstr m (p + Z.of_nat (length e - length (strip_sign e))) =
  Some (strip_sign e).
Proof.
  intros H. destruct e as [|c e]; simpl.
  - by rewrite Z.add_0_r.
  - destruct (Byte.eqb c ch_plus || Byte.eqb c ch_minus).
    + replace (S (length e) - length e)%nat with 1%nat by lia.
      by apply cstr_tail in H.
    + rewrite Nat.sub_diag. by rewrite Z.add_0_r.
Qed.

(** One turn of the loop of [acl_check] at an entry that holds the string
    [e]: the default follows a bare sign, and the match function is then
    called with the entry behind its sign. *)
Lemma acl_loop_step (match_func : match_fn) (mn : block) (name : Z)
    (pas : array_strings) (i d : Z) (fuel : nat) (p : Z) (e : list byte) :
  i < as_usedptr pas -> slot pas i = Some p ->
  cstr (buf_of pas) p = Some e ->
  acl_loop (S fuel) match_func mn name pas i d =
  r ← match_func mn name (buf_of pas)
        (p + Z.of_nat (length e - length (strip_sign e)));
  if r =? 0 then Some (verdict e)
  else acl_loop fuel match_func mn name pas (i + 1) (next_default e d).
Proof.
  intros Hi Hs He. cbn [acl_loop].
  destruct (Z.ltb_spec i (as_usedptr pas)); [|lia].
  rewrite Hs. cbn [mbind option_bind].
  rewrite (cstr_load_head _ _ _ He). cbn [mbind option_bind].
  destruct e as [|c e]; cbn [hd strip_sign next_default verdict length].
  - simpl. rewrite Z.add_0_r. done.
  - pose proof (cstr_nonul _ _ _ He) as Hn.
    destruct (Byte.eqb c ch_plus || Byte.eqb c ch_minus) eqn:Hsign.
    + apply cstr_tail in He. rewrite (cstr_load_head _ _ _ He).
      cbn [mbind option_bind fst snd].
      replace (p + Z.of_nat (S (length e) - length e)) with (p + 1) by lia.
      destruct (match_func mn name (buf_of pas) (p + 1)) as [r|];
        [|done].
      cbn [mbind option_bind]. destruct (r =? 0); [done|].
      f_equal. destruct e as [|c' e]; simpl.
      * destruct (byte_eqb_spec c ch_plus); [done|].
        destruct (byte_eqb_spec c ch_minus); [done|]. done.
      * rewrite byte_eqb_ne by set_solver. done.
    + cbn [mbind option_bind fst snd].
      rewrite Nat.sub_diag, Z.add_0_r.
      destruct (match_func mn name (buf_of pas) p) as [r|]; [|done].
      cbn [mbind option_bind]. destruct (r =? 0); [done|].
      f_equal. apply orb_false_elim in Hsign as [H1 H2].
      destruct e; simpl; [|done]. by rewrite H1, H2.
Qed.

Lemma acl_type_generic (E : extern) (type : Z) :
  type <> ACL_Host E -> type <> ACL_User E -> type <> ACL_Group E ->
  type <> ACL_Subnet E -> acl_type_of E type = Generic.
Proof.
  intros. unfold acl_type_of.
  repeat match goal with
         | |- context [type =? ?c] => destruct (Z.eqb_spec type c); [done|]
         end.
  done.
Qed.

Lemma user_match_empty_master (mc : block) (can : Z) (mm : block)
    (master : Z) (c : byte) (cand : list byte) :
  cstr mc can = Some (c :: cand) -> cstr mm master = Some [] ->
  user_match mc can mm master = Some 1.
Proof.
  intros Hc Hm. unfold user_match. cbn [user_match_loop].
  rewrite (cstr_load_head _ _ _ Hm), (cstr_load_head _ _ _ Hc).
  cbn [mbind option_bind hd].
  pose proof (cstr_nonul _ _ _ Hc).
  rewrite byte_eqb_ne by set_solver. done.
Qed.

Lemma sacl_match_empty_master (E : extern) (mc : block) (can : Z)
    (mm : block) (master : Z) (cand : list byte) :
  cstr mc can = Some cand -> cstr mm master = Some [] ->
  sacl_match E mc can mm master = Some 1.
Proof.
  intros Hc Hm. unfold sacl_match. rewrite Hc, Hm.
  cbn [mbind option_bind]. unfold sacl_match_bytes.
  by destruct (inet_pton E cand).
Qed.

(** A Generic ACL that holds "-" and "+", and the empty candidate: the
    scan ends at "-" with deny, where a scan that went on from the next
    entry with the default at deny would end with allow. *)
Lemma bare_sign_ends_generic_scan :
  acl_type_of example_extern 7 = Generic /\
  cstr (buf_of (arst_of [bytes "-"; bytes "+"])) 0 = Some (bytes "-") /\
  cstr (lit "") 0 = Some [] /\
  acl_loop 2 (match_func_of example_extern 7) (lit "") 0
    (arst_of [bytes "-"; bytes "+"]) 0 0 = Some 0 /\
  acl_loop 1 (match_func_of example_extern 7) (lit "") 0
    (arst_of [bytes "-"; bytes "+"]) 1 0 = Some 1 /\
  acl_check example_extern (attr_of ["-"; "+"]) (Some (lit "", 0)) 7 = Some 0.
Proof. repeat split. Qed.

(** ** Subnet match *)

Lemma strchr_Some (s : list byte) (c : byte) (n : nat) :
  strchr s c = Some n <->
  exists pre post, s = pre ++ c :: post /\ (c ∉ pre) /\ length pre = n.
Proof.
  revert n. induction s as [|x s IH]; intros n; simpl.
  - split; [done|]. intros (pre & post & H & _). by destruct pre.
  - destruct (byte_eqb_spec x c) as [->|Hx].
    + split.
      * intros [= <-]. exists [], s. split; [done|]. split; [set_solver|done].
      * intros (pre & post & H & Hn & <-).
        destruct pre as [|y pre]; [done|]. simplify_eq/=. set_solver.
    + split.
      * destruct (strchr s c) as [k|]; [|done]. simpl. intros [= <-].
        destruct (proj1 (IH k) eq_refl) as (pre & post & -> & Hn & <-).
        exists (x :: pre), post. split; [done|]. split; [set_solver|done].
      * intros (pre & post & H & Hn & <-).
        destruct pre as [|y pre]; simplify_eq/=.
        assert (strchr (pre ++ c :: post) c = Some (length pre)) as ->; [|done].
        apply IH. exists pre, post. split; [done|]. split; [set_solver|done].
Qed.

Lemma strchr_None (s : list byte) (c : byte) :
  strchr s c = None <-> c ∉ s.
Proof.
  induction s as [|x s IH]; simpl.
  - split; [set_solver|done].
  - destruct (byte_eqb_spec x c) as [->|Hx].
    + split; [done|set_solver].
    + destruct (strchr s c); simpl.
      * split; [done|]. intros H. assert (c ∉ s) as H' by set_solver.
        by apply IH in H'.
      * split; [|done]. intros _. assert (c ∉ s) by (by apply IH).
        set_solver.
Qed.

Lemma short_mask_bits_prefix (n : Z) :
  0 <= n <= 32 -> short_mask_bits n = prefix_mask n.
Proof.
  intros H. assert (exists k : nat, (k <= 32)%nat /\ n = Z.of_nat k) as (k & Hk & ->).
  { exists (Z.to_nat n). lia. }
  clear H. do 33 (destruct k as [|k]; [done|]). lia.
Qed.

Lemma subnet_mask_claimed (E : extern) (after : list byte) :
  subnet_mask E after = claimed_mask E after.
Proof.
  unfold subnet_mask, claimed_mask.
  destruct (strchr after ch_dot) as [k|] eqn:Hdot.
  - rewrite bool_decide_eq_true_2; [done|].
    apply strchr_Some in Hdot as (pre & post & -> & _). set_solver.
  - rewrite bool_decide_eq_false_2 by (by apply strchr_None).
    cbv zeta.
    destruct (Z.ltb_spec (atoi E after) 0), (Z.ltb_spec 32 (atoi E after));
      cbn [orb].
    1-3: rewrite bool_decide_eq_false_2 by lia; done.
    rewrite bool_decide_eq_true_2 by lia.
    by rewrite short_mask_bits_prefix by lia.
Qed.

Lemma sacl_match_bytes_range (E : extern) (can master : list byte) :
  sacl_match_bytes E can master = 0 \/ sacl_match_bytes E can master = 1.
Proof.
  unfold sacl_match_bytes.
  repeat match goal with
         | |- context [match ?x with _ => _ end] => destruct x
         end; auto.
Qed.

Lemma sacl_match_bytes_claim (E : extern) (can master : list byte) :
  (forall s ip, inet_pton E s = Some ip ->
                Z.of_nat (length s) <= PBS_MAXIP_LEN E) ->
  sacl_match_bytes E can master = 0 <-> sacl_claim E can master.
Proof.
  intros Hlen. unfold sacl_match_bytes, sacl_claim. split.
  - destruct (inet_pton E can) as [ip|] eqn:Hip; [|done].
    destruct (strchr master ch_slash) as [len|] eqn:Hslash; [|done].
    apply strchr_Some in Hslash as (sub & after & -> & Hsub & <-).
    replace (S (length sub)) with (length (sub ++ [ch_slash]))
      by (rewrite length_app; simpl; lia).
    replace (sub ++ ch_slash :: after) with ((sub ++ [ch_slash]) ++ after)
      by (by rewrite <-app_assoc).
    rewrite drop_app_length.
    rewrite <-app_assoc, take_app_length.
    case_bool_decide as Hafter; [done|].
    destruct (Z.ltb_spec (PBS_MAXIP_LEN E) (Z.of_nat (length sub))); [done|].
    destruct (inet_pton E sub) as [subnet|] eqn:Hsubnet; [|done].
    rewrite subnet_mask_claimed.
    destruct (claimed_mask E after) as [mask|] eqn:Hmask; [|done].
    destruct (Z.eqb_spec mask 0); [done|].
    destruct (Z.eqb_spec (Z.land ip mask) (Z.land subnet mask)); [|done].
    intros _. exists ip, sub, after, subnet, mask. done.
  - intros (ip & sub & after & subnet & mask &
            Hip & -> & Hsub & Hafter & Hsubnet & Hmask & Hnz & Hland).
    rewrite Hip.
    assert (strchr (sub ++ ch_slash :: after) ch_slash = Some (length sub))
      as ->.
    { apply strchr_Some. by exists sub, after. }
    replace (S (length sub)) with (length (sub ++ [ch_slash]))
      by (rewrite length_app; simpl; lia).
    replace (sub ++ ch_slash :: after) with ((sub ++ [ch_slash]) ++ after)
      by (by rewrite <-app_assoc).
    rewrite drop_app_length.
    rewrite <-app_assoc, take_app_length.
    rewrite bool_decide_eq_false_2 by done.
    pose proof (Hlen _ _ Hsubnet).
    destruct (Z.ltb_spec (PBS_MAXIP_LEN E) (Z.of_nat (length sub))); [lia|].
    rewrite Hsubnet, subnet_mask_claimed, Hmask.
    destruct (Z.eqb_spec mask 0); [done|].
    by destruct (Z.eqb_spec (Z.land ip mask) (Z.land subnet mask)).
Qed.

(** [sacl_match] returns 0 or 1 for every candidate and pattern (it never
    fails), and it returns 0 (a match) exactly when [inet_pton] reads the
    candidate as an address, the pattern is a subnet that [inet_pton]
    reads, a '/' and a mask, the mask is one that [inet_pton] reads or a
    string of which [atoi] makes a number from 0 to 32, the mask is not 0,
    and address and subnet agree on the bits of the mask.  [inet_pton]
    accepts no string longer than [PBS_MAXIP_LEN]. *)
Lemma sacl_match_subnet (E : extern) (mc : block) (can : Z) (mm : block)
    (master : Z) (c m : list byte) :
  (forall s ip, inet_pton E s = Some ip ->
                Z.of_nat (length s) <= PBS_MAXIP_LEN E) ->
  cstr mc can = Some c -> cstr mm master = Some m ->
  exists r, sacl_match E mc can mm master = Some r /\
            (r = 0 \/ r = 1) /\ (r = 0 <-> sacl_claim E c m).
Proof.
  intros Hlen Hc Hm. unfold sacl_match. rewrite Hc, Hm.
  cbn [mbind option_bind]. eexists. split; [done|].
  split; [apply sacl_match_bytes_range|].
  by apply sacl_match_bytes_claim.
Qed.

(** The reader of the example environment accepts at most 15 bytes. *)
Lemma read_octet_length (s s' : list byte) (v : Z) :
  read_octet s = Some (v, s') -> (length s <= length s' + 3)%nat.
Proof.
  unfold read_octet. intros H.
  repeat match type of H with
         | match ?x with _ => _ end = _ => destruct x; try done
         | (if ?b then _ else _) = _ => destruct b; try done
         end.
  all: simplify_eq/=; lia.
Qed.

Lemma expect_dot_length (s s' : list byte) :
  expect_dot s = Some s' -> length s = S (length s').
Proof.
  unfold expect_dot. destruct s as [|c s]; [done|].
  destruct (Byte.eqb c ch_dot); [|done]. by intros [= ->].
Qed.

Lemma dotted_quad_length (s : list byte) (ip : Z) :
  dotted_quad s = Some ip -> Z.of_nat (length s) <= 15.
Proof.
  unfold dotted_quad. intros H.
  destruct (read_octet s) as [[a s1]|] eqn:H1; [|done].
  cbn [mbind option_bind] in H.
  destruct (expect_dot s1) as [s2|] eqn:H2; [|done].
  cbn [mbind option_bind] in H.
  destruct (read_octet s2) as [[b s3]|] eqn:H3; [|done].
  cbn [mbind option_bind] in H.
  destruct (expect_dot s3) as [s4|] eqn:H4; [|done].
  cbn [mbind option_bind] in H.
  destruct (read_octet s4) as [[c s5]|] eqn:H5; [|done].
  cbn [mbind option_bind] in H.
  destruct (expect_dot s5) as [s6|] eqn:H6; [|done].
  cbn [mbind option_bind] in H.
  destruct (read_octet s6) as [[d s7]|] eqn:H7; [|done].
  cbn [mbind option_bind] in H.
  case_bool_decide as H8; [|done]. subst s7.
  apply read_octet_length in H1, H3, H5, H7.
  apply expect_dot_length in H2, H4, H6. simpl in *. lia.
Qed.

Lemma sacl_match_subnet_example :
  exists r, sacl_match example_extern (lit "10.0.0.5") 0 (lit "10.0.0.0/24") 0
            = Some r /\
            (r = 0 \/ r = 1) /\
            (r = 0 <-> sacl_claim example_extern (bytes "10.0.0.5")
                                   (bytes "10.0.0.0/24")).
Proof.
  apply (sacl_match_subnet example_extern (lit "10.0.0.5") 0
           (lit "10.0.0.0/24") 0).
  - exact dotted_quad_length.
  - reflexivity.
  - reflexivity.
Qed.

Example sacl_match_ex1 :
  sacl_match example_extern (lit "10.0.0.5") 0 (lit "10.0.0.0/24") 0 = Some 0.
Proof. reflexivity. Qed.
Example sacl_match_ex2 :
  sacl_match example_extern (lit "10.0.1.5") 0 (lit "10.0.0.0/24") 0 = Some 1.
Proof. reflexivity. Qed.
Example sacl_match_ex3 :
  sacl_match example_extern (lit "10.0.0.5") 0 (lit "10.0.0.0/0") 0 = Some 1.
Proof. reflexivity. Qed.
Example sacl_match_ex4 :
  sacl_match example_extern (lit "10.0.0.5") 0 (lit "10.0.0.0/255.255.255.0") 0
  = Some 0.
Proof. reflexivity. Qed.

(** C6 fails in the code.  The prefix length is the [int] that [atoi]
    makes of the string behind the '/', and the test of line 789 sees that
    number and not the string.  "4294967297" writes no prefix length from
    0 to 32, so that by the claim the pattern "128.0.0.0/4294967297"
    matches no candidate; [atoi] reads it as 1, the mask has the one high
    bit, and [sacl_match] answers 0 (a match) for the candidate
    "128.0.0.1". *)
Theorem sacl_match_overlong_prefix :
  prefix_length (bytes "4294967297") = None /\
  sacl_written (bytes "128.0.0.1") (bytes "128.0.0.0/4294967297") = false /\
  atoi example_extern (bytes "4294967297") = 1 /\
  sacl_match example_extern (lit "128.0.0.1") 0
    (lit "128.0.0.0/4294967297") 0 = Some 0.
Proof. repeat split. Qed.

(** ** Packed strings and their offsets *)

Lemma packed_nil : packed [] = [].
Proof. done. Qed.

Lemma packed_cons (s : list byte) (l : list (list byte)) :
  packed (s :: l) = s ++ NUL :: packed l.
Proof. unfold packed. simpl. by rewrite <-app_assoc. Qed.

Lemma packed_app (l1 l2 : list (list byte)) :
  packed (l1 ++ l2) = packed l1 ++ packed l2.
Proof. unfold packed. by rewrite map_app, concat_app. Qed.

Lemma offsets_length (o : Z) (l : list (list byte)) :
  length (offsets o l) = length l.
Proof. revert o. induction l as [|s l IH]; intros o; simpl; [done|]. by rewrite IH. Qed.

Lemma offsets_shift (o d : Z) (l : list (list byte)) :
  offsets (o + d) l = (fun p => p + d) <$> offsets o l.
Proof.
  revert o. induction l as [|s l IH]; intros o; simpl; [done|].
  f_equal. rewrite <-IH. f_equal. lia.
Qed.

Lemma offsets_app (o : Z) (l1 l2 : list (list byte)) :
  offsets o (l1 ++ l2) =
  offsets o l1 ++ offsets (o + Z.of_nat (length (packed l1))) l2.
Proof.
  revert o. induction l1 as [|s l1 IH]; intros o; simpl.
  - by rewrite Z.add_0_r.
  - f_equal. rewrite IH. f_equal. f_equal.
    rewrite packed_cons, length_app. simpl. lia.
Qed.

Lemma offsets_nonneg (o : Z) (l : list (list byte)) (i : nat) (p : Z) :
  0 <= o -> offsets o l !! i = Some p -> 0 <= p.
Proof.
  revert o i. induction l as [|s l IH]; intros o i Ho; simpl; [done|].
  destruct i as [|i]; simpl.
  - intros [= <-]. done.
  - apply IH. lia.
Qed.

(** The string at index [i] starts behind the strings before it. *)
Lemma offsets_lookup (l : list (list byte)) (i : nat) (s : list byte) :
  l !! i = Some s ->
  offsets 0 l !! i = Some (Z.of_nat (length (packed (take i l)))).
Proof.
  intros H. rewrite <-(take_drop i l) at 1. rewrite offsets_app.
  rewrite lookup_app_r by (rewrite offsets_length, length_take; lia).
  rewrite offsets_length, length_take.
  apply lookup_lt_Some in H as Hlt.
  replace (i - i `min` length l)%nat with O by lia.
  rewrite (drop_S _ _ _ H). simpl. f_equal.
Qed.

Lemma cstr_app_l (m rest : list byte) (p : Z) (s : list byte) :
  cstr m p = Some s -> cstr (m ++ rest) p = Some s.
Proof.
  rewrite !cstr_Some. intros (Hp & Hn & r & Hd).
  split; [done|]. split; [done|]. exists (r ++ rest).
  assert (Z.to_nat p <= length m)%nat.
  { destruct (decide (Z.to_nat p <= length m)%nat) as [|Hgt]; [done|].
    rewrite drop_ge in Hd by lia. by destruct s. }
  rewrite drop_app_le by done. rewrite Hd. by rewrite <-app_assoc.
Qed.

Lemma cstr_packed (l : list (list byte)) (i : nat) (s : list byte)
    (rest : list byte) :
  Forall (fun s => NUL ∉ s) l -> l !! i = Some s ->
  cstr (packed l ++ rest) (Z.of_nat (length (packed (take i l)))) = Some s.
Proof.
  intros Hn H. apply cstr_Some. split; [lia|]. split.
  - by eapply Forall_lookup_1 in Hn.
  - exists (packed (drop (S i) l) ++ rest).
    rewrite Nat2Z.id. rewrite <-(take_drop_middle l i s H) at 2.
    rewrite packed_app, packed_cons, <-!app_assoc.
    rewrite drop_app_length. simpl. done.
Qed.

Lemma slot_nat (pas : array_strings) (i : nat) :
  slot pas (Z.of_nat i) = mjoin (as_string pas !! i).
Proof.
  unfold slot. destruct (Z.leb_spec 0 (Z.of_nat i)); [|lia].
  by rewrite Nat2Z.id.
Qed.

(** An array that holds [l] lets its strings be read through its slots. *)
Lemma holds_read (l : list (list byte)) (pas : array_strings) (i : nat)
    (s : list byte) :
  holds l pas -> l !! i = Some s ->
  slot pas (Z.of_nat i) = Some (Z.of_nat (length (packed (take i l)))) /\
  cstr (buf_of pas) (Z.of_nat (length (packed (take i l)))) = Some s.
Proof.
  intros [Hn _ _ _ _ [rest Hb] [slots Hs] _] H. split.
  - rewrite slot_nat, Hs.
    rewrite lookup_app_l
      by (rewrite length_fmap, offsets_length; by eapply lookup_lt_Some).
    rewrite list_lookup_fmap, (offsets_lookup _ _ _ H). done.
  - rewrite Hb. by apply cstr_packed.
Qed.

Lemma same_string_read (a : array_strings) (i : Z) (b : array_strings)
    (j : Z) (p q : Z) (s t : list byte) :
  slot a i = Some p -> cstr (buf_of a) p = Some s ->
  slot b j = Some q -> cstr (buf_of b) q = Some t ->
  same_string a i b j = Some (bool_decide (s = t)).
Proof.
  intros Hp Hs Hq Ht. unfold same_string. rewrite Hp, Hq.
  cbn [mbind option_bind].
  pose proof (strcmp_same _ _ _ _ _ _ Hs Ht) as H.
  destruct (strcmp (buf_of a) p (buf_of b) q); simpl in *; congruence.
Qed.

Lemma holds_reads (l : list (list byte)) (pas : array_strings) :
  holds l pas -> reads l pas.
Proof.
  intros H. split; [by destruct H|]. intros i s Hi.
  destruct (holds_read _ _ _ _ H Hi). eauto.
Qed.

Lemma gives_reads (l : list (list byte)) (new : attribute) (E : extern)
    (newpas : array_strings) :
  gives l new E newpas -> reads l newpas.
Proof. intros H. split; by destruct H. Qed.

(** ** The loops over the slots *)

Lemma any_upto_spec (fuel : nat) (f : Z -> option bool) (P : Z -> bool)
    (lo hi : Z) :
  (forall j, lo <= j < hi -> f j = Some (P j)) ->
  (Z.to_nat (hi - lo) <= fuel)%nat ->
  exists b, any_upto fuel f lo hi = Some b /\
            (b = true -> exists j, lo <= j < hi /\ P j = true) /\
            (b = false -> forall j, lo <= j < hi -> P j = false).
Proof.
  revert lo. induction fuel as [|fuel IH]; intros lo Hf Hfuel.
  - simpl. destruct (Z.ltb_spec lo hi); [lia|].
    exists false. split; [done|]. split; [done|]. intros _ j Hj. lia.
  - simpl. destruct (Z.ltb_spec lo hi) as [Hlt|Hge].
    + rewrite (Hf lo) by lia. cbn [mbind option_bind].
      destruct (P lo) eqn:HP.
      * exists true. split; [done|]. split; [|done]. intros _. exists lo.
        split; [lia|done].
      * destruct (IH (lo + 1)) as (b & -> & Ht & Hff).
        { intros j Hj. apply Hf. lia. }
        { lia. }
        exists b. split; [done|]. split.
        -- intros Hb. destruct (Ht Hb) as (j & Hj & HPj). exists j.
           split; [lia|done].
        -- intros Hb j Hj. destruct (decide (j = lo)) as [->|Hne]; [done|].
           apply Hff; [done|lia].
    + exists false. split; [done|]. split; [done|]. intros _ j Hj. lia.
Qed.

Lemma reads_same_string (la lb : list (list byte)) (a b : array_strings)
    (i j : nat) (s t : list byte) :
  reads la a -> reads lb b -> la !! i = Some s -> lb !! j = Some t ->
  same_string a (Z.of_nat i) b (Z.of_nat j) = Some (bool_decide (s = t)).
Proof.
  intros [_ Ha] [_ Hb] Hi Hj.
  destruct (Ha _ _ Hi) as (p & Hp & Hs), (Hb _ _ Hj) as (q & Hq & Ht).
  by eapply same_string_read.
Qed.

Lemma reads_same_string_Z (la lb : list (list byte)) (a b : array_strings)
    (i j : Z) :
  reads la a -> reads lb b ->
  0 <= i < Z.of_nat (length la) -> 0 <= j < Z.of_nat (length lb) ->
  same_string a i b j =
  Some (bool_decide (default [] (la !! Z.to_nat i) =
                     default [] (lb !! Z.to_nat j))).
Proof.
  intros Ha Hb Hi Hj.
  destruct (lookup_lt_is_Some_2 la (Z.to_nat i)) as [s Hs]; [lia|].
  destruct (lookup_lt_is_Some_2 lb (Z.to_nat j)) as [t Ht]; [lia|].
  rewrite Hs, Ht. simpl.
  rewrite <-(Z2Nat.id i), <-(Z2Nat.id j) by lia.
  by eapply reads_same_string.
Qed.

(** [chk_dup_acl] finds exactly the duplicates of an Add. *)
Lemma chk_dup_acl_spec (l ln : list (list byte)) (old new : array_strings) :
  reads l old -> reads ln new ->
  exists b, chk_dup_acl old new = Some b /\
            (b = true -> duplicate l ln) /\
            (b = false -> ~ duplicate l ln).
Proof.
  intros Hold Hnew. unfold chk_dup_acl.
  destruct Hold as [Hlo Hro], Hnew as [Hln Hrn].
  rewrite Hlo, Hln. rewrite Nat2Z.id.
  set (n := Z.of_nat (length ln)). set (k := Z.of_nat (length l)).
  set (inner_self := fun i =>
         any_upto (length ln)
           (fun j => if i =? j then Some false else same_string new i new j)
           0 n).
  set (inner_old := fun i =>
         any_upto (Z.to_nat k) (fun j => same_string new i old j) 0 k).
  assert (forall i, 0 <= i < n ->
            exists b1, inner_self i = Some b1 /\
              (b1 = true -> exists j, 0 <= j < n /\ i <> j /\
                 default [] (ln !! Z.to_nat i) = default [] (ln !! Z.to_nat j)) /\
              (b1 = false -> forall j, 0 <= j < n -> i <> j ->
                 default [] (ln !! Z.to_nat i) <> default [] (ln !! Z.to_nat j)))
    as Hself.
  { intros i Hi.
    destruct (any_upto_spec (length ln)
                (fun j => if i =? j then Some false
                          else same_string new i new j)
                (fun j => if i =? j then false
                          else bool_decide (default [] (ln !! Z.to_nat i) =
                                            default [] (ln !! Z.to_nat j)))
                0 n) as (b1 & Hb1 & Ht & Hf).
    { intros j Hj. destruct (i =? j); [done|].
      apply (reads_same_string_Z ln ln); try done; by split. }
    { lia. }
    exists b1. split; [done|]. split.
    - intros Hb. destruct (Ht Hb) as (j & Hj & HP). exists j.
      destruct (Z.eqb_spec i j); [done|].
      apply bool_decide_eq_true in HP. done.
    - intros Hb j Hj Hne. specialize (Hf Hb j Hj).
      destruct (Z.eqb_spec i j); [done|].
      by apply bool_decide_eq_false in Hf. }
  assert (forall i, 0 <= i < n ->
            exists b2, inner_old i = Some b2 /\
              (b2 = true -> exists j, 0 <= j < k /\
                 default [] (ln !! Z.to_nat i) = default [] (l !! Z.to_nat j)) /\
              (b2 = false -> forall j, 0 <= j < k ->
                 default [] (ln !! Z.to_nat i) <> default [] (l !! Z.to_nat j)))
    as Hother.
  { intros i Hi.
    destruct (any_upto_spec (Z.to_nat k)
                (fun j => same_string new i old j)
                (fun j => bool_decide (default [] (ln !! Z.to_nat i) =
                                       default [] (l !! Z.to_nat j)))
                0 k) as (b2 & Hb2 & Ht & Hf).
    { intros j Hj. apply (reads_same_string_Z ln l); try done; by split. }
    { lia. }
    exists b2. split; [done|]. split.
    - intros Hb. destruct (Ht Hb) as (j & Hj & HP). exists j.
      split; [done|]. by apply bool_decide_eq_true in HP.
    - intros Hb j Hj. specialize (Hf Hb j Hj).
      by apply bool_decide_eq_false in Hf. }
  set (F := fun i => self ← inner_self i;
                     if self : bool then Some true else inner_old i).
  destruct (any_upto_spec (length ln) F (fun i => default false (F i)) 0 n)
    as (b & Hb & Ht & Hf).
  { intros i Hi. unfold F.
    destruct (Hself i Hi) as (b1 & -> & _). cbn [mbind option_bind].
    destruct b1; [done|]. by destruct (Hother i Hi) as (b2 & -> & _). }
  { lia. }
  exists b. split; [exact Hb|]. split.
  - intros Hbt. destruct (Ht Hbt) as (i & Hi & HF). unfold F in HF.
    destruct (Hself i Hi) as (b1 & E1 & H1 & _). rewrite E1 in HF.
    cbn [mbind option_bind] in HF. destruct b1.
    + left. destruct (H1 eq_refl) as (j & Hj & Hne & Heq).
      destruct (lookup_lt_is_Some_2 ln (Z.to_nat i)) as [s Hs]; [lia|].
      destruct (lookup_lt_is_Some_2 ln (Z.to_nat j)) as [t Hs']; [lia|].
      rewrite Hs, Hs' in Heq. simpl in Heq. subst t.
      intros Hnd. rewrite NoDup_alt in Hnd.
      specialize (Hnd _ _ _ Hs Hs'). lia.
    + right. destruct (Hother i Hi) as (b2 & E2 & H2 & _). rewrite E2 in HF.
      simpl in HF. subst b2. destruct (H2 eq_refl) as (j & Hj & Heq).
      destruct (lookup_lt_is_Some_2 ln (Z.to_nat i)) as [s Hs]; [lia|].
      destruct (lookup_lt_is_Some_2 l (Z.to_nat j)) as [t Hs']; [lia|].
      rewrite Hs, Hs' in Heq. simpl in Heq. subst t.
      exists s. split; by eapply list_elem_of_lookup_2.
  - intros Hbf [Hdup|(s & Hs1 & Hs2)].
    + apply Hdup. apply NoDup_alt. intros i j s Hi Hj.
      destruct (decide (i = j)) as [|Hne]; [done|exfalso].
      apply lookup_lt_Some in Hi as Hi', Hj as Hj'.
      assert (0 <= Z.of_nat i < n) as Hin by lia.
      specialize (Hf Hbf _ Hin). unfold F in Hf.
      destruct (Hself _ Hin) as (b1 & E1 & _ & H1). rewrite E1 in Hf.
      cbn [mbind option_bind] in Hf. destruct b1; [done|].
      apply (H1 eq_refl (Z.of_nat j)); [lia|lia|].
      by rewrite !Nat2Z.id, Hi, Hj.
    + apply list_elem_of_lookup in Hs1 as [i Hi], Hs2 as [j Hj].
      apply lookup_lt_Some in Hi as Hi', Hj as Hj'.
      assert (0 <= Z.of_nat i < n) as Hin by lia.
      specialize (Hf Hbf _ Hin). unfold F in Hf.
      destruct (Hself _ Hin) as (b1 & E1 & _ & H1). rewrite E1 in Hf.
      cbn [mbind option_bind] in Hf. destruct b1; [done|].
      destruct (Hother _ Hin) as (b2 & E2 & _ & H2). rewrite E2 in Hf.
      simpl in Hf. subst b2.
      apply (H2 eq_refl (Z.of_nat j)); [lia|].
      by rewrite !Nat2Z.id, Hi, Hj.
Qed.

(** ** Slots and bytes of lists cut in three *)

Lemma get_slot_middle (P R : list (option Z)) (x : option Z) :
  get_slot (P ++ x :: R) (Z.of_nat (length P)) = Some x.
Proof.
  unfold get_slot. destruct (Z.leb_spec 0 (Z.of_nat (length P))); [|lia].
  rewrite Nat2Z.id. by rewrite list_lookup_middle.
Qed.

Lemma set_slot_middle (P R : list (option Z)) (x v : option Z) :
  set_slot (P ++ x :: R) (Z.of_nat (length P)) v = Some (P ++ v :: R).
Proof.
  unfold set_slot. rewrite length_app. simpl.
  destruct (Z.leb_spec 0 (Z.of_nat (length P))); [|lia].
  destruct (Z.ltb_spec (Z.of_nat (length P))
              (Z.of_nat (length P + S (length R)))); [|lia].
  simpl. rewrite Nat2Z.id.
  rewrite insert_app_r_alt by done. by rewrite Nat.sub_diag.
Qed.

Lemma store_bytes_middle (A B C bs : list byte) :
  length bs = length B ->
  store_bytes (A ++ B ++ C) (Z.of_nat (length A)) bs = Some (A ++ bs ++ C).
Proof.
  intros Hlen. unfold store_bytes. rewrite !length_app.
  destruct (Z.leb_spec 0 (Z.of_nat (length A))); [|lia].
  destruct (Z.leb_spec (Z.of_nat (length A) + Z.of_nat (length bs))
              (Z.of_nat (length A + (length B + length C)))); [|lia].
  simpl. rewrite Nat2Z.id. rewrite take_app_length. f_equal. f_equal. f_equal.
  rewrite drop_app_ge by lia.
  replace (length A + length bs - length A)%nat with (length B) by lia.
  by rewrite drop_app_length.
Qed.

(** ** Remove *)

Lemma first_index_Some (s : list byte) (l : list (list byte)) (i : nat) :
  first_index s l = Some i ->
  l !! i = Some s /\ remove_first s l = delete i l /\
  forall j t, (j < i)%nat -> l !! j = Some t -> t <> s.
Proof.
  revert i. induction l as [|x l IH]; intros i; simpl; [done|].
  case_bool_decide as Hx.
  - intros [= <-]. subst x. split; [done|]. split; [done|]. intros j t Hj. lia.
  - destruct (first_index s l) as [k|]; [|done]. simpl. intros [= <-].
    destruct (IH k eq_refl) as (H1 & H2 & H3).
    split; [done|]. split; [by rewrite H2|].
    intros [|j] t Hj Ht; simpl in Ht; [by simplify_eq|].
    eapply H3; [|done]. lia.
Qed.

Lemma first_index_None (s : list byte) (l : list (list byte)) :
  first_index s l = None -> (s ∉ l) /\ remove_first s l = l.
Proof.
  induction l as [|x l IH]; simpl; [intros _; split; [set_solver|done]|].
  case_bool_decide as Hx; [done|].
  destruct (first_index s l) as [k|]; [done|]. intros _.
  destruct (IH eq_refl) as [H1 H2]. split; [set_solver|by rewrite H2].
Qed.

(** The search of [DECR] stops at the first string that equals the
    operand's. *)
Lemma find_equal_spec (l ln : list (list byte)) (pas newpas : array_strings)
    (j : nat) (s : list byte) (fuel : nat) (k : nat) :
  reads l pas -> reads ln newpas -> ln !! j = Some s ->
  (length l - k <= fuel)%nat -> (k <= length l)%nat ->
  find_equal fuel pas newpas (Z.of_nat j) (Z.of_nat k) =
  Some ((fun i => Z.of_nat (k + i)) <$> first_index s (drop k l)).
Proof.
  intros Hl Hln Hj. revert k.
  induction fuel as [|fuel IH]; intros k Hfuel Hk.
  - simpl. destruct Hl as [-> _].
    destruct (Z.ltb_spec (Z.of_nat k) (Z.of_nat (length l))); [lia|].
    rewrite drop_ge by lia. done.
  - simpl. destruct (Z.ltb_spec (Z.of_nat k) (as_usedptr pas)) as [Hlt|Hge].
    + destruct Hl as [Hu Hr]. rewrite Hu in Hlt.
      destruct (lookup_lt_is_Some_2 l k) as [x Hx]; [lia|].
      rewrite (reads_same_string l ln pas newpas k j x s); try done.
      cbn [mbind option_bind]. rewrite (drop_S _ _ _ Hx). simpl.
      case_bool_decide as Hxs.
      * simpl. do 3 f_equal. lia.
      * replace (Z.of_nat k + 1) with (Z.of_nat (S k)) by lia.
        rewrite IH by lia.
        destruct (first_index s (drop (S k) l)); simpl; [|done].
        do 3 f_equal. lia.
    + destruct Hl as [Hu _]. rewrite Hu in Hge.
      rewrite drop_ge by lia. done.
Qed.

Lemma compact_ptrs_spec (fuel : nat) (P Q : list (option Z)) (x : option Z)
    (nsize : Z) :
  (length Q <= fuel)%nat ->
  compact_ptrs fuel (P ++ x :: Q) nsize (Z.of_nat (length P) + 1)
    (Z.of_nat (length (P ++ x :: Q))) =
  Some (P ++ ((fun v : option Z => (fun p => p - nsize) <$> v) <$> Q) ++ [default x (last Q)]).
Proof.
  revert P x fuel. induction Q as [|q Q IH]; intros P x fuel Hfuel.
  - rewrite length_app. simpl.
    destruct fuel; simpl;
      (destruct (Z.ltb_spec (Z.of_nat (length P) + 1)
                   (Z.of_nat (length P + 1))); [lia|done]).
  - destruct fuel as [|fuel]; [simpl in Hfuel; lia|].
    cbn [compact_ptrs].
    destruct (Z.ltb_spec (Z.of_nat (length P) + 1)
                (Z.of_nat (length (P ++ x :: q :: Q)))) as [_|Hge].
    2:{ rewrite length_app in Hge. simpl in Hge. lia. }
    replace (P ++ x :: q :: Q) with ((P ++ [x]) ++ q :: Q) at 1
      by (by rewrite <-app_assoc).
    replace (Z.of_nat (length P) + 1) with (Z.of_nat (length (P ++ [x])))
      by (rewrite length_app; simpl; lia).
    rewrite get_slot_middle. cbn [mbind option_bind].
    replace (Z.of_nat (length (P ++ [x])) - 1) with (Z.of_nat (length P))
      by (rewrite length_app; simpl; lia).
    rewrite set_slot_middle. cbn [mbind option_bind].
    replace (P ++ ((fun p => p - nsize) <$> q) :: q :: Q)
      with ((P ++ [(fun p => p - nsize) <$> q]) ++ q :: Q)
      by (by rewrite <-app_assoc).
    replace (Z.of_nat (length (P ++ [x])) + 1)
      with (Z.of_nat (length (P ++ [(fun p => p - nsize) <$> q])) + 1)
      by (rewrite !length_app; simpl; lia).
    replace (Z.of_nat (length (P ++ x :: q :: Q)))
      with (Z.of_nat (length ((P ++ [(fun p => p - nsize) <$> q]) ++ q :: Q)))
      by (rewrite !length_app; simpl; lia).
    rewrite IH by (simpl in Hfuel; lia).
    f_equal. rewrite <-app_assoc. simpl. do 3 f_equal.
    destruct Q as [|q' Q]; [done|].
    change (last (q :: q' :: Q)) with (last (q' :: Q)).
    destruct (last (q' :: Q)) eqn:E; [done|].
    by apply last_None in E.
Qed.

(** Taking the string at index [i] out of an array gives an array that
    holds the other strings in their order. *)
Lemma remove_entry_spec (l : list (list byte)) (pas : array_strings)
    (i : nat) (s : list byte) :
  holds l pas -> l !! i = Some s ->
  exists pas', remove_entry pas (Z.of_nat i) = Some pas' /\
               holds (delete i l) pas'.
Proof.
  intros Hh Hi. destruct (holds_read _ _ _ _ Hh Hi) as [Hslot Hstr].
  destruct Hh as [Hn Hu Hnp Hnext Hbs [rest Hb] [slots Hs] Hint].
  unfold remove_entry. rewrite Hslot. cbn [mbind option_bind].
  rewrite (strlen_Some _ _ _ Hstr). cbn [mbind option_bind].
  (* the list cut at [i] *)
  pose proof (take_drop_middle l i s Hi) as Hl.
  set (l1 := take i l) in *. set (l2 := drop (S i) l) in *.
  assert (length l1 = i) as Hl1.
  { unfold l1. rewrite length_take. apply lookup_lt_Some in Hi. lia. }
  assert (delete i l = l1 ++ l2) as Hdel.
  { rewrite <-Hl, <-Hl1. apply delete_middle. }
  (* the buffer *)
  assert (buf_of pas = packed l1 ++ (s ++ [NUL]) ++ (packed l2 ++ rest)) as Hb'.
  { rewrite Hb, <-Hl, packed_app, packed_cons.
    by rewrite <-!app_assoc. }
  assert (as_next pas = Z.of_nat (length (packed l1) + (length s + 1)
                                  + length (packed l2))) as Hnext'.
  { rewrite Hnext, <-Hl, packed_app, packed_cons, !length_app. simpl. lia. }
  unfold memmove.
  set (p := Z.of_nat (length (packed l1))).
  set (pc := p + (Z.of_nat (length s) + 1)).
  assert (drop (Z.to_nat pc) (buf_of pas) = packed l2 ++ rest) as Hdrop.
  { rewrite Hb'. unfold pc, p.
    replace (Z.to_nat (Z.of_nat (length (packed l1)) +
                       (Z.of_nat (length s) + 1)))
      with (length (packed l1) + length (s ++ [NUL]))%nat
      by (rewrite length_app; simpl; lia).
    rewrite <-drop_drop, drop_app_length, drop_app_length. done. }
  assert (as_next pas - pc = Z.of_nat (length (packed l2))) as Hneed.
  { rewrite Hnext'. unfold pc, p. lia. }
  rewrite Hneed.
  destruct (Z.leb_spec 0 pc); [|unfold pc, p in *; lia].
  destruct (Z.leb_spec 0 (Z.of_nat (length (packed l2)))); [|lia].
  destruct (Z.leb_spec (pc + Z.of_nat (length (packed l2)))
              (Z.of_nat (length (buf_of pas)))) as [_|Hgt].
  2:{ rewrite Hb', !length_app in Hgt. unfold pc, p in Hgt. simpl in Hgt. lia. }
  cbn [andb]. rewrite Hdrop, Nat2Z.id, take_app_length.
  (* the bytes behind the string move down over it *)
  assert (exists B C, buf_of pas = packed l1 ++ B ++ C /\
                      length B = length (packed l2) /\
                      exists rest', packed l2 ++ C = packed l2 ++ rest')
    as (B & C & HB & HBlen & _).
  { exists (take (length (packed l2)) ((s ++ [NUL]) ++ packed l2 ++ rest)),
           (drop (length (packed l2)) ((s ++ [NUL]) ++ packed l2 ++ rest)).
    split; [by rewrite take_drop|]. split; [|by eexists].
    rewrite length_take, !length_app. lia. }
  rewrite HB. unfold p. rewrite store_bytes_middle by done.
  cbn [mbind option_bind].
  (* the slots *)
  assert (as_string pas =
          (Some <$> offsets 0 l1) ++
          Some p ::
          ((Some <$> offsets (p + (Z.of_nat (length s) + 1)) l2) ++ slots))
    as Hs'.
  { rewrite Hs, <-Hl, offsets_app. simpl. rewrite fmap_app. simpl.
    rewrite <-app_assoc. simpl. unfold p.
    replace (0 + Z.of_nat (length (packed l1)) + Z.of_nat (length s) + 1)
      with (Z.of_nat (length (packed l1)) + (Z.of_nat (length s) + 1)) by lia.
    by rewrite Z.add_0_l. }
  assert (Z.of_nat i = Z.of_nat (length (Some <$> offsets 0 l1))) as Hi'.
  { by rewrite length_fmap, offsets_length, Hl1. }
  rewrite Hnp, Hi'. rewrite Hs'.
  replace (Z.to_nat
             (Z.of_nat (length ((Some <$> offsets 0 l1) ++ Some p ::
                (Some <$> offsets (p + (Z.of_nat (length s) + 1)) l2) ++ slots))
              - (Z.of_nat (length (Some <$> offsets 0 l1)) + 1)))
    with (length ((Some <$> offsets (p + (Z.of_nat (length s) + 1)) l2)
                  ++ slots))
    by (rewrite !length_app; simpl; rewrite !length_app; lia).
  rewrite compact_ptrs_spec by done. cbn [mbind option_bind].
  set (Q := (Some <$> offsets (p + (Z.of_nat (length s) + 1)) l2) ++ slots).
  set (P := Some <$> offsets 0 l1).
  replace (Z.max (Z.of_nat (length P) + 1)
                 (Z.of_nat (length (P ++ Some p :: Q))) - 1)
    with (Z.of_nat (length (P ++ ((fun v : option Z => (fun p0 => p0 - (Z.of_nat (length s) + 1)) <$> v) <$> Q))))
    by (rewrite !length_app, !length_fmap; cbn [length]; lia).
  rewrite (app_assoc P _ [default (Some p) (last Q)]).
  rewrite set_slot_middle. cbn [mbind option_bind].
  eexists. split; [done|].
  rewrite Hdel. constructor; cbn [as_usedptr as_npointers as_next as_bufsize
                                 as_buf as_string buf_of default].
  - rewrite <-Hl in Hn. apply Forall_app in Hn as [H1 H2].
    apply Forall_cons in H2 as [_ H2]. by apply Forall_app.
  - rewrite Hu, <-Hl, !length_app. simpl. lia.
  - rewrite !length_app, !length_fmap. simpl. lia.
  - rewrite Hnext', packed_app, length_app. lia.
  - unfold id. rewrite Hbs, HB, !length_app. lia.
  - exists C. unfold id. by rewrite packed_app, <-app_assoc.
  - unfold P, Q. rewrite fmap_app.
    exists (((fun v : option Z => (fun p0 => p0 - (Z.of_nat (length s) + 1)) <$> v)
               <$> slots) ++ [None]).
    rewrite offsets_app, fmap_app, <-!app_assoc. f_equal. f_equal.
    rewrite (offsets_shift (0 + Z.of_nat (length (packed l1)))).
    rewrite <-!list_fmap_compose.
    apply list_fmap_ext. intros k o _. simpl. f_equal. lia.
  - destruct Hint as [H1 H2]. split; [done|].
    rewrite Hnp, Hs' in H2. exact H2.
Qed.

Lemma remove_each_cons (s : list byte) (ln l : list (list byte)) :
  remove_each (s :: ln) l = remove_each ln (remove_first s l).
Proof. done. Qed.

Lemma remove_first_sublist (s : list byte) (l : list (list byte)) :
  sublist (remove_first s l) l.
Proof.
  induction l as [|x l IH]; simpl; [done|].
  case_bool_decide; [by apply sublist_cons|by apply sublist_skip].
Qed.

Lemma remove_each_sublist (ln l : list (list byte)) :
  sublist (remove_each ln l) l.
Proof.
  revert l. induction ln as [|s ln IH]; intros l; [done|].
  rewrite remove_each_cons. etrans; [apply IH|apply remove_first_sublist].
Qed.

Lemma remove_first_absent (s : list byte) (l : list (list byte)) :
  s ∉ l -> remove_first s l = l.
Proof.
  induction l as [|x l IH]; intros H; simpl; [done|].
  rewrite bool_decide_eq_false_2 by set_solver. rewrite IH by set_solver. done.
Qed.

Lemma remove_first_present (s : list byte) (l1 l2 : list (list byte)) :
  s ∉ l1 -> remove_first s (l1 ++ s :: l2) = l1 ++ l2.
Proof.
  induction l1 as [|x l1 IH]; intros H; simpl.
  - by rewrite bool_decide_eq_true_2.
  - rewrite bool_decide_eq_false_2 by set_solver. rewrite IH by set_solver. done.
Qed.

(** The loop of [DECR] takes the strings of the operand out one by one. *)
Lemma remove_all_spec (ln : list (list byte)) (newpas : array_strings)
    (fuel : nat) (l : list (list byte)) (pas : array_strings) (j : nat) :
  holds l pas -> reads ln newpas ->
  (length ln - j <= fuel)%nat -> (j <= length ln)%nat ->
  exists pas', remove_all fuel pas newpas (Z.of_nat j) = Some pas' /\
               holds (remove_each (drop j ln) l) pas'.
Proof.
  intros Hh Hr. revert l pas j Hh.
  induction fuel as [|fuel IH]; intros l pas j Hh Hfuel Hj.
  - simpl. destruct Hr as [Hu _]. rewrite Hu.
    destruct (Z.ltb_spec (Z.of_nat j) (Z.of_nat (length ln))); [lia|].
    rewrite drop_ge by lia. eauto.
  - simpl. destruct (Z.ltb_spec (Z.of_nat j) (as_usedptr newpas)) as [Hlt|Hge].
    + pose proof Hr as [Hu _]. rewrite Hu in Hlt.
      destruct (lookup_lt_is_Some_2 ln j) as [s Hs]; [lia|].
      pose proof (holds_reads _ _ Hh) as Hrl.
      pose proof (holds_usedptr _ _ Hh) as Hul.
      rewrite Hul, Nat2Z.id.
      pose proof (find_equal_spec l ln pas newpas j s (length l) 0 Hrl Hr Hs)
        as Hfe.
      change (Z.of_nat 0) with 0 in Hfe. rewrite Hfe by lia. clear Hfe.
      rewrite drop_0. cbn [mbind option_bind].
      rewrite (drop_S _ _ _ Hs), remove_each_cons.
      replace (Z.of_nat j + 1) with (Z.of_nat (S j)) by lia.
      destruct (first_index s l) as [i|] eqn:Hfi; simpl.
      * destruct (first_index_Some _ _ _ Hfi) as (Hi & Hrm & _).
        destruct (remove_entry_spec _ _ _ _ Hh Hi) as (pas1 & -> & Hh1).
        cbn [mbind option_bind]. rewrite Hrm. apply IH; [done|lia|lia].
      * destruct (first_index_None _ _ Hfi) as [_ ->].
        apply IH; [done|lia|lia].
    + destruct Hr as [Hu _]. rewrite Hu in Hge.
      rewrite drop_ge by lia. eauto.
Qed.

Lemma holds_fresh (n : Z) :
  0 <= n < 2 ^ 31 ->
  holds [] {| as_npointers := n;
              as_usedptr := 0;
              as_bufsize := 0;
              as_buf := None;
              as_next := 0;
              as_string := replicate (Z.to_nat n) None |}.
Proof.
  intros Hn. constructor; cbn; try done.
  - rewrite length_replicate. lia.
  - by exists [].
  - by eexists.
  - lia.
Qed.

(** The array [set_allacl] works on holds what the attribute held. *)
Lemma make_arst_holds (A : allocator) (l : list (list byte))
    (attr : attribute) (newpas : array_strings) :
  attr_holds l attr -> 0 <= as_npointers newpas < 2 ^ 31 ->
  at_arst attr <> None \/ malloc_pas A = true ->
  exists pas, make_arst A attr newpas = Some pas /\ holds l pas /\
              as_bufsize pas = bufsize_of attr /\
              (at_arst attr <> None -> at_arst attr = Some pas).
Proof.
  intros Hattr Hn Halloc. unfold make_arst, attr_holds, bufsize_of in *.
  destruct (at_arst attr) as [pas|].
  - by exists pas.
  - destruct Halloc as [?|Hm]; [done|]. rewrite Hm. subst l.
    eexists. split; [done|]. split; [by apply holds_fresh|done].
Qed.

(** C8, as amended: a Remove on an attribute that has its array of
    strings, or whose control structure can be allocated, returns 0 and
    leaves the array with the list from which, for each string of the
    operand in turn, the first string equal to it byte by byte has been
    taken out.  A string of the operand that the list does not hold
    changes nothing, and the strings that stay keep their order. *)
Theorem remove_first_equal_entries (E : extern) (A : allocator)
    (post : attribute -> attribute) (order_func : match_fn)
    (attr new : attribute) (newpas : array_strings)
    (l ln : list (list byte)) :
  attr_holds l attr -> gives ln new E newpas ->
  at_arst attr <> None \/ malloc_pas A = true ->
  (exists pas',
     set_allacl E A post order_func attr new DECR =
     Some (PBSE_NONE, post (with_arst attr pas')) /\
     holds (remove_each ln l) pas') /\
  sublist (remove_each ln l) l /\
  (forall s l', s ∉ l' -> remove_first s l' = l') /\
  (forall s l1 l2, s ∉ l1 -> remove_first s (l1 ++ s :: l2) = l1 ++ l2).
Proof.
  intros Hattr Hnew Halloc.
  split; [|split; [apply remove_each_sublist|
                   split; [apply remove_first_absent
                          |apply remove_first_present]]].
  unfold set_allacl.
  destruct (Z.eqb_spec (Z.land (at_flags new) (ATR_VFLAG_SET E)) 0) as [Hz|_].
  { by destruct Hnew. }
  rewrite (gives_arst _ _ _ _ Hnew).
  destruct (make_arst_holds A l attr newpas Hattr (gives_npointers _ _ _ _ Hnew)
              Halloc) as (pas & -> & Hh & _).
  pose proof (gives_reads _ _ _ _ Hnew) as Hr.
  destruct (remove_all_spec ln newpas (Z.to_nat (as_usedptr newpas)) l pas 0
              Hh Hr) as (pas' & Hrm & Hh').
  { destruct Hr as [-> _]. lia. }
  { lia. }
  change (Z.of_nat 0) with 0 in Hrm. rewrite Hrm. cbn [mbind option_bind].
  rewrite drop_0 in Hh'. eauto.
Qed.

(** The statement C8 amends fails when the attribute has no array of
    strings yet and the allocator refuses the control structure: the Remove
    returns [PBSE_SYSTEM]. *)
Lemma remove_fails_without_memory :
  set_allacl example_extern refusing id host_order no_list (attr_of ["a"]) DECR
  = Some (PBSE_SYSTEM, no_list).
Proof. reflexivity. Qed.

(** ** Add *)

Ltac lengths :=
  repeat first
    [ rewrite packed_app | rewrite packed_cons | rewrite length_app
    | rewrite length_fmap | rewrite offsets_length | rewrite length_drop
    | progress cbn [length] ].

Lemma load_middle (A C : list byte) (b : byte) :
  load (A ++ b :: C) (Z.of_nat (length A)) = Some b.
Proof. rewrite load_nat. by rewrite list_lookup_middle. Qed.

Lemma store_middle (A C : list byte) (b c : byte) :
  store (A ++ b :: C) (Z.of_nat (length A)) c = Some (A ++ c :: C).
Proof.
  unfold store. rewrite length_app. simpl.
  destruct (Z.leb_spec 0 (Z.of_nat (length A))); [|lia].
  destruct (Z.ltb_spec (Z.of_nat (length A))
              (Z.of_nat (length A + S (length C)))); [|lia].
  simpl. rewrite Nat2Z.id.
  rewrite insert_app_r_alt by done. by rewrite Nat.sub_diag.
Qed.

(** The loop that makes room moves the bytes [B] up by [off]; the [off]
    bytes at their old place keep what they held. *)
Lemma shift_up_spec (B : list byte) (fuel : nat) (A C : list byte)
    (off : nat) :
  (length B <= fuel)%nat -> (1 <= off <= length C)%nat ->
  shift_up fuel (A ++ B ++ C) (Z.of_nat (length A)) (Z.of_nat off)
    (Z.of_nat (length A + length B) - 1) =
  Some (A ++ take off (B ++ C) ++ B ++ drop off C).
Proof.
  revert fuel C. induction B as [|b B IH] using rev_ind; intros fuel C Hf Ho.
  - simpl. rewrite Nat.add_0_r.
    destruct fuel; simpl;
      (destruct (Z.leb_spec (Z.of_nat (length A)) (Z.of_nat (length A) - 1));
       [lia|]); by rewrite take_drop.
  - rewrite length_app in Hf. simpl in Hf.
    destruct fuel as [|fuel]; [lia|]. cbn [shift_up].
    rewrite length_app. simpl.
    destruct (Z.leb_spec (Z.of_nat (length A))
                (Z.of_nat (length A + (length B + 1)) - 1)); [|lia].
    replace (Z.of_nat (length A + (length B + 1)) - 1)
      with (Z.of_nat (length (A ++ B))) by (rewrite length_app; lia).
    replace (A ++ (B ++ [b]) ++ C) with ((A ++ B) ++ b :: C)
      by (by rewrite <-?app_assoc).
    rewrite load_middle. cbn [mbind option_bind].
    (* the byte lands in [C] at index [off - 1] *)
    destruct (lookup_lt_is_Some_2 C (off - 1)) as [c Hc]; [lia|].
    pose proof (take_drop_middle C (off - 1) c Hc) as HC.
    set (C1 := take (off - 1) C) in *. set (C2 := drop (S (off - 1)) C) in *.
    assert (length C1 = (off - 1)%nat) as HC1.
    { unfold C1. rewrite length_take. lia. }
    replace ((A ++ B) ++ b :: C) with ((A ++ B ++ b :: C1) ++ c :: C2)
      by (rewrite <-HC, <-!app_assoc; simpl; by rewrite <-?app_assoc).
    replace (Z.of_nat (length (A ++ B)) + Z.of_nat off)
      with (Z.of_nat (length (A ++ B ++ b :: C1)))
      by (rewrite !length_app; simpl; lia).
    rewrite store_middle. cbn [mbind option_bind].
    replace ((A ++ B ++ b :: C1) ++ b :: C2) with (A ++ B ++ (b :: C1 ++ b :: C2))
      by (rewrite <-?app_assoc; simpl; by rewrite <-?app_assoc).
    replace (Z.of_nat (length (A ++ B)) - 1)
      with (Z.of_nat (length A + length B) - 1) by (rewrite length_app; lia).
    rewrite IH by (simpl; rewrite ?length_app; simpl; lia).
    f_equal. f_equal.
    assert (drop off (b :: C1 ++ b :: C2) = b :: drop off C) as ->.
    { destruct off as [|off]; [lia|]. simpl.
      replace off with (length C1) at 1 by lia.
      rewrite drop_app_length. f_equal. rewrite <-HC.
      replace (S off) with (length (C1 ++ [c])) at 1
        by (rewrite length_app; simpl; lia).
      replace (C1 ++ c :: C2) with ((C1 ++ [c]) ++ C2)
        by (by rewrite <-?app_assoc).
      by rewrite drop_app_length. }
    assert (take off (B ++ b :: C1 ++ b :: C2) = take off ((B ++ [b]) ++ C))
      as ->.
    { rewrite <-HC, <-!app_assoc. simpl.
      replace (B ++ b :: C1 ++ b :: C2) with ((B ++ b :: C1) ++ b :: C2)
        by (by rewrite <-?app_assoc).
      replace (B ++ b :: C1 ++ c :: C2) with ((B ++ b :: C1) ++ c :: C2)
        by (by rewrite <-?app_assoc).
      rewrite (take_app_le _ (b :: C2)), (take_app_le _ (c :: C2))
        by (rewrite length_app; simpl; lia).
      done. }
    by rewrite <-?app_assoc.
Qed.

(** The loop over the slots moves the slots [Q] up by one and adds
    [offset] to them; the slot at their old start keeps its value. *)
Lemma shift_ptrs_spec (Q : list (option Z)) (fuel : nat)
    (P R : list (option Z)) (x : option Z) (offset : Z) :
  (length Q <= fuel)%nat ->
  shift_ptrs fuel (P ++ Q ++ x :: R) (Z.of_nat (length P)) offset
    (Z.of_nat (length P + length Q)) =
  Some (P ++ hd x Q ::
        ((fun v : option Z => (fun p => p + offset) <$> v) <$> Q) ++ R).
Proof.
  revert fuel x R. induction Q as [|q Q IH] using rev_ind; intros fuel x R Hf.
  - simpl. rewrite Nat.add_0_r.
    destruct fuel; simpl;
      (destruct (Z.ltb_spec (Z.of_nat (length P)) (Z.of_nat (length P)));
       [lia|done]).
  - rewrite length_app in Hf. simpl in Hf.
    destruct fuel as [|fuel]; [lia|]. cbn [shift_ptrs].
    rewrite length_app. simpl.
    destruct (Z.ltb_spec (Z.of_nat (length P))
                (Z.of_nat (length P + (length Q + 1)))); [|lia].
    replace (Z.of_nat (length P + (length Q + 1)) - 1)
      with (Z.of_nat (length (P ++ Q))) by (rewrite length_app; lia).
    replace (P ++ (Q ++ [q]) ++ x :: R) with ((P ++ Q) ++ q :: x :: R)
      by (by rewrite <-?app_assoc).
    rewrite get_slot_middle. cbn [mbind option_bind].
    replace ((P ++ Q) ++ q :: x :: R) with ((P ++ Q ++ [q]) ++ x :: R)
      by (by rewrite <-?app_assoc).
    replace (Z.of_nat (length P + (length Q + 1)))
      with (Z.of_nat (length (P ++ Q ++ [q])))
      by (rewrite !length_app; simpl; lia).
    rewrite set_slot_middle. cbn [mbind option_bind].
    replace ((P ++ Q ++ [q]) ++ ((fun p => p + offset) <$> q) :: R)
      with (P ++ Q ++ q :: ((fun p => p + offset) <$> q) :: R)
      by (by rewrite <-?app_assoc).
    replace (Z.of_nat (length (P ++ Q)))
      with (Z.of_nat (length P + length Q))
      by (rewrite !length_app; simpl; lia).
    rewrite IH by lia. f_equal. f_equal.
    rewrite fmap_app, <-app_assoc. simpl. f_equal. by destruct Q.
Qed.

(** Putting a string at place [j] of an array that has room for it gives
    an array that holds the list with the string at index [j]. *)
Lemma put_entry_spec (l : list (list byte)) (pas : array_strings) (j : nat)
    (s : list byte) :
  holds l pas -> (j <= length l)%nat -> NUL ∉ s ->
  as_next pas + Z.of_nat (length s) + 1 <= as_bufsize pas ->
  (length l < length (as_string pas))%nat ->
  exists pas',
    put_entry pas (Z.of_nat j) (Z.of_nat (length s) + 1) s = Some pas' /\
    holds (take j l ++ s :: drop j l) pas' /\
    as_bufsize pas' = as_bufsize pas /\
    length (as_string pas') = length (as_string pas).
Proof.
  intros Hh Hj Hs Hroom Hslots.
  pose proof Hh as [Hn Hu Hnp Hnext Hbs [rest Hb] [slots Hstr] Hint].
  set (l1 := take j l). set (l2 := drop j l).
  assert (l = l1 ++ l2) as Hl by (unfold l1, l2; by rewrite take_drop).
  assert (length l1 = j) as Hl1 by (unfold l1; rewrite length_take; lia).
  set (o := length (packed l1)).
  set (off := (length s + 1)%nat).
  replace (Z.of_nat (length s) + 1) with (Z.of_nat off) by (unfold off; lia).
  (* the buffer and the slots, cut at [j] *)
  assert (buf_of pas = packed l1 ++ packed l2 ++ rest) as Hb'.
  { by rewrite Hb, Hl, packed_app, <-app_assoc. }
  assert (off <= length rest)%nat as Hrest.
  { rewrite Hbs, Hnext, Hb, length_app in Hroom. unfold off. lia. }
  destruct slots as [|x R].
  { rewrite Hstr, app_nil_r, length_fmap, offsets_length in Hslots. lia. }
  set (P := Some <$> offsets 0 l1).
  set (Q := Some <$> offsets (Z.of_nat o) l2).
  assert (as_string pas = P ++ Q ++ x :: R) as Hstr'.
  { rewrite Hstr, Hl, offsets_app, fmap_app, <-app_assoc.
    unfold P, Q, o. by rewrite Z.add_0_l. }
  assert (length P = j) as HP by (unfold P; by rewrite length_fmap, offsets_length).
  assert (length Q = length l2) as HQ
    by (unfold Q; by rewrite length_fmap, offsets_length).
  assert (length l = (j + length l2)%nat) as Hlen
    by (rewrite Hl, length_app; lia).
  (* both branches end with the same buffer and slots *)
  assert (exists m ptrs where_,
            (if Z.of_nat j <? as_usedptr pas then
               where_ ← slot pas (Z.of_nat j);
               m ← shift_up (Z.to_nat (as_next pas - where_)) (buf_of pas)
                      where_ (Z.of_nat off) (as_next pas - 1);
               ptrs ← shift_ptrs (Z.to_nat (as_usedptr pas - Z.of_nat j))
                         (as_string pas) (Z.of_nat j) (Z.of_nat off)
                         (as_usedptr pas);
               Some (m, ptrs, where_)
             else Some (buf_of pas, as_string pas, as_next pas))
            = Some (m, ptrs, where_) /\
            where_ = Z.of_nat o /\
            m = packed l1 ++ take off (packed l2 ++ rest) ++ packed l2 ++
                drop off rest /\
            exists y, ptrs = P ++ y ::
              ((fun v : option Z => (fun p => p + Z.of_nat off) <$> v) <$> Q)
              ++ R)
    as (m & ptrs & where_ & Hst & -> & -> & y & ->).
  { destruct (Z.ltb_spec (Z.of_nat j) (as_usedptr pas)) as [Hlt|Hge].
    - rewrite Hu in Hlt.
      destruct (lookup_lt_is_Some_2 l j) as [t Ht]; [lia|].
      destruct (holds_read _ _ _ _ Hh Ht) as [Hslot _].
      fold l1 in Hslot. fold o in Hslot. rewrite Hslot.
      cbn [mbind option_bind].
      rewrite Hnext, Hb', Hstr', Hu.
      replace (Z.to_nat (Z.of_nat (length (packed l)) - Z.of_nat o))
        with (length (packed l2))
        by (rewrite Hl, packed_app, length_app; unfold o; lia).
      replace (Z.of_nat (length (packed l)) - 1)
        with (Z.of_nat (length (packed l1) + length (packed l2)) - 1)
        by (rewrite Hl, packed_app, length_app; lia).
      unfold o. rewrite shift_up_spec by (unfold off in *; lia).
      cbn [mbind option_bind].
      replace (Z.to_nat (Z.of_nat (length l) - Z.of_nat j)) with (length Q)
        by lia.
      replace (Z.of_nat j) with (Z.of_nat (length P)) by lia.
      replace (Z.of_nat (length l)) with (Z.of_nat (length P + length Q))
        by lia.
      rewrite shift_ptrs_spec by done. cbn [mbind option_bind].
      do 3 eexists. split; [done|]. split; [done|]. split; [done|].
      by eexists.
    - rewrite Hu in Hge. assert (l2 = []) as Hl2.
      { apply length_zero_iff_nil. lia. }
      do 3 eexists. split; [done|].
      assert (l1 = l) as Hl1l by (by rewrite Hl, Hl2, app_nil_r).
      split; [by rewrite Hnext; unfold o; rewrite Hl1l|].
      split.
      + rewrite Hb', Hl2. simpl. by rewrite take_drop.
      + exists x. rewrite Hstr'. unfold Q. by rewrite Hl2. }
  unfold put_entry. rewrite Hst. cbn [mbind option_bind].
  unfold strcpy.
  assert (length (take off (packed l2 ++ rest)) = off) as Htake.
  { rewrite length_take, length_app. lia. }
  unfold o. rewrite store_bytes_middle
    by (rewrite Htake, length_app; unfold off; simpl; lia).
  cbn [mbind option_bind].
  replace (Z.of_nat j) with (Z.of_nat (length P)) by lia.
  rewrite set_slot_middle. cbn [mbind option_bind].
  eexists. split; [done|]. split; [|split].
  - constructor; cbn [as_usedptr as_npointers as_next as_bufsize as_buf
                      as_string buf_of default].
    + rewrite Hl in Hn. apply Forall_app in Hn as [H1 H2].
      apply Forall_app. split; [done|]. by apply Forall_cons.
    + rewrite Hu, Hlen. lengths. lia.
    + rewrite Hnp, Hstr'. lengths. lia.
    + rewrite Hnext, Hl. unfold off. lengths. lia.
    + unfold id. rewrite Hbs, Hb'. lengths. lia.
    + exists (drop off rest). unfold id.
      rewrite packed_app, packed_cons, <-?app_assoc. simpl.
      by rewrite <-?app_assoc.
    + exists R. rewrite offsets_app, fmap_app, <-app_assoc. simpl.
      fold P. f_equal. rewrite Z.add_0_l. fold o. f_equal.
      f_equal. unfold Q. rewrite <-list_fmap_compose.
      replace (Z.of_nat o + Z.of_nat (length s) + 1)
        with (Z.of_nat o + Z.of_nat off) by (unfold off; lia).
      rewrite (offsets_shift (Z.of_nat o)), <-list_fmap_compose.
      by apply list_fmap_ext.
    + done.
  - done.
  - cbn [as_string]. rewrite Hstr'. lengths. lia.
Qed.

(** The search for the place of a new string returns when the order
    function returns for the strings it is given; every string before the
    place does not sort after the new one, and the string at the place, if
    there is one, does. *)
Lemma find_place_spec (order_func : match_fn) (l : list (list byte))
    (pas : array_strings) (mnew : block) (pnew : Z) (s : list byte)
    (fuel : nat) (k : nat) :
  holds l pas -> returns_on_strings order_func ->
  Forall (fun t => t <> []) l -> cstr mnew pnew = Some s -> s <> [] ->
  (length l - k <= fuel)%nat -> (k <= length l)%nat ->
  exists j : nat,
    find_place fuel order_func pas mnew pnew (Z.of_nat k) = Some (Z.of_nat j) /\
    (k <= j <= length l)%nat /\
    (forall i, (k <= i < j)%nat ->
       exists d, order_func (buf_of pas)
                   (Z.of_nat (length (packed (take i l)))) mnew pnew = Some d /\
                 d <= 0) /\
    ((j < length l)%nat ->
       exists d, order_func (buf_of pas)
                   (Z.of_nat (length (packed (take j l)))) mnew pnew = Some d /\
                 0 < d).
Proof.
  intros Hh Hord Hne Hs Hsne. revert k.
  induction fuel as [|fuel IH]; intros k Hfuel Hk.
  - exists k. simpl. rewrite (holds_usedptr _ _ Hh).
    destruct (Z.ltb_spec (Z.of_nat k) (Z.of_nat (length l))); [lia|].
    split; [done|]. split; [lia|]. split; [intros i Hi; lia|lia].
  - simpl. rewrite (holds_usedptr _ _ Hh).
    destruct (Z.ltb_spec (Z.of_nat k) (Z.of_nat (length l))) as [Hlt|Hge].
    + destruct (lookup_lt_is_Some_2 l k) as [t Ht]; [lia|].
      destruct (holds_read _ _ _ _ Hh Ht) as [Hslot Hstr].
      rewrite Hslot. cbn [mbind option_bind].
      assert (t <> []) as Htne by (by eapply Forall_lookup_1 in Hne).
      destruct (Hord _ _ _ _ _ _ Hstr Hs Htne Hsne) as [d Hd].
      rewrite Hd. cbn [mbind option_bind].
      destruct (Z.ltb_spec 0 d) as [Hpos|Hnpos].
      * exists k. split; [done|]. split; [lia|].
        split; [intros i Hi; lia|]. intros _. eauto.
      * replace (Z.of_nat k + 1) with (Z.of_nat (S k)) by lia.
        destruct (IH (S k)) as (j & Hj & Hrange & Hbefore & Hat); [lia|lia|].
        exists j. split; [done|]. split; [lia|]. split; [|done].
        intros i Hi. destruct (decide (i = k)) as [->|Hik]; [eauto|].
        apply Hbefore. lia.
    + exists k. split; [done|]. split; [lia|].
      split; [intros i Hi; lia|lia].
Qed.

Lemma insert_middle_perm (l : list (list byte)) (j : nat) (s : list byte) :
  take j l ++ s :: drop j l ≡ₚ s :: l.
Proof. rewrite <-Permutation_middle. by rewrite take_drop. Qed.

Lemma insert_middle_sublist (l : list (list byte)) (j : nat) (s : list byte) :
  sublist l (take j l ++ s :: drop j l).
Proof.
  rewrite <-(take_drop j l) at 1. apply sublist_app; [done|].
  by apply sublist_cons.
Qed.

(** The loops that go over the used slots *)

Lemma each_slot_id (fuel : nat) (ptrs ptrs' : list (option Z)) (i hi : Z) :
  each_slot fuel (fun p => p) ptrs i hi = Some ptrs' -> ptrs' = ptrs.
Proof.
  revert ptrs i. induction fuel as [|fuel IH]; intros ptrs i; simpl.
  - destruct (i <? hi); [done|]. by intros [= <-].
  - destruct (i <? hi); [|by intros [= <-]].
    unfold get_slot, set_slot.
    destruct (Z.leb_spec 0 i); [|done].
    destruct (ptrs !! Z.to_nat i) as [v|] eqn:Hv; [|done].
    cbn [mbind option_bind].
    destruct (Z.ltb_spec i (Z.of_nat (length ptrs))); [|done].
    cbn [andb mbind option_bind].
    rewrite list_insert_id by done. apply IH.
Qed.

Lemma each_slot_id_Some (fuel : nat) (ptrs : list (option Z)) (i hi : Z) :
  0 <= i -> hi <= Z.of_nat (length ptrs) -> (Z.to_nat (hi - i) <= fuel)%nat ->
  each_slot fuel (fun p => p) ptrs i hi = Some ptrs.
Proof.
  revert i. induction fuel as [|fuel IH]; intros i Hi Hhi Hf; simpl.
  - destruct (Z.ltb_spec i hi); [lia|done].
  - destruct (Z.ltb_spec i hi); [|done].
    unfold get_slot, set_slot.
    destruct (Z.leb_spec 0 i); [|lia].
    destruct (lookup_lt_is_Some_2 ptrs (Z.to_nat i)) as [v Hv]; [lia|].
    rewrite Hv. cbn [mbind option_bind].
    destruct (Z.ltb_spec i (Z.of_nat (length ptrs))); [|lia].
    cbn [andb mbind option_bind].
    rewrite list_insert_id by done. apply IH; lia.
Qed.

(** ** The cases of the mutation *)

Lemma int_small (x : Z) : - 2 ^ 31 <= x < 2 ^ 31 -> int x = x.
Proof. intros H. unfold int. rewrite Z.mod_small; lia. Qed.

Lemma ulong_small (x : Z) : 0 <= x < 2 ^ 64 -> ulong x = x.
Proof. intros H. unfold ulong. by rewrite Z.mod_small. Qed.

Lemma grant_length (old fresh : list byte) (n : Z) :
  length (grant old fresh n) = Z.to_nat n.
Proof.
  unfold grant. rewrite length_take, !length_app, length_replicate. lia.
Qed.

Lemma grant_grows (old fresh : list byte) (n : Z) :
  Z.of_nat (length old) <= n -> exists more, grant old fresh n = old ++ more.
Proof.
  intros H. unfold grant. rewrite take_app_ge by lia. by eexists.
Qed.

Lemma reads_strings_of (l : list (list byte)) (pas : array_strings) :
  reads l pas -> strings_of pas = Some <$> l.
Proof.
  intros [Hu Hr]. unfold strings_of. rewrite Hu, Nat2Z.id.
  apply list_eq. intros i. rewrite !list_lookup_fmap.
  destruct (l !! i) as [s|] eqn:Hs; simpl.
  - destruct (Hr _ _ Hs) as (p & Hp & Hc). rewrite slot_nat in Hp.
    apply lookup_lt_Some in Hs as Hlt.
    rewrite lookup_take_lt by done.
    destruct (as_string pas !! i) as [[q|]|]; simplify_eq/=. by rewrite Hc.
  - apply lookup_ge_None in Hs. by rewrite lookup_take_ge.
Qed.

Lemma holds_entries_of (l : list (list byte)) (attr : attribute) :
  attr_holds l attr -> entries_of attr = Some <$> l.
Proof.
  unfold attr_holds, entries_of. destruct (at_arst attr) as [pas|].
  - intros H. by apply reads_strings_of, holds_reads.
  - by intros ->.
Qed.

(** An Add with a duplicate returns [PBSE_DUPLIST] and changes nothing. *)
Lemma incr_case_duplicate (A : allocator) (order_func : match_fn)
    (l ln : list (list byte)) (pas newpas : array_strings) :
  reads l pas -> reads ln newpas -> duplicate l ln ->
  incr_case A order_func pas newpas = Some (PBSE_DUPLIST, pas).
Proof.
  intros Hl Hln Hdup. unfold incr_case.
  destruct (chk_dup_acl_spec l ln pas newpas Hl Hln) as (b & -> & _ & Hf).
  destruct b; [done|]. by destruct (Hf eq_refl).
Qed.

Lemma grow_buf_reads (A : allocator) (l : list (list byte))
    (pas pas1 : array_strings) (nsize : Z) :
  0 <= nsize < 2 ^ 31 ->
  grow_buf A pas nsize = Some (Next pas1) ->
  as_usedptr pas1 = as_usedptr pas /\ (holds l pas -> reads l pas1).
Proof.
  intros Hn. unfold grow_buf.
  destruct (ulong (int (as_bufsize pas - int (as_next pas))) <? nsize).
  2:{ intros [= <-]. split; [done|apply holds_reads]. }
  destruct (realloc_buf A) as [fresh|]; [|done].
  destruct (each_slot (Z.to_nat (as_usedptr pas)) (fun p => p)
              (as_string pas) 0 (as_usedptr pas)) as [ptrs|] eqn:Hptrs;
    [|done].
  apply each_slot_id in Hptrs as ->. cbn [mbind option_bind].
  intros [= <-]. split; [done|].
  intros Hh. pose proof (holds_reads _ _ Hh) as [Hu Hr].
  split; [done|]. intros i s Hs. destruct (Hr _ _ Hs) as (p & Hp & Hc).
  exists p. split; [done|].
  destruct (grant_grows (buf_of pas) fresh (ulong (as_bufsize pas + 2 * nsize)))
    as [more Hmore].
  { destruct (holds_int _ _ Hh) as [Hb _].
    pose proof (holds_bufsize _ _ Hh).
    rewrite ulong_small; lia. }
  unfold buf_of at 1. cbn [as_buf default]. unfold id.
  rewrite Hmore. by apply cstr_app_l.
Qed.

(** However the [INCR] case fails, the used slots and what can be read
    through them stay as they were. *)
Lemma incr_case_failure (A : allocator) (order_func : match_fn)
    (l : list (list byte)) (pas newpas pas' : array_strings) (e : retcode) :
  0 <= as_next newpas < 2 ^ 31 ->
  incr_case A order_func pas newpas = Some (e, pas') -> e <> PBSE_NONE ->
  as_usedptr pas' = as_usedptr pas /\ (holds l pas -> reads l pas').
Proof.
  intros Hnew. unfold incr_case.
  destruct (chk_dup_acl pas newpas) as [[|]|]; cbn [mbind option_bind];
    [| |done].
  { intros [= <- <-] _. split; [done|apply holds_reads]. }
  rewrite (ulong_small (as_next newpas)) by lia.
  destruct (grow_buf A pas (as_next newpas)) as [[e1|pas1]|] eqn:Hgrow;
    cbn [mbind option_bind]; [| |done].
  { intros [= <- <-] _. split; [done|apply holds_reads]. }
  destruct (grow_ptrs A pas1 (as_usedptr newpas)) as [e2|pas2].
  - intros [= <- <-] _. by eapply grow_buf_reads.
  - destruct (insert_all _ _ _ _ _); [|done].
    cbn [mbind option_bind]. by intros [= <- <-].
Qed.

(** The [SET] case leaves no used slot, whether it goes on into [INCR],
    stops at an empty operand or fails. *)
Lemma set_case_usedptr (A : allocator) (pas newpas : array_strings)
    (f : flow (retcode * array_strings) array_strings) :
  set_case A pas newpas = Some f ->
  match f with
  | Return (e, pas') => as_usedptr pas' = 0 /\ e <> PBSE_INTERNAL
  | Next pas' => as_usedptr pas' = 0
  end.
Proof.
  unfold set_case.
  destruct (each_slot _ _ _ _ _) as [ptrs|]; [|done].
  cbn [mbind option_bind as_usedptr as_bufsize as_buf as_npointers].
  destruct (as_usedptr newpas =? 0); [by intros [= <-]|].
  destruct (ulong (as_bufsize pas) <? ulong (as_next newpas)).
  - destruct (malloc_buf A); by intros [= <-].
  - destruct (memset0 (as_buf pas) (as_bufsize pas)); [|done].
    cbn [mbind option_bind]. by intros [= <-].
Qed.

(** The [INCR] case never returns [PBSE_INTERNAL]. *)
Lemma incr_case_retcode (A : allocator) (order_func : match_fn)
    (pas newpas pas' : array_strings) (e : retcode) :
  incr_case A order_func pas newpas = Some (e, pas') -> e <> PBSE_INTERNAL.
Proof.
  unfold incr_case.
  destruct (chk_dup_acl pas newpas) as [[|]|]; cbn [mbind option_bind];
    [by intros [= <- <-]| |done].
  destruct (grow_buf A pas (ulong (as_next newpas))) as [[e1|pas1]|] eqn:Hg;
    cbn [mbind option_bind]; [| |done].
  - intros [= <- <-]. unfold grow_buf in Hg.
    destruct (_ <? _); [|done]. destruct (realloc_buf A); [|by injection Hg as <-].
    destruct (each_slot _ _ _ _ _); done.
  - unfold grow_ptrs. destruct (_ <? _).
    + destruct (realloc_pas A); [|by intros [= <- <-]].
      destruct (insert_all _ _ _ _ _); [|done]. by intros [= <- <-].
    + destruct (insert_all _ _ _ _ _); [|done]. by intros [= <- <-].
Qed.

Lemma grow_buf_ok (A : allocator) (l : list (list byte))
    (pas : array_strings) (nsize : Z) :
  holds l pas -> 0 <= nsize -> is_Some (realloc_buf A) ->
  as_bufsize pas + 2 * nsize < 2 ^ 31 ->
  exists pas1, grow_buf A pas nsize = Some (Next pas1) /\
               holds l pas1 /\ as_next pas1 + nsize <= as_bufsize pas1.
Proof.
  intros Hh Hn [fresh Hfresh] Hbuf. unfold grow_buf.
  pose proof Hh as [Hnl Hu Hnp Hnx Hbs [rest Hb] [slots Hstr] [Hi1 Hi2]].
  assert (0 <= as_next pas <= as_bufsize pas) as Hused.
  { rewrite Hnx, Hbs, Hb, length_app. lia. }
  rewrite (int_small (as_next pas)) by lia.
  rewrite (int_small (as_bufsize pas - as_next pas)) by lia.
  rewrite (ulong_small (as_bufsize pas - as_next pas)) by lia.
  destruct (Z.ltb_spec (as_bufsize pas - as_next pas) nsize).
  - rewrite Hfresh. rewrite each_slot_id_Some.
    2:{ lia. }
    2:{ rewrite Hu, Hstr. lengths. lia. }
    2:{ lia. }
    cbn [mbind option_bind].
    rewrite (ulong_small (as_bufsize pas + 2 * nsize)) by lia.
    rewrite (int_small (as_bufsize pas + 2 * nsize)) by lia.
    eexists. split; [done|].
    destruct (grant_grows (buf_of pas) fresh (as_bufsize pas + 2 * nsize))
      as [more Hmore]; [lia|].
    split; [|cbn; lia].
    constructor; cbn [as_usedptr as_npointers as_next as_bufsize as_buf
                      as_string buf_of default]; try done.
    + unfold id. rewrite grant_length. lia.
    + unfold id. rewrite Hmore, Hb. exists (rest ++ more).
      by rewrite <-app_assoc.
    + by eexists.
  - exists pas. split; [done|]. split; [done|lia].
Qed.

Lemma grow_ptrs_ok (A : allocator) (l : list (list byte))
    (pas : array_strings) (n : nat) :
  holds l pas -> realloc_pas A = true ->
  3 * Z.of_nat (length l + n) < 2 ^ 31 ->
  exists pas2, grow_ptrs A pas (Z.of_nat n) = Next pas2 /\
               holds l pas2 /\
               as_next pas2 = as_next pas /\ as_bufsize pas2 = as_bufsize pas /\
               (length l + n <= length (as_string pas2))%nat.
Proof.
  intros Hh Hrp Hslots. unfold grow_ptrs.
  pose proof Hh as [Hnl Hu Hnp Hnx Hbs [rest Hb] [slots Hstr] [Hi1 Hi2]].
  rewrite Hu. rewrite int_small by lia.
  destruct (Z.ltb_spec (as_npointers pas)
              (Z.of_nat (length l) + Z.of_nat n)) as [Hlt|Hge].
  - rewrite Hrp. rewrite int_small by lia.
    set (j := Z.of_nat (length l) + Z.of_nat n) in *.
    assert (j <= Z.quot (3 * j) 2 < 2 ^ 31) as Hj.
    { rewrite Z.quot_div_nonneg by lia.
      split; [apply Z.div_le_lower_bound; lia|].
      apply Z.div_lt_upper_bound; lia. }
    eexists. split; [done|]. split; [|split; [done|split; [done|]]].
    + constructor; cbn [as_usedptr as_npointers as_next as_bufsize as_buf
                        as_string buf_of default]; try done.
      * rewrite length_take, length_app, length_replicate. lia.
      * by exists rest.
      * rewrite take_app_ge by lia. rewrite Hstr, <-app_assoc. by eexists.
      * lia.
    + cbn [as_string]. rewrite length_take, length_app, length_replicate.
      lia.
  - exists pas. split; [done|]. split; [done|]. split; [done|].
    split; [done|]. rewrite Hnp in Hge. lia.
Qed.

(** ** Add with an order function that returns on the strings it is given *)

Section returns.
Variable P : list byte -> list byte -> Prop.
Variable order_func : match_fn.
Hypothesis Hret : forall m1 p1 m2 p2 s1 s2,
  cstr m1 p1 = Some s1 -> cstr m2 p2 = Some s2 -> P s1 s2 ->
  is_Some (order_func m1 p1 m2 p2).

(** The search for the place of a new string ends at a slot that is used
    or at the first one that is not. *)
Lemma find_place_returns (l : list (list byte)) (pas : array_strings)
    (mnew : block) (pnew : Z) (s : list byte) :
  holds l pas -> cstr mnew pnew = Some s -> (forall e, e ∈ l -> P e s) ->
  forall (fuel k : nat),
    (length l - k <= fuel)%nat -> (k <= length l)%nat ->
    exists j : nat,
      find_place fuel order_func pas mnew pnew (Z.of_nat k)
      = Some (Z.of_nat j) /\
      (k <= j <= length l)%nat.
Proof.
  intros Hh Hs HP.
  induction fuel as [|fuel IH]; intros k Hf Hk; cbn [find_place];
    rewrite (holds_usedptr _ _ Hh).
  - destruct (Z.ltb_spec (Z.of_nat k) (Z.of_nat (length l))); [lia|].
    exists k. split; [done|lia].
  - destruct (Z.ltb_spec (Z.of_nat k) (Z.of_nat (length l))) as [Hlt|Hge].
    + destruct (lookup_lt_is_Some_2 l k) as [e He]; [lia|].
      destruct (holds_read _ _ _ _ Hh He) as [Hslot Hstr].
      rewrite Hslot. cbn [mbind option_bind].
      assert (e ∈ l) as Hel by (by eapply list_elem_of_lookup_2).
      destruct (Hret _ _ _ _ e s Hstr Hs (HP e Hel)) as [d ->].
      cbn [mbind option_bind].
      destruct (0 <? d).
      * exists k. split; [done|lia].
      * replace (Z.of_nat k + 1) with (Z.of_nat (S k)) by lia.
        destruct (IH (S k)) as (j & Hj & Hrange); [lia|lia|].
        exists j. split; [done|lia].
    + exists k. split; [done|lia].
Qed.

Lemma insert_entry_returns (l ln : list (list byte))
    (pas newpas : array_strings) (i : nat) (s : list byte) :
  holds l pas -> reads ln newpas -> ln !! i = Some s ->
  (forall e, e ∈ l -> P e s) ->
  as_next pas + Z.of_nat (length s) + 1 <= as_bufsize pas ->
  (length l < length (as_string pas))%nat ->
  exists pas' (j : nat),
    insert_entry order_func pas newpas (Z.of_nat i) = Some pas' /\
    (j <= length l)%nat /\
    holds (take j l ++ s :: drop j l) pas' /\
    as_bufsize pas' = as_bufsize pas /\
    length (as_string pas') = length (as_string pas).
Proof.
  intros Hh [_ Hr] Hi HP Hroom Hslots.
  destruct (Hr _ _ Hi) as (pnew & Hslot & Hstr).
  unfold insert_entry. rewrite Hslot. cbn [mbind option_bind].
  destruct (find_place_returns l pas (buf_of newpas) pnew s Hh Hstr HP
              (Z.to_nat (as_usedptr pas)) 0) as (j & Hj & Hrange).
  { rewrite (holds_usedptr _ _ Hh). lia. }
  { lia. }
  change (Z.of_nat 0) with 0 in Hj. rewrite Hj. cbn [mbind option_bind].
  rewrite (strlen_Some _ _ _ Hstr), Hstr. cbn [mbind option_bind].
  destruct (put_entry_spec l pas j s Hh) as (pas' & Hput & Hh' & Hsz);
    [lia|by eapply cstr_nonul|done|done|].
  exists pas', j. split; [done|]. split; [lia|]. by split.
Qed.

(** The loop of Add puts every string of the operand into the list. *)
Lemma insert_all_returns (ln : list (list byte)) (newpas : array_strings)
    (fuel : nat) (l : list (list byte)) (pas : array_strings) (i : nat) :
  reads ln newpas -> holds l pas ->
  ~ duplicate l (drop i ln) ->
  (forall a b, a ∈ l ++ drop i ln -> b ∈ drop i ln -> a <> b -> P a b) ->
  as_next pas + Z.of_nat (length (packed (drop i ln))) <= as_bufsize pas ->
  (length l + (length ln - i) <= length (as_string pas))%nat ->
  (length ln - i <= fuel)%nat -> (i <= length ln)%nat ->
  exists pas' l',
    insert_all fuel order_func pas newpas (Z.of_nat i) = Some pas' /\
    holds l' pas' /\ l' ≡ₚ l ++ drop i ln /\ sublist l l'.
Proof.
  intros Hr. revert l pas i.
  induction fuel as [|fuel IH];
    intros l pas i Hh Hnd HP Hroom Hslots Hfuel Hi.
  - exists pas, l. simpl. destruct Hr as [-> _].
    destruct (Z.ltb_spec (Z.of_nat i) (Z.of_nat (length ln))); [lia|].
    rewrite drop_ge by lia. by rewrite app_nil_r.
  - simpl. pose proof Hr as [Hu _]. rewrite Hu.
    destruct (Z.ltb_spec (Z.of_nat i) (Z.of_nat (length ln))) as [Hlt|Hge].
    + destruct (lookup_lt_is_Some_2 ln i) as [s Hs]; [lia|].
      rewrite (drop_S _ _ _ Hs) in Hroom, Hnd, HP.
      rewrite packed_cons, length_app in Hroom. simpl in Hroom.
      assert (s ∉ l) as Hsl.
      { intros Hin. apply Hnd. right. exists s. set_solver. }
      destruct (insert_entry_returns l ln pas newpas i s)
        as (pas1 & j & -> & Hj & Hh1 & Hbs1 & Hlen1); try done; [|lia|lia|].
      { intros e He. apply HP; [set_solver|set_solver|by intros ->]. }
      cbn [mbind option_bind].
      replace (Z.of_nat i + 1) with (Z.of_nat (S i)) by lia.
      destruct (IH (take j l ++ s :: drop j l) pas1 (S i))
        as (pas' & l' & -> & Hh' & Hperm & Hsub); try done.
      * intros [Hd|(x & Hx & Hx')].
        -- apply Hnd. left. intros Hn. apply Hd.
           by apply NoDup_cons in Hn as [_ ?].
        -- rewrite insert_middle_perm in Hx'.
           apply elem_of_cons in Hx' as [->|Hx'].
           ++ apply Hnd. left. intros Hn. by apply NoDup_cons in Hn as [? _].
           ++ apply Hnd. right. exists x. set_solver.
      * intros a b Ha Hb. apply HP; [|set_solver].
        rewrite insert_middle_perm in Ha. set_solver.
      * rewrite (holds_next _ _ Hh1), Hbs1.
        rewrite (holds_next _ _ Hh) in Hroom.
        pose proof (f_equal (fun x => length (packed x)) (take_drop j l)) as E.
        simpl in E. rewrite packed_app, length_app in E.
        lengths. lia.
      * rewrite Hlen1. lengths. rewrite length_take. lia.
      * lia.
      * lia.
      * exists pas', l'. split; [done|]. split; [done|]. split.
        -- rewrite Hperm, insert_middle_perm, (drop_S _ _ _ Hs).
           by rewrite <-Permutation_middle.
        -- etrans; [apply insert_middle_sublist|done].
    + exists pas, l. rewrite drop_ge by lia. by rewrite app_nil_r.
Qed.

(** An Add without a duplicate that is granted its memory returns 0 and
    leaves an array that holds the old strings in their order and the new
    ones among them. *)
Lemma incr_case_returns (A : allocator) (l ln : list (list byte))
    (pas newpas : array_strings) :
  holds l pas -> reads ln newpas ->
  Z.of_nat (length (packed ln)) <= as_next newpas < 2 ^ 31 ->
  ~ duplicate l ln -> grants_add A ->
  (forall a b, a ∈ l ++ ln -> b ∈ ln -> a <> b -> P a b) ->
  as_bufsize pas + 2 * as_next newpas < 2 ^ 31 ->
  3 * Z.of_nat (length l + length ln) < 2 ^ 31 ->
  exists pas' l',
    incr_case A order_func pas newpas = Some (PBSE_NONE, pas') /\
    holds l' pas' /\ l' ≡ₚ l ++ ln /\ sublist l l'.
Proof.
  intros Hh Hr Hnext Hnodup [Hrb Hrp] HP Hbuf Hslots.
  unfold incr_case.
  destruct (chk_dup_acl_spec l ln pas newpas (holds_reads _ _ Hh) Hr)
    as (b & -> & Ht & _).
  destruct b; [by destruct Hnodup; apply Ht|]. cbn [mbind option_bind].
  rewrite (ulong_small (as_next newpas)) by lia.
  destruct (grow_buf_ok A l pas (as_next newpas) Hh)
    as (pas1 & -> & Hh1 & Hroom); [lia|done|done|].
  cbn [mbind option_bind].
  pose proof Hr as [Hun _]. rewrite Hun.
  destruct (grow_ptrs_ok A l pas1 (length ln) Hh1 Hrp Hslots)
    as (pas2 & -> & Hh2 & Hnx2 & Hbs2 & Hslots2).
  destruct (insert_all_returns ln newpas (Z.to_nat (Z.of_nat (length ln))) l
              pas2 0 Hr Hh2) as (pas' & l' & Hins & Hh' & Hperm & Hsub).
  { by rewrite drop_0. }
  { by rewrite drop_0. }
  { rewrite drop_0. lia. }
  { lia. }
  { lia. }
  { lia. }
  change (Z.of_nat 0) with 0 in Hins. rewrite Hins.
  cbn [mbind option_bind]. rewrite drop_0 in Hperm. by exists pas', l'.
Qed.
End returns.

(** ** Add, and the mutations that fail *)

(** C5, as amended: on an attribute that has its array of strings, or
    whose control structure can be allocated, an Add with a duplicate (two
    equal strings in the operand, or a string of the operand that is stored
    already) returns [PBSE_DUPLIST], and the attribute holds the list it
    held, an array that was there being left as it was.  An Add without a
    duplicate returns 0 when the allocator grants the room it asks for, the
    order function returns on the entries (on a string that is stored or in
    the operand, compared with a different string of the operand) and the
    sizes stay below 2^31: the array then holds the old strings in their
    order and the new ones among them. *)
Theorem add_duplicate_or_granted (E : extern) (A : allocator)
    (post : attribute -> attribute) (order_func : match_fn)
    (attr new : attribute) (newpas : array_strings)
    (l ln : list (list byte)) :
  attr_holds l attr -> gives ln new E newpas ->
  at_arst attr <> None \/ malloc_pas A = true ->
  (duplicate l ln ->
   exists attr',
     set_allacl E A post order_func attr new INCR = Some (PBSE_DUPLIST, attr') /\
     attr_holds l attr' /\ entries_of attr' = entries_of attr /\
     (at_arst attr <> None -> attr' = attr)) /\
  (~ duplicate l ln ->
   grants_add A -> returns_on_entries order_func l ln ->
   bufsize_of attr + 2 * as_next newpas < 2 ^ 31 ->
   3 * Z.of_nat (length l + length ln) < 2 ^ 31 ->
   exists pas' l',
     set_allacl E A post order_func attr new INCR =
     Some (PBSE_NONE, post (with_arst attr pas')) /\
     holds l' pas' /\ l' ≡ₚ l ++ ln /\ sublist l l').
Proof.
  intros Hattr Hnew Halloc.
  pose proof (gives_reads _ _ _ _ Hnew) as Hr.
  unfold set_allacl.
  destruct (Z.eqb_spec (Z.land (at_flags new) (ATR_VFLAG_SET E)) 0) as [Hz|_].
  { by destruct Hnew. }
  rewrite (gives_arst _ _ _ _ Hnew).
  destruct (make_arst_holds A l attr newpas Hattr (gives_npointers _ _ _ _ Hnew)
              Halloc) as (pas & -> & Hh & Hbs & Hsame).
  split.
  - intros Hdup.
    rewrite (incr_case_duplicate A order_func l ln pas newpas
               (holds_reads _ _ Hh) Hr Hdup).
    cbn [mbind option_bind]. eexists. split; [done|].
    split; [done|]. split.
    + rewrite (holds_entries_of l attr Hattr).
      by apply (holds_entries_of l {| at_flags := at_flags attr;
                                      at_arst := Some pas |}).
    + intros Hsome. destruct attr as [f a]. cbn in *.
      by rewrite (Hsame Hsome).
  - intros Hnodup Hgrants Hord Hbuf Hslots.
    destruct (incr_case_returns
                (fun a b => a ∈ l ++ ln /\ b ∈ ln /\ a <> b) order_func)
      with (A := A) (l := l) (ln := ln) (pas := pas) (newpas := newpas)
      as (pas' & l' & -> & Hh' & Hperm & Hsub);
      [|done|done|exact (gives_next _ _ _ _ Hnew)|done|done|done|lia|done|].
    { intros m1 p1 m2 p2 s1 s2 H1 H2 (Ha & Hb & Hab). by eapply Hord. }
    cbn [mbind option_bind]. by exists pas', l'.
Qed.

(** The statement C5 amends fails when the allocator refuses the room for
    the new string: the Add has no duplicate and returns [PBSE_SYSTEM]. *)
Lemma add_fails_without_memory :
  ~ duplicate [bytes "x.org"] [bytes "a.com"] /\
  set_allacl example_extern refusing id host_order (attr_of ["x.org"])
    (attr_of ["a.com"]) INCR
  = Some (PBSE_SYSTEM, attr_of ["x.org"]).
Proof.
  split; [|reflexivity].
  intros [Hd|(s & H1 & H2)].
  - apply Hd. repeat constructor; set_solver.
  - apply list_elem_of_singleton in H1, H2. by subst.
Qed.

(** The entries of an attribute whose array has no used slot. *)
Lemma entries_of_unused (f : Z) (pas : array_strings) :
  as_usedptr pas = 0 ->
  entries_of {| at_flags := f; at_arst := Some pas |} = [].
Proof. intros H. unfold entries_of, strings_of. cbn. by rewrite H. Qed.

Lemma entries_of_reads (f : Z) (l : list (list byte)) (pas : array_strings) :
  reads l pas ->
  entries_of {| at_flags := f; at_arst := Some pas |} = Some <$> l.
Proof. apply reads_strings_of. Qed.

(** C1, as amended: a mutation that returns an error leaves the entries of
    the attribute as they were when it is an Add, a Remove or an operator
    the function does not know, and when the error is [PBSE_INTERNAL]; a
    Replace that returns [PBSE_SYSTEM] or [PBSE_DUPLIST] leaves the
    attribute with no entry. *)
Theorem failure_keeps_entries_unless_replace (E : extern) (A : allocator)
    (post : attribute -> attribute) (order_func : match_fn)
    (attr new attr' : attribute) (op : batch_op) (e : retcode)
    (l : list (list byte)) :
  attr_holds l attr -> operand_sized new ->
  set_allacl E A post order_func attr new op = Some (e, attr') ->
  e <> PBSE_NONE ->
  (op <> SET \/ e = PBSE_INTERNAL -> entries_of attr' = Some <$> l) /\
  (op = SET -> e <> PBSE_INTERNAL -> entries_of attr' = []).
Proof.
  intros Hattr Hnew. unfold set_allacl.
  destruct (Z.land (at_flags new) (ATR_VFLAG_SET E) =? 0); [done|].
  destruct (at_arst new) as [newpas|] eqn:Hnp.
  2:{ intros [= <- <-] _. split; [intros _; by apply holds_entries_of|done]. }
  destruct (Hnew newpas Hnp) as [Hnext Hnptr].
  destruct (make_arst A attr newpas) as [pas|] eqn:Hmade.
  2:{ intros [= <- <-] _. unfold make_arst, attr_holds in *.
      destruct (at_arst attr) eqn:Ha; [done|]. subst l.
      unfold entries_of. by rewrite Ha. }
  assert (holds l pas) as Hh.
  { destruct (decide (at_arst attr = None)) as [Hnone|Hsome].
    - unfold make_arst, attr_holds in *. rewrite Hnone in *. subst l.
      destruct (malloc_pas A); [|done]. injection Hmade as <-.
      by apply holds_fresh.
    - destruct (make_arst_holds A l attr newpas Hattr Hnptr (or_introl Hsome))
        as (pas0 & Hm & Hh & _). congruence. }
  assert (forall pas1 pas2,
            incr_case A order_func pas1 newpas = Some (e, pas2) ->
            e <> PBSE_NONE ->
            match (e, pas2) with
            | (PBSE_NONE, pas') =>
                Some (PBSE_NONE, post {| at_flags := at_flags attr;
                                         at_arst := Some pas' |})
            | (e, pas') => Some (e, {| at_flags := at_flags attr;
                                       at_arst := Some pas' |})
            end = Some (e, attr') ->
            attr' = {| at_flags := at_flags attr; at_arst := Some pas2 |})
    as Hput.
  { intros pas1 pas2 _ He. destruct e; [done|by intros [= <-]..]. }
  destruct op; cbn [mbind option_bind].
  - (* SET *)
    destruct (set_case A pas newpas) as [f|] eqn:Hset; [|done].
    apply set_case_usedptr in Hset. cbn [mbind option_bind].
    destruct f as [[e1 pas1]|pas1].
    + destruct Hset as [Hu Hint].
      destruct e1; [by intros [= <- <-]|done|..];
        intros [= <- <-] _; (split; [by intros [?|?]|]); intros _ _;
        by apply entries_of_unused.
    + destruct (incr_case A order_func pas1 newpas) as [[e2 pas2]|] eqn:Hincr;
        [|done].
      cbn [mbind option_bind]. intros Hret He.
      assert (e2 = e) as ->.
      { destruct e2; by injection Hret as <-. }
      rewrite (Hput _ _ Hincr He Hret).
      pose proof (incr_case_retcode _ _ _ _ _ _ Hincr) as Hint.
      destruct (incr_case_failure A order_func [] pas1 newpas pas2 e Hnext
                  Hincr He) as [Hu _].
      split; [by intros [?|?]|]. intros _ _.
      apply entries_of_unused. lia.
  - (* UNSET *)
    intros [= <- <-] _. split; [|done]. intros _.
    by apply entries_of_reads, holds_reads.
  - (* INCR *)
    destruct (incr_case A order_func pas newpas) as [[e2 pas2]|] eqn:Hincr;
      [|done].
    cbn [mbind option_bind]. intros Hret He.
    assert (e2 = e) as ->.
    { destruct e2; by injection Hret as <-. }
    rewrite (Hput _ _ Hincr He Hret).
    destruct (incr_case_failure A order_func l pas newpas pas2 e Hnext
                Hincr He) as [_ Hreads].
    split; [|done]. intros _. by apply entries_of_reads, Hreads.
  - (* DECR *)
    destruct (remove_all _ _ _ _); [|done].
    cbn [mbind option_bind]. by intros [= <- <-].
  - intros [= <- <-] _. split; [|done]. intros _.
    by apply entries_of_reads, holds_reads.
  - intros [= <- <-] _. split; [|done]. intros _.
    by apply entries_of_reads, holds_reads.
  - intros [= <- <-] _. split; [|done]. intros _.
    by apply entries_of_reads, holds_reads.
  - intros [= <- <-] _. split; [|done]. intros _.
    by apply entries_of_reads, holds_reads.
  - intros [= <- <-] _. split; [|done]. intros _.
    by apply entries_of_reads, holds_reads.
  - intros [= <- <-] _. split; [|done]. intros _.
    by apply entries_of_reads, holds_reads.
  - intros [= <- <-] _. split; [|done]. intros _.
    by apply entries_of_reads, holds_reads.
Qed.

(** ** The order functions *)

(** Stepping over the sign of a string that is not empty leaves a string
    whose last byte, or else the sign before it, can be read. *)
Lemma skip_sign_cstr (m : block) (p : Z) (s : list byte) :
  cstr m p = Some s -> s <> [] ->
  exists b t, skip_sign m p = Some b /\ cstr m b = Some t /\
              is_Some (load m (b + Z.of_nat (length t) - 1)).
Proof.
  intros Hc Hne. unfold skip_sign. rewrite (cstr_load_head _ _ _ Hc).
  destruct s as [|c s]; [done|]. cbn [hd mbind option_bind].
  assert (is_Some (load m (p + Z.of_nat (length (c :: s)) - 1))) as Hlast.
  { destruct (lookup_lt_is_Some_2 (c :: s) (length s)) as [x Hx];
      [simpl; lia|].
    exists x. rewrite <-(cstr_load_char m p (c :: s) (length s) x Hc Hx).
    f_equal. simpl. lia. }
  destruct (Byte.eqb c ch_plus || Byte.eqb c ch_minus).
  - exists (p + 1), s. split; [done|]. split; [by eapply cstr_tail|].
    replace (p + 1 + Z.of_nat (length s) - 1)
      with (p + Z.of_nat (length (c :: s)) - 1); [done|simpl; lia].
  - by exists p, (c :: s).
Qed.

Lemma host_order_loop_returns (fuel : nat) (m1 : block) (b1 : Z)
    (m2 : block) (b2 : Z) (t1 t2 : list byte) (q1 q2 : Z) :
  cstr m1 b1 = Some t1 -> cstr m2 b2 = Some t2 ->
  is_Some (load m1 q1) -> is_Some (load m2 q2) ->
  q1 < b1 + Z.of_nat (length t1) -> q2 < b2 + Z.of_nat (length t2) ->
  (Z.to_nat (q1 - b1) < fuel)%nat ->
  is_Some (host_order_loop fuel m1 b1 m2 b2 q1 q2).
Proof.
  intros Hc1 Hc2. revert q1 q2.
  induction fuel as [|fuel IH]; intros q1 q2 [c1 H1] [c2 H2] Hq1 Hq2 Hf;
    [lia|].
  cbn [host_order_loop]. rewrite H1, H2. cbn [mbind option_bind].
  destruct (Z.ltb_spec b1 q1), (Z.ltb_spec b2 q2); cbn [andb];
    try (repeat case_match; done).
  destruct (negb _); [done|].
  assert (forall m b t q, cstr m b = Some t -> b < q ->
            q < b + Z.of_nat (length t) -> is_Some (load m (q - 1))) as Hin.
  { intros m b t q Hc Hb Hq.
    destruct (lookup_lt_is_Some_2 t (Z.to_nat (q - 1 - b))) as [x Hx]; [lia|].
    exists x. rewrite <-(cstr_load_char m b t _ x Hc Hx). f_equal. lia. }
  apply IH; [by eapply Hin|by eapply Hin|lia..].
Qed.

(** [host_order] returns on every two strings that are not empty. *)
Lemma host_order_returns : returns_on_strings host_order.
Proof.
  intros m1 p1 m2 p2 s1 s2 Hc1 Hc2 Hn1 Hn2. unfold host_order.
  destruct (skip_sign_cstr m1 p1 s1 Hc1 Hn1) as (b1 & t1 & -> & Ht1 & Hl1).
  destruct (skip_sign_cstr m2 p2 s2 Hc2 Hn2) as (b2 & t2 & -> & Ht2 & Hl2).
  cbn [mbind option_bind].
  rewrite (strlen_Some _ _ _ Ht1), (strlen_Some _ _ _ Ht2).
  cbn [mbind option_bind].
  eapply host_order_loop_returns; [done..|lia|lia|lia].
Qed.

(** [group_order] returns on every two strings that are not empty. *)
Lemma group_order_returns : returns_on_strings group_order.
Proof.
  intros m1 p1 m2 p2 s1 s2 Hc1 Hc2 Hn1 Hn2. unfold group_order.
  destruct (skip_sign_cstr m1 p1 s1 Hc1 Hn1) as (b1 & t1 & -> & Ht1 & _).
  destruct (skip_sign_cstr m2 p2 s2 Hc2 Hn2) as (b2 & t2 & -> & Ht2 & _).
  cbn [mbind option_bind]. rewrite (strcmp_cstr _ _ _ _ _ _ Ht1 Ht2). done.
Qed.

(** Stepping over the sign leaves the pointer at the entry behind its
    sign. *)
Lemma skip_sign_strip (m : block) (p : Z) (e : list byte) :
  cstr m p = Some e ->
  exists b, skip_sign m p = Some b /\ cstr m b = Some (strip_sign e).
Proof.
  intros Hc. unfold skip_sign. rewrite (cstr_load_head _ _ _ Hc).
  cbn [mbind option_bind]. destruct e as [|c e]; cbn [hd strip_sign].
  - by exists p.
  - destruct (Byte.eqb c ch_plus || Byte.eqb c ch_minus).
    + exists (p + 1). split; [done|]. by eapply cstr_tail.
    + by exists p.
Qed.

Lemma host_order_loop_same_wildcard (r : list byte) (i fuel : nat)
    (m1 : block) (b1 : Z) (m2 : block) (b2 : Z) :
  cstr m1 b1 = Some (ch_star :: r) -> cstr m2 b2 = Some (ch_star :: r) ->
  (i <= length r)%nat -> (i < fuel)%nat ->
  host_order_loop fuel m1 b1 m2 b2 (b1 + Z.of_nat i) (b2 + Z.of_nat i)
  = Some 1.
Proof.
  intros H1 H2. revert fuel.
  induction i as [|i IH]; intros fuel Hi Hf;
    (destruct fuel as [|fuel]; [lia|]); cbn [host_order_loop].
  - rewrite (cstr_load_char _ _ _ 0 ch_star H1 eq_refl),
      (cstr_load_char _ _ _ 0 ch_star H2 eq_refl).
    cbn [mbind option_bind]. change (Z.of_nat 0) with 0.
    rewrite !Z.add_0_r, !Z.ltb_irrefl, !Z.eqb_refl. done.
  - destruct (lookup_lt_is_Some_2 r i) as [c Hc]; [lia|].
    rewrite (cstr_load_char _ _ _ (S i) c H1 Hc),
      (cstr_load_char _ _ _ (S i) c H2 Hc).
    cbn [mbind option_bind]. rewrite Z.sub_diag. cbn [Z.eqb negb].
    destruct (Z.ltb_spec b1 (b1 + Z.of_nat (S i))); [|lia].
    destruct (Z.ltb_spec b2 (b2 + Z.of_nat (S i))); [|lia].
    cbn [andb].
    replace (b1 + Z.of_nat (S i) - 1) with (b1 + Z.of_nat i) by lia.
    replace (b2 + Z.of_nat (S i) - 1) with (b2 + Z.of_nat i) by lia.
    apply IH; lia.
Qed.

(** On two entries that are the same behind their signs and start there
    with '*', [host_order] is 1, in whichever order they are given. *)
Lemma host_order_same_wildcard (m1 : block) (p1 : Z) (m2 : block) (p2 : Z)
    (e1 e2 r : list byte) :
  cstr m1 p1 = Some e1 -> cstr m2 p2 = Some e2 ->
  strip_sign e1 = ch_star :: r -> strip_sign e2 = ch_star :: r ->
  host_order m1 p1 m2 p2 = Some 1.
Proof.
  intros H1 H2 Hs1 Hs2. unfold host_order.
  destruct (skip_sign_strip _ _ _ H1) as (b1 & -> & Hb1).
  destruct (skip_sign_strip _ _ _ H2) as (b2 & -> & Hb2).
  rewrite Hs1 in Hb1. rewrite Hs2 in Hb2. cbn [mbind option_bind].
  rewrite (strlen_Some _ _ _ Hb1), (strlen_Some _ _ _ Hb2).
  cbn [mbind option_bind length].
  replace (b1 + Z.of_nat (S (length r)) - 1)
    with (b1 + Z.of_nat (length r)) by lia.
  replace (b2 + Z.of_nat (S (length r)) - 1)
    with (b2 + Z.of_nat (length r)) by lia.
  apply (host_order_loop_same_wildcard r (length r)); [done..|lia].
Qed.

(** ** Arrays that hold given strings *)

Lemma packed_length_ge (l : list (list byte)) :
  (length l <= length (packed l))%nat.
Proof.
  induction l as [|s l IH]; [done|].
  rewrite packed_cons, !length_app. simpl. lia.
Qed.

(** The array built from the strings of [l] holds them. *)
Lemma holds_arst_of (l : list (list byte)) :
  Forall (fun s => NUL ∉ s) l -> Z.of_nat (length (packed l)) < 2 ^ 31 ->
  holds l (arst_of l).
Proof.
  intros Hn Hl. pose proof (packed_length_ge l).
  constructor; cbn; try done.
  - by rewrite length_fmap, offsets_length.
  - exists []. by rewrite app_nil_r.
  - exists []. by rewrite app_nil_r.
  - lia.
Qed.

(** The attribute built from the strings of [l] is an operand that gives
    them. *)
Lemma gives_attr_of (l : list string) :
  Forall (fun s => NUL ∉ s) (bytes <$> l) ->
  Z.of_nat (length (packed (bytes <$> l))) < 2 ^ 31 ->
  gives (bytes <$> l) (attr_of l) example_extern (arst_of (bytes <$> l)).
Proof.
  intros Hn Hl. pose proof (holds_arst_of _ Hn Hl) as Hh.
  pose proof (packed_length_ge (bytes <$> l)).
  constructor; cbn; try done.
  - apply (holds_reads _ _ Hh).
  - lia.
Qed.

Lemma attr_holds_attr_of (l : list string) :
  Forall (fun s => NUL ∉ s) (bytes <$> l) ->
  Z.of_nat (length (packed (bytes <$> l))) < 2 ^ 31 ->
  attr_holds (bytes <$> l) (attr_of l).
Proof. apply holds_arst_of. Qed.

Lemma operand_sized_attr_of (l : list string) :
  Z.of_nat (length (packed (bytes <$> l))) < 2 ^ 31 ->
  operand_sized (attr_of l).
Proof.
  intros Hl newpas [= <-]. pose proof (packed_length_ge (bytes <$> l)).
  cbn. lia.
Qed.

(** Strings without a NUL byte, decided by evaluation. *)
Ltac no_nul :=
  match goal with
  | |- ?P => apply (bool_decide_unpack P); vm_compute; exact I
  end.

(** ** The mutations on given lists *)

(** The statement C1 amends fails on a Replace whose operand holds the
    same string twice: the entry that was stored is gone when the Replace
    returns [PBSE_DUPLIST]. *)
Lemma replace_with_duplicate_clears_entries :
  exists attr',
    set_allacl example_extern generous id host_order (attr_of ["x"])
      (attr_of ["a"; "a"]) SET = Some (PBSE_DUPLIST, attr') /\
    entries_of (attr_of ["x"]) = [Some (bytes "x")] /\
    entries_of attr' = [].
Proof. eexists. split; [vm_compute; reflexivity|]. by split. Qed.

Lemma failure_keeps_entries_unless_replace_witness :
  (INCR <> SET \/ PBSE_DUPLIST = PBSE_INTERNAL ->
   entries_of (attr_of ["x"]) = Some <$> (bytes <$> ["x"])) /\
  (INCR = SET -> PBSE_DUPLIST <> PBSE_INTERNAL ->
   entries_of (attr_of ["x"]) = []).
Proof.
  apply (failure_keeps_entries_unless_replace example_extern generous id
           host_order (attr_of ["x"]) (attr_of ["x"]) (attr_of ["x"]) INCR
           PBSE_DUPLIST (bytes <$> ["x"])).
  - apply attr_holds_attr_of; [no_nul|by vm_compute].
  - apply operand_sized_attr_of. by vm_compute.
  - reflexivity.
  - discriminate.
Defined.

Lemma remove_first_equal_entries_witness :
  (exists pas',
     set_allacl example_extern generous id host_order
       (attr_of ["a.com"; "b.org"; "a.net"]) (attr_of ["b.org"; "zz"]) DECR =
     Some (PBSE_NONE, id (with_arst (attr_of ["a.com"; "b.org"; "a.net"]) pas')) /\
     holds (remove_each (bytes <$> ["b.org"; "zz"])
              (bytes <$> ["a.com"; "b.org"; "a.net"])) pas') /\
  sublist (remove_each (bytes <$> ["b.org"; "zz"])
             (bytes <$> ["a.com"; "b.org"; "a.net"]))
    (bytes <$> ["a.com"; "b.org"; "a.net"]) /\
  (forall s l', s ∉ l' -> remove_first s l' = l') /\
  (forall s l1 l2, s ∉ l1 -> remove_first s (l1 ++ s :: l2) = l1 ++ l2).
Proof.
  apply (remove_first_equal_entries example_extern generous id host_order
           (attr_of ["a.com"; "b.org"; "a.net"]) (attr_of ["b.org"; "zz"])
           (arst_of (bytes <$> ["b.org"; "zz"]))).
  - apply attr_holds_attr_of; [no_nul|by vm_compute].
  - apply gives_attr_of; [no_nul|by vm_compute].
  - by left.
Defined.

(** ** Entries that differ in case or sign, and the order of the entries *)

(** C10: on the Host ACL that holds "host.example.com", the Add of
    "HOST.example.com" and the Add of "-host.example.com" return 0, the
    check for duplicates finding none.  Each leaves two entries that differ
    as strings, and [hacl_match], called as [acl_check] calls it with the
    entry behind its sign, gives the same answer at both entries for every
    candidate. *)
Theorem case_and_sign_variants_are_stored (other : string) :
  other = "HOST.example.com" \/ other = "-host.example.com" ->
  chk_dup_acl (arst_of [bytes "host.example.com"]) (arst_of [bytes other])
  = Some false /\
  exists pas' p0 p1,
    set_allacl example_extern generous id host_order
      (attr_of ["host.example.com"]) (attr_of [other]) INCR =
    Some (PBSE_NONE, with_arst (attr_of ["host.example.com"]) pas') /\
    strings_of pas' = [Some (bytes "host.example.com"); Some (bytes other)] /\
    bytes "host.example.com" <> bytes other /\
    slot pas' 0 = Some p0 /\ slot pas' 1 = Some p1 /\
    forall (mc : block) (can : Z),
      hacl_match mc can (buf_of pas')
        (p0 + Z.of_nat (length (bytes "host.example.com")
                        - length (strip_sign (bytes "host.example.com")))) =
      hacl_match mc can (buf_of pas')
        (p1 + Z.of_nat (length (bytes other)
                        - length (strip_sign (bytes other)))).
Proof.
  intros [->| ->]; (split; [reflexivity|]).
  - eexists _, _, _. split; [vm_compute; reflexivity|].
    split; [reflexivity|]. split; [done|].
    split; [reflexivity|]. split; [reflexivity|].
    intros mc can.
    apply (hacl_match_same_ci mc can _ _ _ _ (bytes "host.example.com")
             (bytes "HOST.example.com")); [reflexivity..|].
    repeat constructor.
  - eexists _, _, _. split; [vm_compute; reflexivity|].
    split; [reflexivity|]. split; [done|].
    split; [reflexivity|]. split; [reflexivity|].
    intros mc can.
    apply (hacl_match_same_ci mc can _ _ _ _ (bytes "host.example.com")
             (bytes "host.example.com")); [reflexivity..|].
    repeat constructor.
Qed.

Lemma case_and_sign_variants_are_stored_witness :
  chk_dup_acl (arst_of [bytes "host.example.com"])
    (arst_of [bytes "HOST.example.com"]) = Some false /\
  exists pas' p0 p1,
    set_allacl example_extern generous id host_order
      (attr_of ["host.example.com"]) (attr_of ["HOST.example.com"]) INCR =
    Some (PBSE_NONE, with_arst (attr_of ["host.example.com"]) pas') /\
    strings_of pas' = [Some (bytes "host.example.com");
                       Some (bytes "HOST.example.com")] /\
    bytes "host.example.com" <> bytes "HOST.example.com" /\
    slot pas' 0 = Some p0 /\ slot pas' 1 = Some p1 /\
    forall (mc : block) (can : Z),
      hacl_match mc can (buf_of pas')
        (p0 + Z.of_nat (length (bytes "host.example.com")
                        - length (strip_sign (bytes "host.example.com")))) =
      hacl_match mc can (buf_of pas')
        (p1 + Z.of_nat (length (bytes "HOST.example.com")
                        - length (strip_sign (bytes "HOST.example.com")))).
Proof.
  apply (case_and_sign_variants_are_stored "HOST.example.com"). by left.
Defined.

(** C2 fails in the code: the Add of "+*.example.com" to the Host ACL that
    holds "*.example.com" returns 0 and stores the new entry before the old
    one, and [host_order] is 1 on the two entries in the order in which
    they are stored, as it is in the other order. *)
Theorem host_entries_out_of_order :
  exists pas' p0 p1,
    set_allacl example_extern generous id host_order
      (attr_of ["*.example.com"]) (attr_of ["+*.example.com"]) INCR =
    Some (PBSE_NONE, with_arst (attr_of ["*.example.com"]) pas') /\
    strings_of pas' = [Some (bytes "+*.example.com");
                       Some (bytes "*.example.com")] /\
    slot pas' 0 = Some p0 /\ slot pas' 1 = Some p1 /\
    host_order (buf_of pas') p0 (buf_of pas') p1 = Some 1 /\
    host_order (buf_of pas') p1 (buf_of pas') p0 = Some 1.
Proof.
  eexists _, _, _. split; [vm_compute; reflexivity|].
  repeat split; reflexivity.
Qed.

(** On two strings with the same user part that ends at the end of the
    string, and not at an '@', [user_order] goes on behind the two
    terminators: it calls [host_order] on what follows them. *)
Lemma user_order_loop_past_end (u : list byte) (fuel : nat) (m1 : block)
    (s1 : Z) (m2 : block) (s2 : Z) :
  cstr m1 s1 = Some u -> cstr m2 s2 = Some u -> ch_at ∉ u ->
  (length u < fuel)%nat ->
  user_order_loop fuel m1 s1 m2 s2 =
  host_order m1 (s1 + Z.of_nat (length u) + 1)
    m2 (s2 + Z.of_nat (length u) + 1).
Proof.
  revert fuel s1 s2.
  induction u as [|c u IH]; intros fuel s1 s2 H1 H2 Hat Hf;
    (destruct fuel as [|fuel]; [simpl in Hf; lia|]); cbn [user_order_loop].
  - rewrite (cstr_load_head _ _ _ H1), (cstr_load_head _ _ _ H2).
    cbn [hd mbind option_bind length]. rewrite Z.sub_diag. cbn [Z.eqb negb].
    replace (Byte.eqb NUL ch_at || Byte.eqb NUL NUL) with true by done.
    by rewrite !Z.add_0_r.
  - rewrite (cstr_load_head _ _ _ H1), (cstr_load_head _ _ _ H2).
    cbn [hd mbind option_bind]. rewrite Z.sub_diag. cbn [Z.eqb negb].
    assert (c <> ch_at) as Hc by set_solver.
    assert (c <> NUL) as Hn.
    { apply cstr_nonul in H1. set_solver. }
    rewrite (byte_eqb_ne _ _ Hc), (byte_eqb_ne _ _ Hn). cbn [orb].
    rewrite (IH fuel (s1 + 1) (s2 + 1)).
    + f_equal; simpl length; lia.
    + by eapply cstr_tail.
    + by eapply cstr_tail.
    + set_solver.
    + simpl in Hf. lia.
Qed.

(** C7 fails in the code: on "bob" and "+bob", each in a block of its own
    size, [user_order] reads the byte behind the end of the block and does
    not return; in blocks that go on, its result follows the bytes behind
    the two strings, 1 for one pair of neighbours and -1 for another. *)
Theorem user_order_reads_behind_the_strings :
  cstr (lit "bob") 0 = Some (bytes "bob") /\
  cstr (lit "+bob") 0 = Some (bytes "+bob") /\
  user_order (lit "bob") 0 (lit "+bob") 0 = None /\
  load (lit "bob") (0 + Z.of_nat (length (bytes "bob")) + 1) = None /\
  user_order (packed [bytes "bob"; bytes "a"]) 0
    (packed [bytes "+bob"; bytes "b"]) 0 = Some 1 /\
  user_order (packed [bytes "bob"; bytes "b"]) 0
    (packed [bytes "+bob"; bytes "a"]) 0 = Some (-1) /\
  set_allacl example_extern generous id user_order (attr_of ["bob"])
    (attr_of ["+bob"]) INCR = None.
Proof. repeat split; reflexivity. Qed.

(** ** The user match *)

Lemma cstr_length (m : block) (p : Z) (s : list byte) :
  cstr m p = Some s -> (Z.to_nat p + length s < length m)%nat.
Proof.
  rewrite cstr_Some. intros (Hp & _ & rest & Hd).
  pose proof (f_equal length Hd) as Hl.
  rewrite length_drop, length_app in Hl. simpl in Hl. lia.
Qed.

Lemma cstr_head_nonul (m : block) (p : Z) (x : byte) (s : list byte) :
  cstr m p = Some (x :: s) -> Byte.eqb x NUL = false.
Proof.
  intros H. apply cstr_nonul in H. apply byte_eqb_ne. set_solver.
Qed.

Lemma user_match_loop_bytes (m : list byte) :
  forall (c : list byte) (fuel : nat) (mc : block) (can : Z) (mm : block)
         (master : Z),
    m <> [] -> cstr mc can = Some c -> cstr mm master = Some m ->
    (length m <= fuel)%nat ->
    (r ← user_match_loop fuel mc can mm master;
     match r with
     | Return v => Some v
     | Next (can, master) =>
         cm ← load mm master;
         if Byte.eqb cm NUL then
           cc ← load mc can;
           if Byte.eqb cc NUL || Byte.eqb cc ch_at then Some 0 else Some 1
         else
           cc ← load mc can;
           if negb (Byte.eqb cc ch_at) then Some 1
           else hacl_match mc (can + 1) mm (master + 1)
     end) = Some (user_match_bytes c m).
Proof.
  induction m as [|x m' IH]; intros c fuel mc can mm master Hne Hc Hm Hf;
    [done|].
  destruct fuel as [|fuel]; [simpl in Hf; lia|]. cbn [user_match_loop].
  rewrite (cstr_load_head _ _ _ Hm), (cstr_load_head _ _ _ Hc).
  cbn [hd mbind option_bind].
  pose proof (cstr_head_nonul _ _ _ _ Hm) as Hx.
  pose proof (cstr_tail _ _ _ _ Hm) as Hm'.
  destruct c as [|y c']; cbn [hd user_match_bytes].
  { rewrite Hx. done. }
  pose proof (cstr_tail _ _ _ _ Hc) as Hc'.
  destruct (Byte.eqb x y); cbn [negb]; [|done].
  rewrite (cstr_load_head _ _ _ Hm'). cbn [mbind option_bind].
  destruct m' as [|x' hm]; cbn [hd].
  - (* the master ends behind its first character *)
    replace (Byte.eqb NUL ch_at) with false by done.
    replace (Byte.eqb NUL NUL) with true by done.
    cbn [negb andb mbind option_bind].
    rewrite (cstr_load_head _ _ _ Hm'). cbn [hd mbind option_bind].
    replace (Byte.eqb NUL NUL) with true by done.
    rewrite (cstr_load_head _ _ _ Hc'). cbn [mbind option_bind].
    destruct c' as [|z hc]; cbn [hd]; [done|].
    rewrite (cstr_head_nonul _ _ _ _ Hc'). cbn [orb].
    by destruct (Byte.eqb z ch_at).
  - pose proof (cstr_head_nonul _ _ _ _ Hm') as Hx'. rewrite Hx'.
    destruct (Byte.eqb x' ch_at) eqn:Hat; cbn [negb andb].
    + cbn [mbind option_bind].
      rewrite (cstr_load_head _ _ _ Hm'). cbn [hd mbind option_bind].
      rewrite Hx'. rewrite (cstr_load_head _ _ _ Hc').
      cbn [mbind option_bind].
      destruct c' as [|z hc]; cbn [hd]; [done|].
      destruct (Byte.eqb z ch_at); cbn [negb]; [|done].
      pose proof (cstr_tail _ _ _ _ Hm') as Hm2.
      pose proof (cstr_tail _ _ _ _ Hc') as Hc2.
      by rewrite (hacl_match_rev _ _ _ _ _ _ Hc2 Hm2).
    + apply IH; [done|done|done|simpl in Hf |- *; lia].
Qed.

(** [user_match] on a master that is not empty is [user_match_bytes] on
    the contents of its strings. *)
Lemma user_match_bytes_spec (mc : block) (can : Z) (mm : block) (master : Z)
    (c m : list byte) :
  cstr mc can = Some c -> cstr mm master = Some m -> m <> [] ->
  user_match mc can mm master = Some (user_match_bytes c m).
Proof.
  intros Hc Hm Hne. unfold user_match.
  apply user_match_loop_bytes; [done..|].
  apply cstr_length in Hm. lia.
Qed.

Lemma hacl_match_bytes_amended (c m : list byte) :
  hacl_match_bytes c m = 0 <-> hacl_amended c m.
Proof.
  unfold hacl_match_bytes. by rewrite hacl_rev_match, hacl_amended_reverse.
Qed.

Lemma user_match_bytes_range (c m : list byte) :
  user_match_bytes c m = 0 \/ user_match_bytes c m = 1.
Proof.
  revert c. induction m as [|x m' IH]; intros c; [by right|].
  destruct c as [|y c']; [by right|]. cbn [user_match_bytes].
  destruct (Byte.eqb x y); [|by right].
  destruct m' as [|x' hm].
  - destruct c' as [|z hc]; [by left|].
    destruct (Byte.eqb z ch_at); first [by left|by right].
  - destruct (Byte.eqb x' ch_at); [|apply IH].
    destruct c' as [|z hc]; [by right|].
    destruct (Byte.eqb z ch_at); [apply hacl_rev_range|by right].
Qed.

Lemma user_match_bytes_matches (c m : list byte) :
  m <> [] -> user_match_bytes c m = 0 <-> user_matches c m.
Proof.
  revert c. induction m as [|x m' IH]; intros c Hne; [done|].
  destruct c as [|y c'].
  { split; [done|]. intros (x0 & u & _ & [[_ [?|[h ?]]]|(hm & hc & _ & ? & _)]);
      done. }
  cbn [user_match_bytes]. destruct (byte_eqb_spec x y) as [<-|Hxy].
  2:{ split; [done|].
      intros (x0 & u & _ & [[? [?|[h ?]]]|(hm & hc & ? & ? & _)]);
        simplify_eq. }
  destruct m' as [|x' hm].
  - (* a master of one character *)
    split.
    + intros H. exists x, []. split; [set_solver|]. left. split; [done|].
      destruct c' as [|z hc]; [by left|].
      destruct (byte_eqb_spec z ch_at) as [->|]; [|done].
      right. by exists hc.
    + intros (x0 & u & _ & [[? Hc]|(hm & hc & ? & _)]).
      * simplify_eq. destruct Hc as [?|[h ?]]; simplify_eq/=; done.
      * simplify_eq. by destruct u.
  - destruct (byte_eqb_spec x' ch_at) as [->|Hx'].
    + (* the host pattern starts behind the first character *)
      split.
      * intros H. destruct c' as [|z hc]; [done|].
        destruct (byte_eqb_spec z ch_at) as [->|]; [|done].
        exists x, []. split; [set_solver|]. right. exists hm, hc.
        split; [done|]. split; [done|]. by apply hacl_match_bytes_amended.
      * intros (x0 & u & Hu & [[? _]|(hm' & hc & ? & ? & Hh)]).
        -- simplify_eq. set_solver.
        -- destruct u as [|u0 u]; simplify_eq/=; [|set_solver].
           rewrite ?byte_eqb_refl. by apply hacl_match_bytes_amended.
    + rewrite IH by done. split.
      * intros (x0 & u & Hu & [[? Hc]|(hm' & hc & ? & ? & Hh)]).
        -- simplify_eq. exists x, (x0 :: u). split; [set_solver|]. left.
           split; [done|]. destruct Hc as [->|[h ->]]; [by left|].
           right. by exists h.
        -- simplify_eq. exists x, (x0 :: u). split; [set_solver|]. right.
           by exists hm', hc.
      * intros (x0 & u & Hu & [[? Hc]|(hm' & hc & ? & ? & Hh)]).
        -- simplify_eq. exists x', hm. split; [set_solver|]. left.
           split; [done|]. destruct Hc as [?|[h ?]]; simplify_eq;
             [by left|right; by exists h].
        -- destruct u as [|u0 u]; simplify_eq/=.
           exists u0, u. split; [set_solver|]. right. by exists hm', hc.
Qed.

(** [user_match] with a master that is not empty returns 0 or 1, and 0
    exactly when the candidate has the user name of the master, compared
    byte by byte, and, where the master names a host pattern behind '@',
    a host behind its own '@' that the pattern matches as in [hacl_match];
    a master without host accepts every host and a candidate without
    one. *)
Theorem user_match_user_and_host (mc : block) (can : Z) (mm : block)
    (master : Z) (c m : list byte) :
  cstr mc can = Some c -> cstr mm master = Some m -> m <> [] ->
  exists r, user_match mc can mm master = Some r /\
            (r = 0 \/ r = 1) /\ (r = 0 <-> user_matches c m).
Proof.
  intros Hc Hm Hne. exists (user_match_bytes c m).
  split; [by apply user_match_bytes_spec|].
  split; [apply user_match_bytes_range|by apply user_match_bytes_matches].
Qed.

Lemma user_match_user_and_host_witness :
  exists r, user_match (lit "alice@x.example.com") 0
              (lit "alice@*.example.com") 0 = Some r /\
            (r = 0 \/ r = 1) /\
            (r = 0 <-> user_matches (bytes "alice@x.example.com")
                                    (bytes "alice@*.example.com")).
Proof.
  apply (user_match_user_and_host (lit "alice@x.example.com") 0
           (lit "alice@*.example.com") 0); done.
Defined.

(** ** The decision over the list of the entries *)

(** The match function of a kind of ACL answers from the contents of its
    two strings; [user_match] needs one of the two not to be empty. *)
Lemma match_func_of_bytes (E : extern) (type : Z) (mn : block) (name : Z)
    (mm : block) (master : Z) (c m : list byte) :
  cstr mn name = Some c -> cstr mm master = Some m ->
  (acl_type_of E type = User -> c <> [] \/ m <> []) ->
  match_func_of E type mn name mm master =
  Some (match_bytes E (acl_type_of E type) c m).
Proof.
  intros Hc Hm Hu. unfold match_func_of, match_bytes.
  destruct (acl_type_of E type).
  - by apply hacl_match_rev.
  - destruct m as [|x m].
    + destruct c as [|y c]; [by destruct (Hu eq_refl)|].
      by rewrite (user_match_empty_master _ _ _ _ _ _ Hc Hm).
    + by apply user_match_bytes_spec.
  - unfold gacl_match, gacl_match_bytes. rewrite Hc, Hm.
    cbn [mbind option_bind]. by destruct (getgrouplist E c).
  - unfold sacl_match. by rewrite Hc, Hm.
  - by apply strcmp_cstr.
Qed.

Lemma acl_loop_scan (E : extern) (type : Z) (mn : block) (name : Z)
    (c : list byte) (l : list (list byte)) (pas : array_strings) :
  holds l pas -> cstr mn name = Some c ->
  (acl_type_of E type = User -> c <> []) ->
  forall (fuel i : nat) (d : Z),
    (i <= length l)%nat -> (length l - i <= fuel)%nat ->
    acl_loop fuel (match_func_of E type) mn name pas (Z.of_nat i) d =
    Some (scan (match_bytes E (acl_type_of E type) c) (drop i l) d).
Proof.
  intros Hh Hc Hu. induction fuel as [|fuel IH]; intros i d Hi Hf.
  - cbn [acl_loop]. rewrite (holds_usedptr _ _ Hh).
    destruct (Z.ltb_spec (Z.of_nat i) (Z.of_nat (length l))); [lia|].
    by rewrite drop_ge by lia.
  - destruct (decide (i = length l)) as [->|Hne].
    + cbn [acl_loop]. rewrite (holds_usedptr _ _ Hh), Z.ltb_irrefl.
      by rewrite drop_all.
    + destruct (lookup_lt_is_Some_2 l i) as [e He]; [lia|].
      destruct (holds_read _ _ _ _ Hh He) as [Hslot Hstr].
      assert (Z.of_nat i < as_usedptr pas) as Hlt.
      { rewrite (holds_usedptr _ _ Hh). lia. }
      rewrite (acl_loop_step _ _ _ _ _ _ _ _ _ Hlt Hslot Hstr).
      rewrite (match_func_of_bytes E type mn name _ _ c (strip_sign e) Hc
                 (strip_sign_cstr _ _ _ Hstr)).
      2:{ intros Ht. left. by apply Hu. }
      cbn [mbind option_bind]. rewrite (drop_S _ _ _ He). cbn [scan].
      destruct (_ =? 0); [done|].
      replace (Z.of_nat i + 1) with (Z.of_nat (S i)) by lia.
      apply IH; lia.
Qed.

(** [acl_check] on an attribute that is set and has entries is the scan
    of the list of the entries. *)
Lemma acl_check_scan (E : extern) (pattr : attribute) (mn : block) (name : Z)
    (type : Z) (l : list (list byte)) (c : list byte) :
  has_list E pattr l -> cstr mn name = Some c ->
  (acl_type_of E type = User -> c <> []) ->
  acl_check E pattr (Some (mn, name)) type =
  Some (scan (match_bytes E (acl_type_of E type) c) l (first_default E)).
Proof.
  intros (Hset & Hne & pas & Hpas & Hh) Hc Hu. unfold acl_check.
  rewrite Hpas.
  destruct (Z.eqb_spec (Z.land (at_flags pattr) (ATR_VFLAG_SET E)) 0);
    [done|].
  rewrite (holds_usedptr _ _ Hh).
  destruct (Z.eqb_spec (Z.of_nat (length l)) 0) as [Hz|_].
  { destruct l; [done|simpl in Hz; lia]. }
  cbn [orb]. rewrite Nat2Z.id.
  rewrite (acl_loop_scan E type mn name c l pas Hh Hc Hu (length l) 0);
    [|lia|lia].
  by rewrite drop_0.
Qed.

Lemma scan_first_match (f : list byte -> Z) (l1 l2 : list (list byte))
    (e : list byte) (d : Z) :
  Forall (fun e' => f (strip_sign e') <> 0) l1 -> f (strip_sign e) = 0 ->
  scan f (l1 ++ e :: l2) d = verdict e.
Proof.
  intros H He. revert d. induction H as [|e' l1 He' _ IH]; intros d; simpl.
  - by rewrite He.
  - destruct (Z.eqb_spec (f (strip_sign e')) 0); [done|]. apply IH.
Qed.

Lemma scan_no_match (f : list byte -> Z) (l : list (list byte)) (d : Z) :
  Forall (fun e => f (strip_sign e) <> 0) l ->
  scan f l d = final_default l d.
Proof.
  intros H. revert d. induction H as [|e l He _ IH]; intros d; simpl; [done|].
  destruct (Z.eqb_spec (f (strip_sign e)) 0); [done|]. apply IH.
Qed.

(** The first entry that matches decides: when the candidate matches the
    entry [e] and none of the entries before it, [acl_check] returns 0
    (deny) if [e] starts with '-' and 1 (allow) otherwise, whatever the
    entries behind [e] and the defaults set before it.  The candidate of a
    User ACL is not empty. *)
Theorem acl_check_first_match_decides (E : extern) (pattr : attribute)
    (mn : block) (name : Z) (type : Z) (l1 l2 : list (list byte))
    (e c : list byte) :
  has_list E pattr (l1 ++ e :: l2) -> cstr mn name = Some c ->
  (acl_type_of E type = User -> c <> []) ->
  Forall (fun e' => ~ matches E (acl_type_of E type) c e') l1 ->
  matches E (acl_type_of E type) c e ->
  acl_check E pattr (Some (mn, name)) type =
  Some (if bool_decide (hd NUL e = ch_minus) then 0 else 1).
Proof.
  intros Hl Hc Hu Hno He.
  rewrite (acl_check_scan E pattr mn name type _ c Hl Hc Hu).
  rewrite scan_first_match; [|done|done].
  f_equal. destruct e as [|x e]; [done|]. simpl.
  by destruct (byte_eqb_spec x ch_minus); case_bool_decide.
Qed.

(** When the candidate matches no entry, [acl_check] returns the default:
    1 behind a last bare sign "+", 0 behind a last bare sign "-", and
    without a bare sign 1 or 0 as [HOST_ACL_DEFAULT_ALL] is defined or
    not. *)
Theorem acl_check_no_match_default (E : extern) (pattr : attribute)
    (mn : block) (name : Z) (type : Z) (l : list (list byte))
    (c : list byte) :
  has_list E pattr l -> cstr mn name = Some c ->
  (acl_type_of E type = User -> c <> []) ->
  Forall (fun e => ~ matches E (acl_type_of E type) c e) l ->
  acl_check E pattr (Some (mn, name)) type =
  Some (final_default l (first_default E)) /\
  (forall l' d, final_default (l' ++ [[ch_plus]]) d = 1) /\
  (forall l' d, final_default (l' ++ [[ch_minus]]) d = 0) /\
  (forall l' e d, length e <> 1%nat ->
                  final_default (l' ++ [e]) d = final_default l' d).
Proof.
  intros Hl Hc Hu Hno.
  rewrite (acl_check_scan E pattr mn name type _ c Hl Hc Hu).
  rewrite scan_no_match by done. split; [done|].
  unfold final_default. split; [|split].
  - intros l' d. by rewrite foldl_snoc.
  - intros l' d. by rewrite foldl_snoc.
  - intros l' e d He. rewrite foldl_snoc. by destruct e as [|x [|y e]].
Qed.

(** Without entries (the attribute is not set, or it has no array of
    strings, or no string in it) [acl_check] allows every candidate when
    [HOST_ACL_DEFAULT_ALL] is defined.  When it is not, a Host ACL allows
    exactly the candidates that the name of the server's own host matches
    as a pattern of [hacl_match], and every other kind of ACL denies. *)
Theorem acl_check_without_entries (E : extern) (pattr : attribute)
    (mn : block) (name : Z) (type : Z) (c h : list byte) :
  no_entries E pattr -> cstr mn name = Some c ->
  cstr (server_host E) 0 = Some h ->
  exists r, acl_check E pattr (Some (mn, name)) type = Some r /\
            (r = 0 \/ r = 1) /\
            (r = 1 <-> HOST_ACL_DEFAULT_ALL E = true \/
                       (type = ACL_Host E /\ hacl_amended c h)).
Proof.
  intros Hno Hc Hh. unfold acl_check.
  assert ((Z.land (at_flags pattr) (ATR_VFLAG_SET E) =? 0)
          || match at_arst pattr with
             | Some pas => as_usedptr pas =? 0
             | None => true
             end = true) as ->.
  { destruct Hno as [->|Hno]; [done|]. apply orb_true_iff. right.
    destruct (at_arst pattr); [|done]. by apply Z.eqb_eq. }
  destruct (HOST_ACL_DEFAULT_ALL E).
  { exists 1. split; [done|]. split; [by right|]. split; [by left|done]. }
  destruct (Z.eqb_spec type (ACL_Host E)) as [Ht|Ht].
  - rewrite (hacl_match_rev _ _ _ _ _ _ Hc Hh). cbn [mbind option_bind].
    pose proof (hacl_match_bytes_amended c h) as Ham.
    unfold hacl_match_bytes in Ham.
    destruct (Z.eqb_spec (hacl_rev (reverse c) (reverse h)) 0) as [Hz|Hz].
    + exists 1. split; [done|]. split; [by right|]. split; [|done].
      intros _. right. split; [done|]. by apply Ham.
    + exists 0. split; [done|]. split; [by left|]. split; [done|].
      intros [?|[_ Ha]]; [done|]. by apply Ham in Ha.
  - exists 0. split; [done|]. split; [by left|]. split; [done|].
    by intros [?|[? _]].
Qed.

(** ** The order functions on the contents of their strings *)

Lemma group_order_bytes (m1 : block) (p1 : Z) (m2 : block) (p2 : Z)
    (s1 s2 : list byte) :
  cstr m1 p1 = Some s1 -> cstr m2 p2 = Some s2 ->
  group_order m1 p1 m2 p2 = Some (group_ord s1 s2).
Proof.
  intros H1 H2. unfold group_order, group_ord.
  destruct (skip_sign_strip _ _ _ H1) as (b1 & -> & Hb1).
  destruct (skip_sign_strip _ _ _ H2) as (b2 & -> & Hb2).
  cbn [mbind option_bind]. by apply strcmp_cstr.
Qed.

Lemma group_order_orders : orders_by group_order group_ord.
Proof. intros m1 p1 m2 p2 s1 s2 H1 H2 _ _. by apply group_order_bytes. Qed.

Lemma byte_eqb_sym (x y : byte) : Byte.eqb x y = Byte.eqb y x.
Proof. destruct (byte_eqb_spec x y), (byte_eqb_spec y x); congruence. Qed.

Lemma strcmp_bytes_opp (a b : list byte) :
  strcmp_bytes b a = - strcmp_bytes a b.
Proof.
  revert b. induction a as [|x a IH]; intros [|y b]; simpl; try lia.
  rewrite (byte_eqb_sym y x). destruct (Byte.eqb x y); [apply IH|lia].
Qed.

Lemma host_order_loop_rev (r1 : list byte) :
  forall (r2 : list byte) (fuel : nat) (m1 : block) (b1 : Z) (m2 : block)
         (b2 : Z),
    holds_rev m1 b1 r1 -> holds_rev m2 b2 r2 ->
    (r1 = [] -> is_Some (load m1 (b1 - 1))) ->
    (r2 = [] -> is_Some (load m2 (b2 - 1))) ->
    (length r1 <= fuel)%nat -> (1 <= fuel)%nat ->
    host_order_loop fuel m1 b1 m2 b2 (b1 + Z.of_nat (length r1) - 1)
      (b2 + Z.of_nat (length r2) - 1) = Some (host_rev r1 r2).
Proof.
  induction r1 as [|x r1 IH]; intros r2 fuel m1 b1 m2 b2 H1 H2 E1 E2 Hf Hf1;
    (destruct fuel as [|fuel]; [lia|]); cbn [host_order_loop].
  - (* the first string is empty behind its sign *)
    assert (is_Some (load m2 (b2 + Z.of_nat (length r2) - 1))) as [c2 ->].
    { destruct r2 as [|y r2].
      { replace (b2 + Z.of_nat (length (@nil byte)) - 1) with (b2 - 1)
          by (simpl; lia). by apply E2. }
      exists y. rewrite <-(holds_rev_head _ _ _ _ H2). f_equal. simpl. lia. }
    destruct (E1 eq_refl) as [c1 Hc1]. cbn [length mbind option_bind].
    replace (b1 + Z.of_nat 0 - 1) with (b1 - 1) by lia. rewrite Hc1.
    cbn [mbind option_bind].
    destruct (Z.ltb_spec b1 (b1 - 1)); [lia|].
    destruct (Z.eqb_spec (b1 - 1) b1); [lia|]. cbn [andb].
    by destruct r2.
  - assert (load m1 (b1 + Z.of_nat (length (x :: r1)) - 1) = Some x) as Hx.
    { rewrite <-(holds_rev_head _ _ _ _ H1). f_equal. simpl. lia. }
    destruct r2 as [|y r2].
    + destruct (E2 eq_refl) as [c2 Hc2].
      replace (b2 + Z.of_nat (length (@nil byte)) - 1) with (b2 - 1)
        by (simpl; lia).
      rewrite Hc2, Hx. cbn [mbind option_bind].
      destruct (Z.ltb_spec b2 (b2 - 1)); [lia|].
      destruct (Z.eqb_spec (b2 - 1) b2); [lia|]. rewrite !andb_false_r.
      destruct r1 as [|x' r1]; simpl length.
      * destruct (Z.eqb_spec (b1 + Z.of_nat 1 - 1) b1); [done|lia].
      * destruct (Z.eqb_spec (b1 + Z.of_nat (S (S (length r1))) - 1) b1); [lia|done].
    + assert (load m2 (b2 + Z.of_nat (length (y :: r2)) - 1) = Some y) as Hy.
      { rewrite <-(holds_rev_head _ _ _ _ H2). f_equal. simpl. lia. }
      rewrite Hy, Hx. cbn [mbind option_bind].
      destruct r1 as [|x' r1], r2 as [|y' r2]; simpl length.
      * destruct (Z.ltb_spec b1 (b1 + Z.of_nat 1 - 1)); [lia|].
        destruct (Z.eqb_spec (b1 + Z.of_nat 1 - 1) b1); [|lia].
        destruct (Z.eqb_spec (b2 + Z.of_nat 1 - 1) b2); [|lia].
        cbn [andb host_rev].
        destruct (Byte.eqb x ch_star); [done|].
        by destruct (Byte.eqb y ch_star).
      * destruct (Z.ltb_spec b1 (b1 + Z.of_nat 1 - 1)); [lia|].
        destruct (Z.eqb_spec (b1 + Z.of_nat 1 - 1) b1); [|lia].
        destruct (Z.eqb_spec (b2 + Z.of_nat (S (S (length r2))) - 1) b2); [lia|].
        done.
      * destruct (Z.ltb_spec b2 (b2 + Z.of_nat 1 - 1)); [lia|].
        destruct (Z.eqb_spec (b1 + Z.of_nat (S (S (length r1))) - 1) b1); [lia|].
        rewrite andb_false_r. done.
      * destruct (Z.ltb_spec b1 (b1 + Z.of_nat (S (S (length r1))) - 1)); [|lia].
        destruct (Z.ltb_spec b2 (b2 + Z.of_nat (S (S (length r2))) - 1)); [|lia].
        cbn [andb host_rev].
        destruct (int_of_char y - int_of_char x =? 0); cbn [negb]; [|done].
        replace (b1 + Z.of_nat (S (S (length r1))) - 1 - 1)
          with (b1 + Z.of_nat (length (x' :: r1)) - 1) by (simpl; lia).
        replace (b2 + Z.of_nat (S (S (length r2))) - 1 - 1)
          with (b2 + Z.of_nat (length (y' :: r2)) - 1) by (simpl; lia).
        apply IH; [by eapply holds_rev_tail|by eapply holds_rev_tail
                  |done|done|simpl in Hf |- *; lia|simpl in Hf; lia].
Qed.

(** Behind the sign of a string that is not empty lies the string behind
    its sign, and before an empty one lies the sign. *)
Lemma skip_sign_key (m : block) (p : Z) (e : list byte) :
  cstr m p = Some e -> e <> [] ->
  exists b, skip_sign m p = Some b /\ cstr m b = Some (strip_sign e) /\
            (strip_sign e = [] -> is_Some (load m (b - 1))).
Proof.
  intros Hc Hne.
  destruct (skip_sign_strip _ _ _ Hc) as (b & Hb & Hk).
  destruct (skip_sign_cstr _ _ _ Hc Hne) as (b' & t & Hb' & Ht & Hl).
  assert (b' = b) as -> by congruence.
  assert (t = strip_sign e) as -> by congruence.
  exists b. split; [done|]. split; [done|].
  intros E. rewrite E in Hl. simpl in Hl.
  by replace (b + Z.of_nat 0 - 1) with (b - 1) in Hl by lia.
Qed.

(** [host_order] on two strings that are not empty is [host_ord] on their
    contents. *)
Lemma host_order_orders : orders_by host_order host_ord.
Proof.
  intros m1 p1 m2 p2 s1 s2 H1 H2 Hn1 Hn2. unfold host_order, host_ord.
  destruct (skip_sign_key _ _ _ H1 Hn1) as (b1 & -> & Hk1 & He1).
  destruct (skip_sign_key _ _ _ H2 Hn2) as (b2 & -> & Hk2 & He2).
  cbn [mbind option_bind].
  rewrite (strlen_Some _ _ _ Hk1), (strlen_Some _ _ _ Hk2).
  cbn [mbind option_bind].
  pose proof (host_order_loop_rev (reverse (strip_sign s1))
                (reverse (strip_sign s2))
                (S (Z.to_nat (Z.of_nat (length (strip_sign s1)))))
                m1 b1 m2 b2) as H.
  rewrite !length_reverse in H. apply H.
  - by apply holds_rev_cstr.
  - by apply holds_rev_cstr.
  - intros E. apply He1. apply (f_equal reverse) in E.
    by rewrite reverse_involutive in E.
  - intros E. apply He2. apply (f_equal reverse) in E.
    by rewrite reverse_involutive in E.
  - lia.
  - lia.
Qed.

Lemma host_rev_cons2 (x x' y y' : byte) (r1 r2 : list byte) :
  host_rev (x :: x' :: r1) (y :: y' :: r2) =
  if int_of_char y - int_of_char x =? 0 then host_rev (x' :: r1) (y' :: r2)
  else int_of_char y - int_of_char x.
Proof. done. Qed.

(** [host_rev] is above 0 in both directions only on two equal strings
    that start with '*'. *)
Lemma host_rev_both_above (r1 : list byte) :
  forall r2, 0 < host_rev r1 r2 -> 0 < host_rev r2 r1 ->
             r1 = r2 /\ last r1 = Some ch_star.
Proof.
  induction r1 as [|x r1 IH]; intros r2 H12 H21.
  - destruct r2 as [|y [|y' r2]]; simpl in H12; lia.
  - destruct r1 as [|x' r1], r2 as [|y [|y' r2]];
      try (simpl in H12, H21; lia).
    + simpl in H12, H21.
      destruct (byte_eqb_spec x ch_star) as [Hx|Hx];
        destruct (byte_eqb_spec y ch_star) as [Hy|Hy];
        [by subst|lia|lia|lia].
    + rewrite host_rev_cons2 in H12, H21.
      destruct (Z.eqb_spec (int_of_char y - int_of_char x) 0) as [E|E],
               (Z.eqb_spec (int_of_char x - int_of_char y) 0) as [E'|E'];
        try lia.
      assert (x = y) as -> by (apply int_of_char_inj; lia).
      destruct (IH _ H12 H21) as [-> Hl]. done.
Qed.

(** [host_rev] is 0 exactly on two equal strings that are not empty and do
    not start with '*'. *)
Lemma host_rev_zero (r1 : list byte) :
  forall r2, host_rev r1 r2 = 0 <->
             r1 = r2 /\ r1 <> [] /\ last r1 <> Some ch_star.
Proof.
  induction r1 as [|x r1 IH]; intros r2.
  - split; [by destruct r2 as [|y [|y' r2]]|]. by intros (_ & ? & _).
  - destruct r1 as [|x' r1], r2 as [|y [|y' r2]];
      try (split; [done|by intros (? & _)]).
    + simpl. destruct (byte_eqb_spec x ch_star) as [->|Hx].
      { split; [done|]. by intros (_ & _ & ?). }
      destruct (byte_eqb_spec y ch_star) as [->|Hy].
      { split; [done|]. intros (? & _). by simplify_eq. }
      split.
      * intros E. assert (x = y) as -> by (apply int_of_char_inj; lia).
        split; [done|]. split; [done|]. by intros [= ->].
      * intros ([= ->] & _). lia.
    + rewrite host_rev_cons2.
      destruct (Z.eqb_spec (int_of_char y - int_of_char x) 0) as [E|E].
      * assert (x = y) as -> by (apply int_of_char_inj; lia).
        rewrite IH. split.
        -- intros (-> & _ & Hl). done.
        -- intros ([= -> ->] & _ & Hl). done.
      * split; [lia|]. intros ([= -> -> ->] & _). lia.
Qed.

Lemma last_reverse_head (k : list byte) (c : byte) :
  last (reverse k) = Some c <-> exists r, k = c :: r.
Proof.
  destruct k as [|x k].
  - split; [done|]. by intros [r ?].
  - rewrite reverse_cons, last_snoc. split.
    + intros [= ->]. by exists k.
    + by intros [r [= -> _]].
Qed.

(** [host_order] on two entries that are not empty returns, in either
    order of its arguments.  It is above 0 in both orders only when the two
    entries are the same behind their signs and start there with '*', and
    it is 0 exactly when they are the same behind their signs, not empty
    there and without a leading '*'. *)
Theorem host_order_both_ways (m1 : block) (p1 : Z) (m2 : block) (p2 : Z)
    (e1 e2 : list byte) :
  cstr m1 p1 = Some e1 -> cstr m2 p2 = Some e2 -> e1 <> [] -> e2 <> [] ->
  exists d12 d21,
    host_order m1 p1 m2 p2 = Some d12 /\ host_order m2 p2 m1 p1 = Some d21 /\
    (0 < d12 -> 0 < d21 ->
     strip_sign e1 = strip_sign e2 /\ wildcard_entry e1) /\
    (d12 = 0 <->
     strip_sign e1 = strip_sign e2 /\ strip_sign e1 <> [] /\
     ~ wildcard_entry e1).
Proof.
  intros H1 H2 Hn1 Hn2. exists (host_ord e1 e2), (host_ord e2 e1).
  split; [by apply host_order_orders|].
  split; [by apply host_order_orders|].
  unfold host_ord, wildcard_entry. split.
  - intros H12 H21. destruct (host_rev_both_above _ _ H12 H21) as [E Hl].
    apply (f_equal reverse) in E. rewrite !reverse_involutive in E.
    split; [done|]. by apply last_reverse_head.
  - rewrite host_rev_zero. rewrite last_reverse_head.
    split.
    + intros (E & Hne & Hl). apply (f_equal reverse) in E.
      rewrite !reverse_involutive in E. split; [done|]. split; [|done].
      intros E'. apply Hne. by rewrite E'.
    + intros (E & Hne & Hl). rewrite E. split; [done|]. split; [|by rewrite <-E].
      intros E'. apply Hne. apply (f_equal reverse) in E'.
      rewrite reverse_involutive in E'. by rewrite E.
Qed.

(** [group_order] returns on every two strings, with or without sign and
    empty or not: it is [strcmp] on the two strings behind their signs.
    It is 0 exactly when the two are the same behind their signs, and it
    changes its sign when its arguments change places. *)
Theorem group_order_compares_behind_signs (m1 : block) (p1 : Z) (m2 : block)
    (p2 : Z) (e1 e2 : list byte) :
  cstr m1 p1 = Some e1 -> cstr m2 p2 = Some e2 ->
  exists d12 d21,
    group_order m1 p1 m2 p2 = Some d12 /\ group_order m2 p2 m1 p1 = Some d21 /\
    d21 = - d12 /\
    (d12 = 0 <-> strip_sign e1 = strip_sign e2) /\
    d12 = strcmp_bytes (strip_sign e1) (strip_sign e2).
Proof.
  intros H1 H2. exists (group_ord e1 e2), (group_ord e2 e1).
  split; [by apply group_order_bytes|].
  split; [by apply group_order_bytes|].
  unfold group_ord. split; [apply strcmp_bytes_opp|]. split; [|done].
  apply strcmp_bytes_eq.
  - apply cstr_nonul in H1. destruct e1 as [|c e1]; [done|]. simpl.
    destruct (Byte.eqb c ch_plus || Byte.eqb c ch_minus); set_solver.
  - apply cstr_nonul in H2. destruct e2 as [|c e2]; [done|]. simpl.
    destruct (Byte.eqb c ch_plus || Byte.eqb c ch_minus); set_solver.
Qed.

Lemma group_order_compares_behind_signs_witness :
  exists d12 d21,
    group_order (lit "+staff") 0 (lit "-admin") 0 = Some d12 /\
    group_order (lit "-admin") 0 (lit "+staff") 0 = Some d21 /\
    d21 = - d12 /\
    (d12 = 0 <-> strip_sign (bytes "+staff") = strip_sign (bytes "-admin")) /\
    d12 = strcmp_bytes (strip_sign (bytes "+staff"))
            (strip_sign (bytes "-admin")).
Proof.
  apply (group_order_compares_behind_signs (lit "+staff") 0 (lit "-admin") 0);
    done.
Defined.

Lemma host_order_both_ways_witness :
  exists d12 d21,
    host_order (lit "+*.example.com") 0 (lit "*.example.com") 0 = Some d12 /\
    host_order (lit "*.example.com") 0 (lit "+*.example.com") 0 = Some d21 /\
    (0 < d12 -> 0 < d21 ->
     strip_sign (bytes "+*.example.com") = strip_sign (bytes "*.example.com")
     /\ wildcard_entry (bytes "+*.example.com")) /\
    (d12 = 0 <->
     strip_sign (bytes "+*.example.com") = strip_sign (bytes "*.example.com")
     /\ strip_sign (bytes "+*.example.com") <> [] /\
     ~ wildcard_entry (bytes "+*.example.com")).
Proof.
  apply (host_order_both_ways (lit "+*.example.com") 0 (lit "*.example.com")
           0); done.
Defined.

(** ** The place of a new entry *)

Lemma orders_by_returns (order_func : match_fn)
    (ord : list byte -> list byte -> Z) :
  orders_by order_func ord -> returns_on_strings order_func.
Proof.
  intros H m1 p1 m2 p2 s1 s2 H1 H2 Hn1 Hn2.
  rewrite (H _ _ _ _ _ _ H1 H2 Hn1 Hn2). by eexists.
Qed.

Lemma place_unique (ord : list byte -> list byte -> Z) (s : list byte)
    (l : list (list byte)) :
  forall j : nat,
    (j <= length l)%nat ->
    (forall i e, (i < j)%nat -> l !! i = Some e -> ord e s <= 0) ->
    (forall e, l !! j = Some e -> 0 < ord e s) ->
    place ord s l = j.
Proof.
  induction l as [|e l IH]; intros j Hj Hbefore Hat; simpl in *.
  - lia.
  - destruct j as [|j].
    + specialize (Hat e eq_refl).
      by destruct (Z.ltb_spec 0 (ord e s)); [|lia].
    + pose proof (Hbefore O e ltac:(lia) eq_refl).
      destruct (Z.ltb_spec 0 (ord e s)); [lia|]. f_equal.
      apply IH; [lia| |done].
      intros i e' Hi He'. apply (Hbefore (S i) e'); [lia|done].
Qed.

Lemma place_le (ord : list byte -> list byte -> Z) (s : list byte)
    (l : list (list byte)) :
  (place ord s l <= length l)%nat.
Proof.
  induction l as [|e l IH]; simpl; [done|].
  destruct (0 <? ord e s); lia.
Qed.

Lemma place_before (ord : list byte -> list byte -> Z) (s : list byte)
    (l : list (list byte)) (i : nat) (e : list byte) :
  (i < place ord s l)%nat -> l !! i = Some e -> ord e s <= 0.
Proof.
  revert i. induction l as [|e' l IH]; intros i Hi He; simpl in *; [lia|].
  destruct (Z.ltb_spec 0 (ord e' s)); [lia|].
  destruct i as [|i]; simplify_eq/=; [done|]. apply (IH i); [lia|done].
Qed.

Lemma place_at (ord : list byte -> list byte -> Z) (s : list byte)
    (l : list (list byte)) (e : list byte) :
  l !! place ord s l = Some e -> 0 < ord e s.
Proof.
  induction l as [|e' l IH]; simpl; [done|].
  destruct (Z.ltb_spec 0 (ord e' s)); simpl; [by intros [= <-]|done].
Qed.

(** One turn of the loop of the Add puts the new string at its place. *)
Lemma insert_entry_by (order_func : match_fn)
    (ord : list byte -> list byte -> Z) (l ln : list (list byte))
    (pas newpas : array_strings) (i : nat) (s : list byte) :
  holds l pas -> reads ln newpas -> orders_by order_func ord ->
  Forall (fun t => t <> []) l -> ln !! i = Some s -> s <> [] ->
  as_next pas + Z.of_nat (length s) + 1 <= as_bufsize pas ->
  (length l < length (as_string pas))%nat ->
  exists pas',
    insert_entry order_func pas newpas (Z.of_nat i) = Some pas' /\
    holds (insert_by ord s l) pas' /\
    as_bufsize pas' = as_bufsize pas /\
    length (as_string pas') = length (as_string pas).
Proof.
  intros Hh [_ Hr] Hord Hne Hi Hsne Hroom Hslots.
  destruct (Hr _ _ Hi) as (pnew & Hslot & Hstr).
  unfold insert_entry. rewrite Hslot. cbn [mbind option_bind].
  pose proof (find_place_spec order_func l pas (buf_of newpas) pnew s
                (Z.to_nat (as_usedptr pas)) 0 Hh
                (orders_by_returns _ _ Hord) Hne Hstr Hsne) as Hfp.
  destruct Hfp as (j & Hj & Hrange & Hbefore & Hat).
  { rewrite (holds_usedptr _ _ Hh). lia. }
  { lia. }
  change (Z.of_nat 0) with 0 in Hj. rewrite Hj. cbn [mbind option_bind].
  rewrite (strlen_Some _ _ _ Hstr), Hstr. cbn [mbind option_bind].
  assert (place ord s l = j) as Hplace.
  { apply place_unique; [lia| |].
    - intros k e Hk He. destruct (Hbefore k) as (d & Hd & Hle); [lia|].
      destruct (holds_read _ _ _ _ Hh He) as [_ Hce].
      rewrite (Hord _ _ _ _ _ _ Hce Hstr) in Hd;
        [|by eapply Forall_lookup_1 in Hne|done].
      by simplify_eq.
    - intros e He. apply lookup_lt_Some in He as Hlt.
      destruct (Hat Hlt) as (d & Hd & Hpos).
      destruct (holds_read _ _ _ _ Hh He) as [_ Hce].
      rewrite (Hord _ _ _ _ _ _ Hce Hstr) in Hd;
        [|by eapply Forall_lookup_1 in Hne|done].
      by simplify_eq. }
  destruct (put_entry_spec l pas j s Hh) as (pas' & Hput & Hh' & Hsz);
    [lia|by eapply cstr_nonul|done|done|].
  exists pas'. split; [done|]. unfold insert_by. rewrite Hplace. by split.
Qed.

Lemma insert_by_length (ord : list byte -> list byte -> Z) (s : list byte)
    (l : list (list byte)) :
  length (insert_by ord s l) = S (length l).
Proof.
  unfold insert_by. pose proof (place_le ord s l).
  rewrite length_app, length_take. simpl. rewrite length_drop. lia.
Qed.

Lemma insert_by_packed (ord : list byte -> list byte -> Z) (s : list byte)
    (l : list (list byte)) :
  length (packed (insert_by ord s l)) =
  (length (packed l) + length s + 1)%nat.
Proof.
  unfold insert_by. rewrite packed_app, packed_cons, !length_app.
  cbn [length]. rewrite ?length_app.
  pose proof (f_equal (fun x => length (packed x))
                (take_drop (place ord s l) l)) as E.
  simpl in E. rewrite packed_app, length_app in E. lia.
Qed.

Lemma insert_by_nonempty (ord : list byte -> list byte -> Z) (s : list byte)
    (l : list (list byte)) :
  Forall (fun t => t <> []) l -> s <> [] ->
  Forall (fun t => t <> []) (insert_by ord s l).
Proof.
  intros Hl Hs. unfold insert_by. apply Forall_app. split.
  - by apply Forall_take.
  - apply Forall_cons. split; [done|]. by apply Forall_drop.
Qed.

(** The loop of the Add puts the strings of the operand at their places,
    one after the other. *)
Lemma insert_all_by (order_func : match_fn)
    (ord : list byte -> list byte -> Z) (ln : list (list byte))
    (newpas : array_strings) (fuel : nat) (l : list (list byte))
    (pas : array_strings) (i : nat) :
  reads ln newpas -> orders_by order_func ord ->
  Forall (fun t => t <> []) ln ->
  holds l pas -> Forall (fun t => t <> []) l ->
  as_next pas + Z.of_nat (length (packed (drop i ln))) <= as_bufsize pas ->
  (length l + (length ln - i) <= length (as_string pas))%nat ->
  (length ln - i <= fuel)%nat -> (i <= length ln)%nat ->
  exists pas',
    insert_all fuel order_func pas newpas (Z.of_nat i) = Some pas' /\
    holds (add_by ord (drop i ln) l) pas'.
Proof.
  intros Hr Hord Hnen. revert l pas i.
  induction fuel as [|fuel IH]; intros l pas i Hh Hne Hroom Hslots Hfuel Hi.
  - exists pas. simpl. destruct Hr as [-> _].
    destruct (Z.ltb_spec (Z.of_nat i) (Z.of_nat (length ln))); [lia|].
    by rewrite drop_ge by lia.
  - simpl. pose proof Hr as [Hu _]. rewrite Hu.
    destruct (Z.ltb_spec (Z.of_nat i) (Z.of_nat (length ln))) as [Hlt|Hge].
    + destruct (lookup_lt_is_Some_2 ln i) as [s Hs]; [lia|].
      rewrite (drop_S _ _ _ Hs), packed_cons, length_app in Hroom.
      simpl in Hroom.
      assert (s <> []) as Hsne by (by eapply Forall_lookup_1 in Hnen).
      destruct (insert_entry_by order_func ord l ln pas newpas i s)
        as (pas1 & -> & Hh1 & Hbs1 & Hlen1); try done; [lia|lia|].
      cbn [mbind option_bind].
      replace (Z.of_nat i + 1) with (Z.of_nat (S i)) by lia.
      destruct (IH (insert_by ord s l) pas1 (S i))
        as (pas' & -> & Hh'); try done.
      * by apply insert_by_nonempty.
      * rewrite (holds_next _ _ Hh1), Hbs1, insert_by_packed.
        rewrite (holds_next _ _ Hh) in Hroom. lia.
      * rewrite Hlen1, insert_by_length. lia.
      * lia.
      * lia.
      * exists pas'. split; [done|]. by rewrite (drop_S _ _ _ Hs).
    + exists pas. by rewrite drop_ge by lia.
Qed.

(** The [INCR] case without a duplicate, when the memory it asks for is
    granted. *)
Lemma incr_case_by (A : allocator) (order_func : match_fn)
    (ord : list byte -> list byte -> Z)
    (l ln : list (list byte)) (pas newpas : array_strings) :
  holds l pas -> reads ln newpas ->
  Z.of_nat (length (packed ln)) <= as_next newpas < 2 ^ 31 ->
  ~ duplicate l ln -> grants_add A -> orders_by order_func ord ->
  Forall (fun t => t <> []) l -> Forall (fun t => t <> []) ln ->
  as_bufsize pas + 2 * as_next newpas < 2 ^ 31 ->
  3 * Z.of_nat (length l + length ln) < 2 ^ 31 ->
  exists pas',
    incr_case A order_func pas newpas = Some (PBSE_NONE, pas') /\
    holds (add_by ord ln l) pas'.
Proof.
  intros Hh Hr Hnext Hnodup [Hrb Hrp] Hord Hne Hnen Hbuf Hslots.
  unfold incr_case.
  destruct (chk_dup_acl_spec l ln pas newpas (holds_reads _ _ Hh) Hr)
    as (b & -> & Ht & _).
  destruct b; [by destruct Hnodup; apply Ht|]. cbn [mbind option_bind].
  rewrite (ulong_small (as_next newpas)) by lia.
  destruct (grow_buf_ok A l pas (as_next newpas) Hh) as (pas1 & -> & Hh1 & Hroom);
    [lia|done|done|].
  cbn [mbind option_bind].
  pose proof Hr as [Hun _]. rewrite Hun.
  destruct (grow_ptrs_ok A l pas1 (length ln) Hh1 Hrp Hslots)
    as (pas2 & -> & Hh2 & Hnx2 & Hbs2 & Hslots2).
  destruct (insert_all_by order_func ord ln newpas
              (Z.to_nat (Z.of_nat (length ln))) l pas2 0 Hr Hord Hnen Hh2 Hne)
    as (pas' & Hins & Hh').
  { rewrite drop_0. lia. }
  { lia. }
  { lia. }
  { lia. }
  change (Z.of_nat 0) with 0 in Hins. rewrite Hins. cbn [mbind option_bind].
  rewrite drop_0 in Hh'. by exists pas'.
Qed.

(** An Add without a duplicate that is granted its memory returns 0 and
    leaves the strings of the operand put into the list at their places. *)
Lemma set_allacl_add_by (E : extern) (A : allocator)
    (post : attribute -> attribute) (order_func : match_fn)
    (ord : list byte -> list byte -> Z)
    (attr new : attribute) (newpas : array_strings)
    (l ln : list (list byte)) :
  attr_holds l attr -> gives ln new E newpas ->
  at_arst attr <> None \/ malloc_pas A = true ->
  ~ duplicate l ln -> grants_add A -> orders_by order_func ord ->
  Forall (fun s => s <> []) l -> Forall (fun s => s <> []) ln ->
  bufsize_of attr + 2 * as_next newpas < 2 ^ 31 ->
  3 * Z.of_nat (length l + length ln) < 2 ^ 31 ->
  exists pas',
    set_allacl E A post order_func attr new INCR =
    Some (PBSE_NONE, post (with_arst attr pas')) /\
    holds (add_by ord ln l) pas'.
Proof.
  intros Hattr Hnew Halloc Hnodup Hgrants Hord Hne Hnen Hbuf Hslots.
  pose proof (gives_reads _ _ _ _ Hnew) as Hr.
  unfold set_allacl.
  destruct (Z.eqb_spec (Z.land (at_flags new) (ATR_VFLAG_SET E)) 0) as [Hz|_].
  { by destruct Hnew. }
  rewrite (gives_arst _ _ _ _ Hnew).
  destruct (make_arst_holds A l attr newpas Hattr (gives_npointers _ _ _ _ Hnew)
              Halloc) as (pas & -> & Hh & Hbs & _).
  destruct (incr_case_by A order_func ord l ln pas newpas Hh Hr
              (gives_next _ _ _ _ Hnew) Hnodup Hgrants Hord Hne Hnen)
    as (pas' & -> & Hh'); [lia|done|].
  cbn [mbind option_bind]. by exists pas'.
Qed.

(** An Add without a duplicate that is granted its memory returns 0 and
    leaves the list in which every string of the operand, in the order of
    the operand, has been put before the first entry that the order
    function places behind it, and at the end when there is none; the
    entries that were there keep their order. *)
Theorem add_puts_each_entry_at_its_place (E : extern) (A : allocator)
    (post : attribute -> attribute) (order_func : match_fn)
    (ord : list byte -> list byte -> Z)
    (attr new : attribute) (newpas : array_strings)
    (l ln : list (list byte)) :
  attr_holds l attr -> gives ln new E newpas ->
  at_arst attr <> None \/ malloc_pas A = true ->
  ~ duplicate l ln -> grants_add A -> orders_by order_func ord ->
  Forall (fun s => s <> []) l -> Forall (fun s => s <> []) ln ->
  bufsize_of attr + 2 * as_next newpas < 2 ^ 31 ->
  3 * Z.of_nat (length l + length ln) < 2 ^ 31 ->
  (exists pas',
     set_allacl E A post order_func attr new INCR =
     Some (PBSE_NONE, post (with_arst attr pas')) /\
     holds (add_by ord ln l) pas') /\
  (forall s l0 i e,
     (i < place ord s l0)%nat -> l0 !! i = Some e -> ord e s <= 0) /\
  (forall s l0 e, l0 !! place ord s l0 = Some e -> 0 < ord e s) /\
  (forall s l0, sublist l0 (insert_by ord s l0)).
Proof.
  intros Hattr Hnew Halloc Hnodup Hgrants Hord Hne Hnen Hbuf Hslots.
  split; [by eapply set_allacl_add_by|].
  split; [apply place_before|]. split; [apply place_at|].
  intros s l0. apply insert_middle_sublist.
Qed.

(** ** Replace *)

Lemma each_slot_Some (f : option Z -> option Z) (fuel : nat)
    (ptrs : list (option Z)) (i hi : Z) :
  0 <= i -> hi <= Z.of_nat (length ptrs) -> (Z.to_nat (hi - i) <= fuel)%nat ->
  exists ptrs', each_slot fuel f ptrs i hi = Some ptrs' /\
                length ptrs' = length ptrs.
Proof.
  revert ptrs i. induction fuel as [|fuel IH]; intros ptrs i Hi Hhi Hf; simpl.
  - destruct (Z.ltb_spec i hi); [lia|]. by exists ptrs.
  - destruct (Z.ltb_spec i hi); [|by exists ptrs].
    unfold get_slot, set_slot.
    destruct (Z.leb_spec 0 i); [|lia].
    destruct (lookup_lt_is_Some_2 ptrs (Z.to_nat i)) as [v Hv]; [lia|].
    rewrite Hv. cbn [mbind option_bind].
    destruct (Z.ltb_spec i (Z.of_nat (length ptrs))); [|lia].
    cbn [andb mbind option_bind].
    destruct (IH (<[Z.to_nat i:=f v]> ptrs) (i + 1)) as (ptrs' & -> & Hl);
      [lia|rewrite length_insert; lia|lia|].
    exists ptrs'. split; [done|]. by rewrite Hl, length_insert.
Qed.

Lemma holds_nil (pas : array_strings) :
  as_usedptr pas = 0 -> as_next pas = 0 ->
  as_npointers pas = Z.of_nat (length (as_string pas)) ->
  as_bufsize pas = Z.of_nat (length (buf_of pas)) ->
  as_bufsize pas < 2 ^ 31 -> as_npointers pas < 2 ^ 31 ->
  holds [] pas.
Proof.
  intros Hu Hn Hnp Hbs Hb1 Hb2. constructor; try done.
  - by eexists.
  - by eexists.
Qed.

(** The [SET] case clears the array before it falls into [INCR]. *)
Lemma set_case_ok (A : allocator) (l : list (list byte))
    (pas newpas : array_strings) :
  holds l pas -> 0 <= as_next newpas ->
  as_next newpas + as_next newpas / 2 < 2 ^ 31 ->
  is_Some (malloc_buf A) ->
  exists f, set_case A pas newpas = Some f /\
    match f with
    | Return (e, pas0) =>
        e = PBSE_NONE /\ as_usedptr newpas = 0 /\ holds [] pas0
    | Next pas0 =>
        as_usedptr newpas <> 0 /\ holds [] pas0 /\
        as_next newpas <= as_bufsize pas0 /\
        as_bufsize pas0 <=
        Z.max (as_bufsize pas) (as_next newpas + as_next newpas / 2)
    end.
Proof.
  intros Hh Hn0 Hn [fresh Hfresh]. unfold set_case.
  pose proof Hh as [Hnl Hu Hnp Hnx Hbs [rest Hb] [slots Hstr] [Hi1 Hi2]].
  destruct (each_slot_Some (fun _ => None) (Z.to_nat (as_usedptr pas))
              (as_string pas) 0 (as_usedptr pas)) as (ptrs & -> & Hlen).
  { lia. }
  { rewrite Hu, Hstr. lengths. lia. }
  { lia. }
  cbn [mbind option_bind as_usedptr as_bufsize as_buf as_npointers].
  assert (0 <= as_bufsize pas) as Hbs0 by lia.
  destruct (Z.eqb_spec (as_usedptr newpas) 0) as [Hz|Hz].
  { eexists. split; [done|]. split; [done|]. split; [done|].
    apply holds_nil; cbn; try done. by rewrite Hlen. }
  assert (0 <= as_next newpas / 2) as Hhalf by (apply Z.div_pos; lia).
  assert (as_next newpas < 2 ^ 31) as Hn31.
  { revert Hn Hhalf. generalize (as_next newpas / 2). intros. lia. }
  rewrite (ulong_small (as_next newpas)) by lia.
  rewrite (ulong_small (as_bufsize pas)) by lia.
  set (half := as_next newpas / 2) in *.
  destruct (Z.ltb_spec (as_bufsize pas) (as_next newpas)) as [Hlt|Hge].
  - rewrite Hfresh.
    rewrite (ulong_small (as_next newpas + half)) by lia.
    rewrite int_small by lia.
    eexists. split; [done|]. split; [done|].
    split; [|cbn; lia].
    apply holds_nil; cbn; try done; try (by rewrite Hlen); try lia.
    unfold buf_of. cbn. rewrite grant_length. lia.
  - assert (exists m, memset0 (as_buf pas) (as_bufsize pas) = Some m /\
                      Z.of_nat (length (default [] m)) = as_bufsize pas)
      as (m & -> & Hm).
    { unfold memset0, buf_of in *. destruct (as_buf pas) as [old|];
        cbn [default] in *; unfold id in *.
      - pose proof (store_bytes_middle [] old []
                      (replicate (Z.to_nat (as_bufsize pas)) NUL)) as Hst.
        rewrite !app_nil_r in Hst. cbn [app length] in Hst.
        change (Z.of_nat 0) with 0 in Hst. rewrite Hst.
        2:{ rewrite length_replicate. lia. }
        eexists. split; [done|]. cbn [default].
        rewrite length_replicate. lia.
      - destruct (Z.eqb_spec (as_bufsize pas) 0); [|simpl in Hbs; lia].
        exists None. split; [done|]. simpl. lia. }
    cbn [mbind option_bind].
    eexists. split; [done|]. split; [done|].
    split; [|cbn; lia].
    apply holds_nil; cbn; try done; try (by rewrite Hlen); try lia.
Qed.

(** ** Lists in the order of an order function *)

Lemma sorted_by_cons (ord : list byte -> list byte -> Z) (a : list byte)
    (l : list (list byte)) :
  sorted_by ord (a :: l) <->
  (forall b, head l = Some b -> ord a b <= 0) /\ sorted_by ord l.
Proof.
  split.
  - intros H. split.
    + intros b Hb. destruct l as [|b' l]; simplify_eq/=.
      by apply (H O a b).
    + intros i x y Hx Hy. by apply (H (S i) x y).
  - intros [Hhd Hl] i x y Hx Hy. destruct i as [|i]; simplify_eq/=.
    + apply Hhd. by destruct l; simplify_eq/=.
    + by apply (Hl i x y).
Qed.

Lemma sorted_by_nil (ord : list byte -> list byte -> Z) : sorted_by ord [].
Proof. by intros i a b ?. Qed.

Lemma sorted_by_insert_at (ord : list byte -> list byte -> Z) (s : list byte)
    (l : list (list byte)) :
  forall j : nat,
    sorted_by ord l -> (j <= length l)%nat ->
    (forall i e, j = S i -> l !! i = Some e -> ord e s <= 0) ->
    (forall e, l !! j = Some e -> ord s e <= 0) ->
    sorted_by ord (take j l ++ s :: drop j l).
Proof.
  induction l as [|e l IH]; intros j Hl Hj Hbefore Hat.
  - destruct j; simpl; apply sorted_by_cons; (split; [done|]);
      apply sorted_by_nil.
  - apply sorted_by_cons in Hl as [Hhd Hl]. destruct j as [|j].
    + simpl. apply sorted_by_cons. split.
      * intros b [= <-]. by apply Hat.
      * apply sorted_by_cons. by split.
    + simpl. apply sorted_by_cons. split.
      * intros b Hb. destruct j as [|j].
        -- simpl in Hb. simplify_eq. by apply (Hbefore O).
        -- apply Hhd. destruct l as [|b' l]; [simpl in Hj; lia|].
           by simplify_eq/=.
      * apply IH; [done|simpl in Hj; lia| |].
        -- intros i e' -> He'. by apply (Hbefore (S i)).
        -- intros e' He'. by apply Hat.
Qed.

Lemma insert_by_sorted (ord : list byte -> list byte -> Z) (s : list byte)
    (l : list (list byte)) :
  sorted_by ord l ->
  (forall e, e ∈ l -> 0 < ord e s -> ord s e <= 0) ->
  sorted_by ord (insert_by ord s l).
Proof.
  intros Hl Hanti. unfold insert_by.
  apply sorted_by_insert_at; [done|apply place_le| |].
  - intros i e Hj He. apply (place_before ord s l i e); [lia|done].
  - intros e He. apply Hanti; [by eapply list_elem_of_lookup_2|].
    by apply (place_at ord s l).
Qed.

Lemma insert_by_perm (ord : list byte -> list byte -> Z) (s : list byte)
    (l : list (list byte)) :
  insert_by ord s l ≡ₚ s :: l.
Proof. apply insert_middle_perm. Qed.

Lemma add_by_perm (ord : list byte -> list byte -> Z)
    (ln l : list (list byte)) :
  add_by ord ln l ≡ₚ l ++ ln.
Proof.
  revert l. induction ln as [|s ln IH]; intros l; simpl.
  - by rewrite app_nil_r.
  - unfold add_by in *. simpl. rewrite IH, insert_by_perm.
    by rewrite <-Permutation_middle.
Qed.

Lemma add_by_sorted (ord : list byte -> list byte -> Z)
    (ln : list (list byte)) :
  forall l,
    sorted_by ord l -> ~ duplicate l ln ->
    (forall a b, a ∈ l ++ ln -> b ∈ ln -> a <> b ->
                 0 < ord a b -> ord b a <= 0) ->
    sorted_by ord (add_by ord ln l).
Proof.
  induction ln as [|s ln IH]; intros l Hl Hnd Hanti; [done|].
  unfold add_by. simpl. apply IH.
  - apply insert_by_sorted; [done|]. intros e He Hpos.
    apply Hanti; [set_solver|set_solver| |done].
    intros ->. apply Hnd. right. exists s. set_solver.
  - intros [Hd|(x & Hx & Hx')].
    + apply Hnd. left. intros Hn. apply Hd. by apply NoDup_cons in Hn as [_ ?].
    + rewrite insert_by_perm in Hx'. apply elem_of_cons in Hx' as [->|Hx'].
      * apply Hnd. left. intros Hn. by apply NoDup_cons in Hn as [? _].
      * apply Hnd. right. exists x. set_solver.
  - intros a b Ha Hb. apply Hanti; [|set_solver].
    rewrite insert_by_perm in Ha. set_solver.
Qed.

Lemma remove_first_sorted (ord : list byte -> list byte -> Z) (s : list byte)
    (l : list (list byte)) :
  (forall a b c, a ∈ l -> b ∈ l -> c ∈ l ->
                 ord a b <= 0 -> ord b c <= 0 -> ord a c <= 0) ->
  sorted_by ord l -> sorted_by ord (remove_first s l).
Proof.
  induction l as [|e l IH]; intros Htrans Hl; [done|]. simpl.
  apply sorted_by_cons in Hl as [Hhd Hl].
  case_bool_decide; [done|]. apply sorted_by_cons. split.
  - intros b Hb. destruct l as [|e' l]; [done|]. simpl in Hb.
    pose proof (Hhd e' eq_refl) as Hee'.
    case_bool_decide; [|by simplify_eq/=].
    apply sorted_by_cons in Hl as [Hhd' _].
    apply (Htrans e e' b); [set_solver|set_solver| |done|by apply Hhd'].
    destruct l; simplify_eq/=. set_solver.
  - apply IH; [|done]. intros a b c Ha Hb Hc. apply Htrans; set_solver.
Qed.

Lemma remove_first_subset (s : list byte) (l : list (list byte)) :
  remove_first s l ⊆ l.
Proof.
  induction l as [|e l IH]; simpl; [done|].
  case_bool_decide; set_solver.
Qed.

Lemma remove_each_sorted (ord : list byte -> list byte -> Z)
    (ln : list (list byte)) :
  forall l,
    (forall a b c, a ∈ l -> b ∈ l -> c ∈ l ->
                   ord a b <= 0 -> ord b c <= 0 -> ord a c <= 0) ->
    sorted_by ord l -> sorted_by ord (remove_each ln l).
Proof.
  induction ln as [|s ln IH]; intros l Htrans Hl; [done|].
  unfold remove_each. simpl. apply IH.
  - intros a b c Ha Hb Hc. pose proof (remove_first_subset s l).
    apply Htrans; set_solver.
  - by apply remove_first_sorted.
Qed.

(** The order of a list and the order of the array that holds it. *)
Lemma holds_in_order (order_func : match_fn)
    (ord : list byte -> list byte -> Z) (l : list (list byte))
    (pas : array_strings) :
  holds l pas ->
  (forall m1 p1 m2 p2 s1 s2,
     s1 ∈ l -> s2 ∈ l -> cstr m1 p1 = Some s1 -> cstr m2 p2 = Some s2 ->
     order_func m1 p1 m2 p2 = Some (ord s1 s2)) ->
  in_order order_func pas <-> sorted_by ord l.
Proof.
  intros Hh Hord. split.
  - intros H i a b Ha Hb.
    destruct (H i) as (p & q & d & Hp & Hq & Hd & Hle).
    { rewrite (holds_usedptr _ _ Hh). apply lookup_lt_Some in Hb. lia. }
    destruct (holds_read _ _ _ _ Hh Ha) as [Hp' Hca].
    destruct (holds_read _ _ _ _ Hh Hb) as [Hq' Hcb].
    rewrite Hp in Hp'. rewrite Hq in Hq'. simplify_eq.
    rewrite (Hord _ _ _ _ a b) in Hd; try done;
      [by simplify_eq|by eapply list_elem_of_lookup_2..].
  - intros H i Hi. rewrite (holds_usedptr _ _ Hh) in Hi.
    destruct (lookup_lt_is_Some_2 l i) as [a Ha]; [lia|].
    destruct (lookup_lt_is_Some_2 l (S i)) as [b Hb]; [lia|].
    destruct (holds_read _ _ _ _ Hh Ha) as [Hp Hca].
    destruct (holds_read _ _ _ _ Hh Hb) as [Hq Hcb].
    eexists _, _, _. split; [done|]. split; [done|]. split.
    + apply (Hord _ _ _ _ a b); try done; by eapply list_elem_of_lookup_2.
    + by apply (H i a b).
Qed.

(** ** The order of the entries after a mutation *)

Lemma uchar_pos (x : byte) : x <> NUL -> 0 < uchar x.
Proof.
  intros H. pose proof (uchar_range x).
  destruct (decide (uchar x = 0)) as [E|]; [|lia].
  destruct H. by apply uchar_inj.
Qed.

Lemma byte_eqb_cases (x y : byte) :
  (Byte.eqb x y = true /\ x = y) \/
  (Byte.eqb x y = false /\ uchar x <> uchar y).
Proof.
  destruct (byte_eqb_spec x y) as [->|H]; [by left|right].
  split; [done|]. intros E. by apply uchar_inj in E.
Qed.

Lemma strcmp_bytes_trans (a : list byte) :
  forall b c, NUL ∉ a -> NUL ∉ b ->
              strcmp_bytes a b <= 0 -> strcmp_bytes b c <= 0 ->
              strcmp_bytes a c <= 0.
Proof.
  induction a as [|x a IH]; intros b c Ha Hb Hab Hbc.
  - destruct c as [|z c]; simpl; [done|]. pose proof (uchar_range z). lia.
  - assert (0 < uchar x) by (apply uchar_pos; set_solver).
    destruct b as [|y b]; simpl in Hab; [lia|].
    assert (0 < uchar y) by (apply uchar_pos; set_solver).
    destruct c as [|z c]; simpl in Hbc |- *; [lia|].
    destruct (byte_eqb_cases x y) as [[E1 Hxy]|[E1 Hxy]];
      destruct (byte_eqb_cases y z) as [[E2 Hyz]|[E2 Hyz]];
      destruct (byte_eqb_cases x z) as [[E3 Hxz]|[E3 Hxz]];
      rewrite E1 in Hab; rewrite E2 in Hbc; rewrite E3;
      try (subst; lia); try (subst; congruence).
    apply (IH b c); [set_solver|set_solver|done|done].
Qed.

Lemma strip_sign_nonul (e : list byte) : NUL ∉ e -> NUL ∉ strip_sign e.
Proof.
  destruct e as [|c e]; [done|]. simpl.
  destruct (Byte.eqb c ch_plus || Byte.eqb c ch_minus); set_solver.
Qed.

Lemma group_ord_anti (a b : list byte) : 0 < group_ord a b -> group_ord b a <= 0.
Proof.
  unfold group_ord.
  pose proof (strcmp_bytes_opp (strip_sign a) (strip_sign b)). lia.
Qed.

Lemma host_ord_anti (a b : list byte) :
  (strip_sign a = strip_sign b -> ~ wildcard_entry b) ->
  0 < host_ord a b -> host_ord b a <= 0.
Proof.
  intros Hw Hab. destruct (Z.le_gt_cases (host_ord b a) 0) as [|Hba]; [done|].
  unfold host_ord in Hab, Hba.
  destruct (host_rev_both_above _ _ Hab Hba) as [E Hl].
  apply (f_equal reverse) in E. rewrite !reverse_involutive in E.
  destruct (Hw E). rewrite E in Hl. by apply last_reverse_head.
Qed.

Lemma attr_in_order_sorted (order_func : match_fn)
    (ord : list byte -> list byte -> Z) (l : list (list byte))
    (attr : attribute) :
  attr_holds l attr ->
  (forall m1 p1 m2 p2 s1 s2,
     s1 ∈ l -> s2 ∈ l -> cstr m1 p1 = Some s1 -> cstr m2 p2 = Some s2 ->
     order_func m1 p1 m2 p2 = Some (ord s1 s2)) ->
  attr_in_order order_func attr -> sorted_by ord l.
Proof.
  unfold attr_holds, attr_in_order. destruct (at_arst attr) as [pas|].
  - intros Hh Hord H. by apply (holds_in_order order_func ord l pas).
  - intros -> _ _. apply sorted_by_nil.
Qed.

Lemma orders_by_on (order_func : match_fn)
    (ord : list byte -> list byte -> Z) (l : list (list byte)) :
  orders_by order_func ord -> Forall (fun s => s <> []) l ->
  forall m1 p1 m2 p2 s1 s2,
    s1 ∈ l -> s2 ∈ l -> cstr m1 p1 = Some s1 -> cstr m2 p2 = Some s2 ->
    order_func m1 p1 m2 p2 = Some (ord s1 s2).
Proof.
  intros Hord Hne m1 p1 m2 p2 s1 s2 H1 H2 Hc1 Hc2.
  rewrite Forall_forall in Hne. apply Hord; auto.
Qed.

(** An Add keeps the entries in order when the order function never puts
    two different strings behind each other both ways. *)
Lemma set_allacl_add_in_order (E : extern) (A : allocator)
    (post : attribute -> attribute) (order_func : match_fn)
    (ord : list byte -> list byte -> Z)
    (attr new : attribute) (newpas : array_strings)
    (l ln : list (list byte)) :
  attr_holds l attr -> gives ln new E newpas ->
  at_arst attr <> None \/ malloc_pas A = true ->
  ~ duplicate l ln -> grants_add A -> orders_by order_func ord ->
  Forall (fun s => s <> []) l -> Forall (fun s => s <> []) ln ->
  bufsize_of attr + 2 * as_next newpas < 2 ^ 31 ->
  3 * Z.of_nat (length l + length ln) < 2 ^ 31 ->
  attr_in_order order_func attr ->
  (forall a b, a ∈ l ++ ln -> b ∈ ln -> a <> b ->
               0 < ord a b -> ord b a <= 0) ->
  exists pas',
    set_allacl E A post order_func attr new INCR =
    Some (PBSE_NONE, post (with_arst attr pas')) /\
    holds (add_by ord ln l) pas' /\ in_order order_func pas'.
Proof.
  intros Hattr Hnew Halloc Hnodup Hgrants Hord Hne Hnen Hbuf Hslots Hin Hanti.
  destruct (set_allacl_add_by E A post order_func ord attr new newpas l ln)
    as (pas' & Hset & Hh'); try done.
  exists pas'. split; [done|]. split; [done|].
  apply (holds_in_order order_func ord _ pas' Hh').
  - apply orders_by_on; [done|]. rewrite add_by_perm.
    by apply Forall_app.
  - apply add_by_sorted; [|done|done].
    apply (attr_in_order_sorted order_func ord l attr); [done| |done].
    by apply orders_by_on.
Qed.

Lemma group_order_on (l : list (list byte)) :
  forall m1 p1 m2 p2 s1 s2,
    s1 ∈ l -> s2 ∈ l -> cstr m1 p1 = Some s1 -> cstr m2 p2 = Some s2 ->
    group_order m1 p1 m2 p2 = Some (group_ord s1 s2).
Proof. intros m1 p1 m2 p2 s1 s2 _ _. apply group_order_bytes. Qed.

(** [set_gacl] keeps a Group ACL in the order of [group_order] through an
    Add: when the entries are in order before an Add without a duplicate
    that is granted its memory, they are in order after it. *)
Theorem group_add_keeps_order (E : extern) (A : allocator)
    (post : attribute -> attribute)
    (attr new : attribute) (newpas : array_strings)
    (l ln : list (list byte)) :
  attr_holds l attr -> gives ln new E newpas ->
  at_arst attr <> None \/ malloc_pas A = true ->
  ~ duplicate l ln -> grants_add A ->
  Forall (fun s => s <> []) l -> Forall (fun s => s <> []) ln ->
  bufsize_of attr + 2 * as_next newpas < 2 ^ 31 ->
  3 * Z.of_nat (length l + length ln) < 2 ^ 31 ->
  attr_in_order group_order attr ->
  exists pas' l',
    set_gacl E A post attr new INCR =
    Some (PBSE_NONE, post (with_arst attr pas')) /\
    holds l' pas' /\ l' ≡ₚ l ++ ln /\ in_order group_order pas'.
Proof.
  intros Hattr Hnew Halloc Hnodup Hgrants Hne Hnen Hbuf Hslots Hin.
  destruct (set_allacl_add_in_order E A post group_order group_ord attr new
              newpas l ln) as (pas' & Hset & Hh' & Hin'); try done.
  - apply group_order_orders.
  - intros a b _ _ _. apply group_ord_anti.
  - exists pas', (add_by group_ord ln l). split; [done|]. split; [done|].
    split; [apply add_by_perm|done].
Qed.

(** [set_gacl] keeps a Group ACL in the order of [group_order] through a
    Remove: the entries that stay are in order when the entries were. *)
Theorem group_remove_keeps_order (E : extern) (A : allocator)
    (post : attribute -> attribute)
    (attr new : attribute) (newpas : array_strings)
    (l ln : list (list byte)) :
  attr_holds l attr -> gives ln new E newpas ->
  at_arst attr <> None \/ malloc_pas A = true ->
  attr_in_order group_order attr ->
  exists pas',
    set_gacl E A post attr new DECR =
    Some (PBSE_NONE, post (with_arst attr pas')) /\
    holds (remove_each ln l) pas' /\ in_order group_order pas'.
Proof.
  intros Hattr Hnew Halloc Hin. unfold set_gacl, set_allacl.
  destruct (Z.eqb_spec (Z.land (at_flags new) (ATR_VFLAG_SET E)) 0) as [Hz|_].
  { by destruct Hnew. }
  rewrite (gives_arst _ _ _ _ Hnew).
  destruct (make_arst_holds A l attr newpas Hattr (gives_npointers _ _ _ _ Hnew)
              Halloc) as (pas & -> & Hh & _).
  pose proof (gives_reads _ _ _ _ Hnew) as Hr.
  destruct (remove_all_spec ln newpas (Z.to_nat (as_usedptr newpas)) l pas 0
              Hh Hr) as (pas' & Hrm & Hh').
  { destruct Hr as [-> _]. lia. }
  { lia. }
  change (Z.of_nat 0) with 0 in Hrm. rewrite Hrm. cbn [mbind option_bind].
  rewrite drop_0 in Hh'. exists pas'. split; [done|]. split; [done|].
  apply (holds_in_order group_order group_ord _ pas' Hh').
  { apply group_order_on. }
  apply remove_each_sorted.
  - intros a b c Ha Hb _. unfold group_ord. apply strcmp_bytes_trans.
    + apply strip_sign_nonul.
      by eapply Forall_forall in Ha; [|apply (holds_nonul _ _ Hh)].
    + apply strip_sign_nonul.
      by eapply Forall_forall in Hb; [|apply (holds_nonul _ _ Hh)].
  - apply (attr_in_order_sorted group_order group_ord l attr); [done| |done].
    apply group_order_on.
Qed.

(** [set_hostacl] keeps a Host ACL in the order of [host_order] through an
    Add, when no string of the operand that starts with '*' behind its sign
    is, behind its sign, the same as another string of the operand or of
    the list: entries in order before the Add are in order after it. *)
Theorem host_add_keeps_order (E : extern) (A : allocator)
    (post : attribute -> attribute)
    (attr new : attribute) (newpas : array_strings)
    (l ln : list (list byte)) :
  attr_holds l attr -> gives ln new E newpas ->
  at_arst attr <> None \/ malloc_pas A = true ->
  ~ duplicate l ln -> grants_add A ->
  Forall (fun s => s <> []) l -> Forall (fun s => s <> []) ln ->
  bufsize_of attr + 2 * as_next newpas < 2 ^ 31 ->
  3 * Z.of_nat (length l + length ln) < 2 ^ 31 ->
  attr_in_order host_order attr ->
  (forall a b, a ∈ l ++ ln -> b ∈ ln -> a <> b ->
               strip_sign a = strip_sign b -> ~ wildcard_entry b) ->
  exists pas' l',
    set_hostacl E A post attr new INCR =
    Some (PBSE_NONE, post (with_arst attr pas')) /\
    holds l' pas' /\ l' ≡ₚ l ++ ln /\ in_order host_order pas'.
Proof.
  intros Hattr Hnew Halloc Hnodup Hgrants Hne Hnen Hbuf Hslots Hin Hw.
  destruct (set_allacl_add_in_order E A post host_order host_ord attr new
              newpas l ln) as (pas' & Hset & Hh' & Hin'); try done.
  - apply host_order_orders.
  - intros a b Ha Hb Hab. apply host_ord_anti. by apply Hw.
  - exists pas', (add_by host_ord ln l). split; [done|]. split; [done|].
    split; [apply add_by_perm|done].
Qed.

(** ** An Add and the Remove of what it added *)

Lemma sublist_same_length (l1 l2 : list (list byte)) :
  sublist l1 l2 -> (length l2 <= length l1)%nat -> l1 = l2.
Proof.
  induction 1 as [|x l1 l2 _ IH|x l1 l2 Hs _]; intros Hl; simpl in *.
  - done.
  - f_equal. apply IH. lia.
  - apply sublist_length in Hs. lia.
Qed.

Lemma sublist_remove_first (s : list byte) (l l' : list (list byte)) :
  sublist l l' -> s ∉ l -> sublist l (remove_first s l').
Proof.
  induction 1 as [|x l1 l2 _ IH|x l1 l2 Hs IH]; intros Hn; simpl.
  - done.
  - rewrite bool_decide_eq_false_2 by set_solver.
    apply sublist_skip, IH. set_solver.
  - case_bool_decide; [done|]. by apply sublist_cons, IH.
Qed.

Lemma remove_first_perm (s : list byte) (l : list (list byte)) :
  s ∈ l -> l ≡ₚ s :: remove_first s l.
Proof.
  induction l as [|x l IH]; intros Hs; [by apply elem_of_nil in Hs|]. simpl.
  case_bool_decide as Hx; [by subst|].
  rewrite Permutation_swap. f_equiv. apply IH. set_solver.
Qed.

(** Taking out, one by one, the strings that were added gives back the
    list. *)
Lemma remove_each_restores (ln : list (list byte)) :
  forall l l' : list (list byte),
    sublist l l' -> l' ≡ₚ l ++ ln -> ~ duplicate l ln ->
    remove_each ln l' = l.
Proof.
  induction ln as [|s ln IH]; intros l l' Hsub Hperm Hnd.
  - rewrite app_nil_r in Hperm. simpl. symmetry.
    apply sublist_same_length; [done|]. by rewrite Hperm.
  - rewrite remove_each_cons.
    assert (s ∉ l) as Hsl.
    { intros Hs. apply Hnd. right. exists s. set_solver. }
    apply IH.
    + by apply sublist_remove_first.
    + apply (Permutation_cons_inv (a := s)).
      rewrite <-remove_first_perm.
      * by rewrite Hperm, <-Permutation_middle.
      * rewrite Hperm. set_solver.
    + intros [Hd|(x & Hx & Hx')].
      * apply Hnd. left. intros Hn. apply Hd.
        by apply NoDup_cons in Hn as [_ ?].
      * apply Hnd. right. exists x. set_solver.
Qed.

Lemma add_by_sublist (ord : list byte -> list byte -> Z)
    (ln : list (list byte)) :
  forall l, sublist l (add_by ord ln l).
Proof.
  induction ln as [|s ln IH]; intros l; [done|].
  unfold add_by. simpl. etrans; [|apply IH]. apply insert_middle_sublist.
Qed.

(** A Remove on an attribute that has its array of strings. *)
Lemma set_allacl_remove (E : extern) (A : allocator)
    (post : attribute -> attribute) (order_func : match_fn)
    (attr new : attribute) (pas newpas : array_strings)
    (l ln : list (list byte)) :
  at_arst attr = Some pas -> holds l pas -> gives ln new E newpas ->
  exists pas',
    set_allacl E A post order_func attr new DECR =
    Some (PBSE_NONE, post (with_arst attr pas')) /\
    holds (remove_each ln l) pas'.
Proof.
  intros Hpas Hh Hnew. unfold set_allacl, make_arst.
  destruct (Z.eqb_spec (Z.land (at_flags new) (ATR_VFLAG_SET E)) 0) as [Hz|_].
  { by destruct Hnew. }
  rewrite (gives_arst _ _ _ _ Hnew), Hpas.
  pose proof (gives_reads _ _ _ _ Hnew) as Hr.
  destruct (remove_all_spec ln newpas (Z.to_nat (as_usedptr newpas)) l pas 0
              Hh Hr) as (pas' & Hrm & Hh').
  { destruct Hr as [-> _]. lia. }
  { lia. }
  change (Z.of_nat 0) with 0 in Hrm. rewrite Hrm. cbn [mbind option_bind].
  rewrite drop_0 in Hh'. by exists pas'.
Qed.

(** ** What a mutation that has returned 0 has done *)

(** The search for the place of a new string, when it returns, returns a
    slot that is used or the first one that is not. *)
Lemma find_place_le (order_func : match_fn) (pas : array_strings)
    (mnew : block) (pnew : Z) :
  forall (fuel : nat) (k j : Z),
    0 <= k <= as_usedptr pas ->
    find_place fuel order_func pas mnew pnew k = Some j ->
    k <= j <= as_usedptr pas.
Proof.
  induction fuel as [|fuel IH]; intros k j Hk; cbn [find_place].
  - destruct (Z.ltb_spec k (as_usedptr pas)); [done|]. intros [= <-]. lia.
  - destruct (Z.ltb_spec k (as_usedptr pas)); [|intros [= <-]; lia].
    destruct (slot pas k) as [p|]; [|done]. cbn [mbind option_bind].
    destruct (order_func (buf_of pas) p mnew pnew) as [d|]; [|done].
    cbn [mbind option_bind].
    destruct (0 <? d); [intros [= <-]; lia|].
    intros Hj. apply IH in Hj; lia.
Qed.

Lemma insert_entry_inv (order_func : match_fn) (l ln : list (list byte))
    (pas newpas pas' : array_strings) (i : nat) (s : list byte) :
  holds l pas -> reads ln newpas -> ln !! i = Some s ->
  as_next pas + Z.of_nat (length s) + 1 <= as_bufsize pas ->
  (length l < length (as_string pas))%nat ->
  insert_entry order_func pas newpas (Z.of_nat i) = Some pas' ->
  exists j : nat,
    (j <= length l)%nat /\
    holds (take j l ++ s :: drop j l) pas' /\
    as_bufsize pas' = as_bufsize pas /\
    length (as_string pas') = length (as_string pas).
Proof.
  intros Hh [_ Hr] Hi Hroom Hslots.
  destruct (Hr _ _ Hi) as (pnew & Hslot & Hstr).
  unfold insert_entry. rewrite Hslot. cbn [mbind option_bind].
  destruct (find_place (Z.to_nat (as_usedptr pas)) order_func pas
              (buf_of newpas) pnew 0) as [jz|] eqn:Hfp; [|done].
  cbn [mbind option_bind].
  apply find_place_le in Hfp; [|rewrite (holds_usedptr _ _ Hh); lia].
  rewrite (holds_usedptr _ _ Hh) in Hfp.
  rewrite (strlen_Some _ _ _ Hstr), Hstr. cbn [mbind option_bind].
  destruct (put_entry_spec l pas (Z.to_nat jz) s Hh)
    as (pas'' & Hput & Hh' & Hsz); [lia|by eapply cstr_nonul|done|done|].
  rewrite Z2Nat.id in Hput by lia. rewrite Hput. intros [= <-].
  exists (Z.to_nat jz). split; [lia|]. by split.
Qed.

(** The loop of Add, when it ends, has put every string of the operand
    into the list. *)
Lemma insert_all_inv (order_func : match_fn) (ln : list (list byte))
    (newpas : array_strings) (fuel : nat) :
  reads ln newpas ->
  forall (l : list (list byte)) (pas pas' : array_strings) (i : nat),
    holds l pas ->
    as_next pas + Z.of_nat (length (packed (drop i ln))) <= as_bufsize pas ->
    (length l + (length ln - i) <= length (as_string pas))%nat ->
    insert_all fuel order_func pas newpas (Z.of_nat i) = Some pas' ->
    exists l', holds l' pas' /\ l' ≡ₚ l ++ drop i ln /\ sublist l l'.
Proof.
  intros Hr. pose proof Hr as [Hu _].
  induction fuel as [|fuel IH]; intros l pas pas' i Hh Hroom Hslots;
    cbn [insert_all]; rewrite Hu.
  - destruct (Z.ltb_spec (Z.of_nat i) (Z.of_nat (length ln))); [done|].
    intros [= <-]. exists l. rewrite drop_ge by lia. by rewrite app_nil_r.
  - destruct (Z.ltb_spec (Z.of_nat i) (Z.of_nat (length ln))) as [Hlt|Hge].
    + destruct (lookup_lt_is_Some_2 ln i) as [s Hs]; [lia|].
      rewrite (drop_S _ _ _ Hs), packed_cons, length_app in Hroom.
      simpl in Hroom.
      destruct (insert_entry order_func pas newpas (Z.of_nat i))
        as [pas1|] eqn:Hins; [|done].
      cbn [mbind option_bind].
      destruct (insert_entry_inv order_func l ln pas newpas pas1 i s)
        as (j & Hj & Hh1 & Hbs1 & Hlen1); try done; [lia|lia|].
      replace (Z.of_nat i + 1) with (Z.of_nat (S i)) by lia.
      intros Hrest.
      destruct (IH (take j l ++ s :: drop j l) pas1 pas' (S i))
        as (l' & Hh' & Hperm & Hsub); try done.
      * rewrite (holds_next _ _ Hh1), Hbs1.
        rewrite (holds_next _ _ Hh) in Hroom.
        pose proof (f_equal (fun x => length (packed x)) (take_drop j l)) as E.
        simpl in E. rewrite packed_app, length_app in E.
        lengths. lia.
      * rewrite Hlen1. lengths. rewrite length_take. lia.
      * exists l'. split; [done|]. split.
        -- rewrite Hperm, insert_middle_perm, (drop_S _ _ _ Hs).
           by rewrite <-Permutation_middle.
        -- etrans; [apply insert_middle_sublist|done].
    + intros [= <-]. exists l. rewrite drop_ge by lia. by rewrite app_nil_r.
Qed.

Lemma grow_buf_inv (A : allocator) (l : list (list byte))
    (pas pas1 : array_strings) (nsize : Z) :
  holds l pas -> 0 <= nsize -> as_bufsize pas + 2 * nsize < 2 ^ 31 ->
  grow_buf A pas nsize = Some (Next pas1) ->
  holds l pas1 /\ as_next pas1 + nsize <= as_bufsize pas1.
Proof.
  intros Hh Hn Hbuf. destruct (realloc_buf A) as [fresh|] eqn:Hre.
  - destruct (grow_buf_ok A l pas nsize Hh Hn) as (pas1' & -> & H);
      [by rewrite Hre|done|].
    by intros [= <-].
  - unfold grow_buf. rewrite Hre.
    pose proof Hh as [Hnl Hu Hnp Hnx Hbs [rest Hb] [slots Hstr] [Hi1 Hi2]].
    assert (0 <= as_next pas <= as_bufsize pas) as Hused.
    { rewrite Hnx, Hbs, Hb, length_app. lia. }
    rewrite (int_small (as_next pas)) by lia.
    rewrite (int_small (as_bufsize pas - as_next pas)) by lia.
    rewrite (ulong_small (as_bufsize pas - as_next pas)) by lia.
    destruct (Z.ltb_spec (as_bufsize pas - as_next pas) nsize); [done|].
    intros [= <-]. split; [done|lia].
Qed.

Lemma grow_ptrs_inv (A : allocator) (l : list (list byte))
    (pas pas2 : array_strings) (n : nat) :
  holds l pas -> 3 * Z.of_nat (length l + n) < 2 ^ 31 ->
  grow_ptrs A pas (Z.of_nat n) = Next pas2 ->
  holds l pas2 /\
  as_next pas2 = as_next pas /\ as_bufsize pas2 = as_bufsize pas /\
  (length l + n <= length (as_string pas2))%nat.
Proof.
  intros Hh Hslots. destruct (realloc_pas A) eqn:Hre.
  - destruct (grow_ptrs_ok A l pas n Hh Hre Hslots) as (pas2' & -> & H).
    by intros [= <-].
  - unfold grow_ptrs. rewrite Hre.
    pose proof Hh as [Hnl Hu Hnp Hnx Hbs [rest Hb] [slots Hstr] [Hi1 Hi2]].
    rewrite Hu. rewrite int_small by lia.
    destruct (Z.ltb_spec (as_npointers pas)
                (Z.of_nat (length l) + Z.of_nat n)) as [Hlt|Hge]; [done|].
    intros [= <-]. split; [done|]. split; [done|]. split; [done|].
    rewrite Hnp in Hge. lia.
Qed.

Lemma grow_buf_return (A : allocator) (pas : array_strings) (nsize : Z)
    (e : retcode) :
  grow_buf A pas nsize = Some (Return e) -> e = PBSE_SYSTEM.
Proof.
  unfold grow_buf. destruct (_ <? _); [|done].
  destruct (realloc_buf A); [|by intros [= <-]].
  by destruct (each_slot _ _ _ _ _).
Qed.

Lemma grow_ptrs_return (A : allocator) (pas : array_strings) (n : Z)
    (e : retcode) :
  grow_ptrs A pas n = Return e -> e = PBSE_SYSTEM.
Proof.
  unfold grow_ptrs. destruct (_ <? _); [|done].
  destruct (realloc_pas A); [done|by intros [= <-]].
Qed.

(** An Add that has returned 0 had no duplicate, and has left an array
    that holds the old strings in their order and the new ones among
    them. *)
Lemma incr_case_inv (A : allocator) (order_func : match_fn)
    (l ln : list (list byte)) (pas newpas pas' : array_strings) :
  holds l pas -> reads ln newpas ->
  Z.of_nat (length (packed ln)) <= as_next newpas < 2 ^ 31 ->
  as_bufsize pas + 2 * as_next newpas < 2 ^ 31 ->
  3 * Z.of_nat (length l + length ln) < 2 ^ 31 ->
  incr_case A order_func pas newpas = Some (PBSE_NONE, pas') ->
  ~ duplicate l ln /\
  exists l', holds l' pas' /\ l' ≡ₚ l ++ ln /\ sublist l l'.
Proof.
  intros Hh Hr Hnext Hbuf Hslots. unfold incr_case.
  destruct (chk_dup_acl_spec l ln pas newpas (holds_reads _ _ Hh) Hr)
    as (b & -> & _ & Hf).
  destruct b; [done|]. cbn [mbind option_bind].
  rewrite (ulong_small (as_next newpas)) by lia.
  destruct (grow_buf A pas (as_next newpas)) as [[e|pas1]|] eqn:Hgrow;
    cbn [mbind option_bind]; [|  |done].
  { apply grow_buf_return in Hgrow. by subst e. }
  destruct (grow_buf_inv A l pas pas1 (as_next newpas) Hh) as [Hh1 Hroom];
    [lia|done|done|].
  pose proof Hr as [Hun _]. rewrite Hun.
  destruct (grow_ptrs A pas1 (Z.of_nat (length ln))) as [e|pas2] eqn:Hptrs.
  { apply grow_ptrs_return in Hptrs. by subst e. }
  destruct (grow_ptrs_inv A l pas1 pas2 (length ln) Hh1 Hslots Hptrs)
    as (Hh2 & Hnx2 & Hbs2 & Hslots2).
  destruct (insert_all (Z.to_nat (Z.of_nat (length ln))) order_func pas2
              newpas 0) as [pas3|] eqn:Hins; [|done].
  cbn [mbind option_bind]. intros [= <-]. split; [by apply Hf|].
  destruct (insert_all_inv order_func ln newpas
              (Z.to_nat (Z.of_nat (length ln))) Hr l pas2 pas3 0 Hh2)
    as (l' & Hh' & Hperm & Hsub); [rewrite drop_0; lia|lia|done|].
  rewrite drop_0 in Hperm. by exists l'.
Qed.

Lemma make_arst_inv (A : allocator) (l : list (list byte))
    (attr : attribute) (newpas pas : array_strings) :
  attr_holds l attr -> 0 <= as_npointers newpas < 2 ^ 31 ->
  make_arst A attr newpas = Some pas ->
  holds l pas /\ as_bufsize pas = bufsize_of attr.
Proof.
  intros Hattr Hn Hmade.
  assert (at_arst attr <> None \/ malloc_pas A = true) as Halloc.
  { unfold make_arst in Hmade. destruct (at_arst attr); [by left|].
    destruct (malloc_pas A); [by right|done]. }
  destruct (make_arst_holds A l attr newpas Hattr Hn Halloc)
    as (pas0 & Hm & Hh & Hbs & _).
  by simplify_eq.
Qed.

(** The result of [set_allacl] is the one of the case of its operator. *)
Lemma set_allacl_returned_0 (E : extern) (A : allocator)
    (post : attribute -> attribute) (order_func : match_fn)
    (attr new : attribute) (newpas : array_strings) (op : batch_op)
    (l ln : list (list byte)) (attr' : attribute) :
  attr_holds l attr -> gives ln new E newpas ->
  set_allacl E A post order_func attr new op = Some (PBSE_NONE, attr') ->
  exists pas pas',
    holds l pas /\ as_bufsize pas = bufsize_of attr /\
    attr' = post (with_arst attr pas') /\
    match op with
    | SET =>
        f ← set_case A pas newpas;
        match f with
        | Return r => Some r
        | Next pas0 => incr_case A order_func pas0 newpas
        end
    | INCR => incr_case A order_func pas newpas
    | DECR =>
        pas1 ← remove_all (Z.to_nat (as_usedptr newpas)) pas newpas 0;
        Some (PBSE_NONE, pas1)
    | _ => Some (PBSE_INTERNAL, pas)
    end = Some (PBSE_NONE, pas').
Proof.
  intros Hattr Hnew. unfold set_allacl.
  destruct (Z.eqb_spec (Z.land (at_flags new) (ATR_VFLAG_SET E)) 0) as [Hz|_].
  { by destruct Hnew. }
  rewrite (gives_arst _ _ _ _ Hnew).
  destruct (make_arst A attr newpas) as [pas|] eqn:Hmade; [|done].
  destruct (make_arst_inv A l attr newpas pas Hattr
              (gives_npointers _ _ _ _ Hnew) Hmade) as [Hh Hbs].
  match goal with
  | |- context [mbind _ ?r] => destruct r as [[e pas']|] eqn:Hr; [|done]
  end.
  cbn [mbind option_bind]. intros Hret. exists pas, pas'.
  split; [done|]. split; [done|].
  destruct e; simplify_eq. done.
Qed.

(** An Add that has returned 0. *)
Lemma set_allacl_add_inv (E : extern) (A : allocator)
    (post : attribute -> attribute) (order_func : match_fn)
    (attr new : attribute) (newpas : array_strings)
    (l ln : list (list byte)) (attr' : attribute) :
  attr_holds l attr -> gives ln new E newpas ->
  bufsize_of attr + 2 * as_next newpas < 2 ^ 31 ->
  3 * Z.of_nat (length l + length ln) < 2 ^ 31 ->
  set_allacl E A post order_func attr new INCR = Some (PBSE_NONE, attr') ->
  ~ duplicate l ln /\
  exists pas' l',
    attr' = post (with_arst attr pas') /\
    holds l' pas' /\ l' ≡ₚ l ++ ln /\ sublist l l'.
Proof.
  intros Hattr Hnew Hbuf Hslots Hret.
  destruct (set_allacl_returned_0 E A post order_func attr new newpas INCR
              l ln attr' Hattr Hnew Hret) as (pas & pas' & Hh & Hbs & -> & Hi).
  destruct (incr_case_inv A order_func l ln pas newpas pas' Hh
              (gives_reads _ _ _ _ Hnew) (gives_next _ _ _ _ Hnew))
    as (Hnd & l' & Hh' & Hperm & Hsub); [lia|done|done|].
  split; [done|]. by exists pas', l'.
Qed.

(** The [SET] case, when it does not fail for lack of memory, has cleared
    the array. *)
Lemma set_case_inv (A : allocator) (l : list (list byte))
    (pas newpas : array_strings) (f : flow (retcode * array_strings)
                                            array_strings) :
  holds l pas -> 0 <= as_next newpas ->
  as_next newpas + as_next newpas / 2 < 2 ^ 31 ->
  set_case A pas newpas = Some f ->
  match f with
  | Return (e, pas0) =>
      e = PBSE_SYSTEM \/
      (e = PBSE_NONE /\ as_usedptr newpas = 0 /\ holds [] pas0)
  | Next pas0 =>
      as_usedptr newpas <> 0 /\ holds [] pas0 /\
      as_next newpas <= as_bufsize pas0 /\
      as_bufsize pas0 <=
      Z.max (as_bufsize pas) (as_next newpas + as_next newpas / 2)
  end.
Proof.
  intros Hh Hn0 Hn Hset.
  set (A1 := {| malloc_pas := malloc_pas A;
                malloc_buf := Some [];
                realloc_buf := realloc_buf A;
                realloc_pas := realloc_pas A;
                freed_buf := freed_buf A |}).
  assert ((exists pas0, f = Return (PBSE_SYSTEM, pas0)) \/
          exists A', is_Some (malloc_buf A') /\
                     set_case A' pas newpas = Some f) as [[pas0 ->]|H].
  { destruct (malloc_buf A) as [fresh|] eqn:Hm.
    - right. exists A. split; [by rewrite Hm|done].
    - assert ((exists pas0,
                 set_case A pas newpas = Some (Return (PBSE_SYSTEM, pas0))) \/
              set_case A pas newpas = set_case A1 pas newpas) as [[pas0 H]|H].
      { unfold set_case. rewrite Hm. unfold A1 at 1. cbn [malloc_buf].
        destruct (each_slot _ _ _ _ _) as [ptrs|]; [|by right].
        cbn [mbind option_bind as_usedptr as_bufsize as_buf as_npointers].
        destruct (as_usedptr newpas =? 0); [by right|].
        destruct (_ <? _); [left; by eexists|by right]. }
      + left. exists pas0. congruence.
      + right. exists A1. split; [by eexists|congruence]. }
  { by left. }
  destruct H as (A' & Hm & Hset').
  destruct (set_case_ok A' l pas newpas Hh Hn0 Hn Hm) as (f' & Hf' & H).
  rewrite Hset' in Hf'. simplify_eq.
  destruct f' as [[e pas0]|pas0]; [right|]; done.
Qed.

(** A Replace that has returned 0 had an operand without two equal
    strings, and has left an array that holds the strings of the operand
    and nothing else. *)
Lemma set_allacl_replace_inv (E : extern) (A : allocator)
    (post : attribute -> attribute) (order_func : match_fn)
    (attr new : attribute) (newpas : array_strings)
    (l ln : list (list byte)) (attr' : attribute) :
  attr_holds l attr -> gives ln new E newpas ->
  bufsize_of attr + 2 * as_next newpas < 2 ^ 31 ->
  4 * as_next newpas < 2 ^ 31 ->
  3 * Z.of_nat (length ln) < 2 ^ 31 ->
  set_allacl E A post order_func attr new SET = Some (PBSE_NONE, attr') ->
  NoDup ln /\
  exists pas' l',
    attr' = post (with_arst attr pas') /\ holds l' pas' /\ l' ≡ₚ ln.
Proof.
  intros Hattr Hnew Hbuf Hbuf4 Hslots Hret.
  pose proof (gives_next _ _ _ _ Hnew) as Hnext.
  destruct (set_allacl_returned_0 E A post order_func attr new newpas SET
              l ln attr' Hattr Hnew Hret) as (pas & pas' & Hh & Hbs & -> & Hs).
  assert (0 <= as_next newpas / 2 <= as_next newpas) as Hhalf.
  { split; [apply Z.div_pos; lia|apply Z.div_le_upper_bound; lia]. }
  destruct (set_case A pas newpas) as [f|] eqn:Hset; [|done].
  cbn [mbind option_bind] in Hs.
  apply (set_case_inv A l) in Hset; [|done|lia|lia].
  destruct f as [[e pas0]|pas0].
  - simplify_eq. destruct Hset as [?|(_ & Hu0 & Hh0)]; [done|].
    rewrite (gives_usedptr _ _ _ _ Hnew) in Hu0.
    destruct ln; [|simpl in Hu0; lia].
    split; [constructor|]. by exists pas', [].
  - destruct Hset as (Hu0 & Hh0 & Hroom & Hbs0).
    destruct (incr_case_inv A order_func [] ln pas0 newpas pas' Hh0
                (gives_reads _ _ _ _ Hnew) Hnext)
      as (Hnd & l' & Hh' & Hperm & _); [|done|done|].
    { revert Hbs0 Hhalf. generalize (as_next newpas / 2). intros. lia. }
    split.
    + destruct (decide (NoDup ln)) as [?|Hno]; [done|].
      destruct Hnd. by left.
    + by exists pas', l'.
Qed.

(** An Add that has returned 0, followed by the Remove of the same
    operand, gives back the list of the entries as it was before the Add,
    whatever the order function and the allocator are.  The array of the
    attribute holds its strings one behind the other, the operand gives
    its strings, the size of the buffer and twice that of the operand
    stay below 2^31, as does three times the number of all the strings,
    and [post_attr_set] leaves the array of strings alone. *)
Theorem add_then_remove_gives_back (E : extern) (A A' : allocator)
    (post : attribute -> attribute) (order_func : match_fn)
    (attr new attr1 : attribute) (newpas : array_strings)
    (l ln : list (list byte)) :
  attr_holds l attr -> gives ln new E newpas ->
  bufsize_of attr + 2 * as_next newpas < 2 ^ 31 ->
  3 * Z.of_nat (length l + length ln) < 2 ^ 31 ->
  (forall a, at_arst (post a) = at_arst a) ->
  set_allacl E A post order_func attr new INCR = Some (PBSE_NONE, attr1) ->
  exists attr2,
    set_allacl E A' post order_func attr1 new DECR = Some (PBSE_NONE, attr2) /\
    attr_holds l attr2 /\ entries_of attr2 = Some <$> l.
Proof.
  intros Hattr Hnew Hbuf Hslots Hpost Hadd.
  destruct (set_allacl_add_inv E A post order_func attr new newpas l ln attr1
              Hattr Hnew Hbuf Hslots Hadd)
    as (Hnd & pas1 & l' & -> & Hh1 & Hperm & Hsub).
  destruct (set_allacl_remove E A' post order_func
              (post (with_arst attr pas1)) new pas1 newpas l' ln)
    as (pas2 & Hrem & Hh2); [|done|done|].
  { by rewrite Hpost. }
  rewrite (remove_each_restores ln l) in Hh2; [|done|done|done].
  eexists. split; [done|].
  assert (attr_holds l (post (with_arst (post (with_arst attr pas1)) pas2)))
    as Hattr2.
  { unfold attr_holds. by rewrite Hpost. }
  split; [done|]. by apply holds_entries_of.
Qed.

(** After a Replace that has returned 0, the attribute holds the strings
    of the operand and nothing else, and [acl_check] decides by them
    alone: with an operand that has a string it is the scan over them in
    the order in which they are stored, and the entries the attribute held
    before have no part in it; with an operand without a string the
    attribute has no entry.  The array of the attribute holds its strings
    one behind the other, the operand gives its strings, the size of the
    buffer and twice that of the operand stay below 2^31, as does four
    times the size of the operand and three times the number of its
    strings; [post_attr_set] marks the attribute as set and leaves its
    array of strings alone; the candidate of a User ACL is not empty. *)
Theorem acl_check_after_replace (E : extern) (A : allocator)
    (post : attribute -> attribute) (order_func : match_fn)
    (attr new attr' : attribute) (newpas : array_strings)
    (l ln : list (list byte)) (mn : block) (name : Z) (type : Z)
    (c : list byte) :
  attr_holds l attr -> gives ln new E newpas ->
  bufsize_of attr + 2 * as_next newpas < 2 ^ 31 ->
  4 * as_next newpas < 2 ^ 31 ->
  3 * Z.of_nat (length ln) < 2 ^ 31 ->
  (forall a, at_arst (post a) = at_arst a) ->
  (forall a, Z.land (at_flags (post a)) (ATR_VFLAG_SET E) <> 0) ->
  cstr mn name = Some c -> (acl_type_of E type = User -> c <> []) ->
  set_allacl E A post order_func attr new SET = Some (PBSE_NONE, attr') ->
  exists l',
    attr_holds l' attr' /\ l' ≡ₚ ln /\
    (ln <> [] ->
     acl_check E attr' (Some (mn, name)) type =
     Some (scan (match_bytes E (acl_type_of E type) c) l'
             (first_default E))) /\
    (ln = [] -> no_entries E attr').
Proof.
  intros Hattr Hnew Hbuf Hbuf4 Hslots Hpost Hset Hc Hu Hrep.
  destruct (set_allacl_replace_inv E A post order_func attr new newpas l ln
              attr' Hattr Hnew Hbuf Hbuf4 Hslots Hrep)
    as (_ & pas' & l' & -> & Hh' & Hperm).
  exists l'. split; [unfold attr_holds; by rewrite Hpost|].
  split; [done|]. split.
  - intros Hne. apply acl_check_scan; [|done|done].
    split; [apply Hset|]. split.
    + intros ->. by apply Permutation_nil_l in Hperm.
    + exists pas'. by rewrite Hpost.
  - intros ->. apply Permutation_nil_r in Hperm. subst l'. right.
    rewrite Hpost. cbn. by rewrite (holds_usedptr _ _ Hh').
Qed.

(** ** The decision of an ACL that is not one of hosts, users, groups or
    subnets *)

(** [acl_check] with a type code that is none of the four is the scan
    with [strcmp]. *)
Lemma acl_check_generic_scan (E : extern) (pattr : attribute) (mn : block)
    (name : Z) (type : Z) (l : list (list byte)) (c : list byte) :
  type <> ACL_Host E -> type <> ACL_User E -> type <> ACL_Group E ->
  type <> ACL_Subnet E ->
  has_list E pattr l -> cstr mn name = Some c ->
  acl_check E pattr (Some (mn, name)) type =
  Some (scan (strcmp_bytes c) l (first_default E)).
Proof.
  intros H1 H2 H3 H4 Hl Hc.
  rewrite (acl_check_scan E pattr mn name type l c Hl Hc);
    rewrite (acl_type_generic E type H1 H2 H3 H4); done.
Qed.

(** [strcmp] answers 0 on the candidate and an entry behind its sign
    exactly when the two are the same string. *)
Lemma strcmp_entry_eq (E : extern) (pattr : attribute) (mn : block)
    (name : Z) (l : list (list byte)) (c e : list byte) :
  has_list E pattr l -> cstr mn name = Some c -> e ∈ l ->
  strcmp_bytes c (strip_sign e) = 0 <-> c = strip_sign e.
Proof.
  intros (_ & _ & pas & _ & Hh) Hc He.
  apply strcmp_bytes_eq; [by eapply cstr_nonul|].
  apply strip_sign_nonul.
  pose proof (holds_nonul _ _ Hh) as Hn. rewrite Forall_forall in Hn.
  by apply Hn.
Qed.

(** C9: for a type code other than those of Host, User, Group and Subnet,
    [acl_check] on an attribute that is set and has entries matches an
    entry against the candidate by equality, byte by byte, of the
    candidate with the entry behind one leading '+' or '-'.  The first
    entry that is so equal to the candidate decides, with 0 (deny) when it
    starts with '-' and with 1 (allow) otherwise, whatever the entries
    behind it; when no entry is equal to the candidate, [acl_check]
    returns the default. *)
Theorem generic_acl_check_exact_match (E : extern) (pattr : attribute)
    (mn : block) (name : Z) (type : Z) (l : list (list byte))
    (c : list byte) :
  type <> ACL_Host E -> type <> ACL_User E -> type <> ACL_Group E ->
  type <> ACL_Subnet E ->
  has_list E pattr l -> cstr mn name = Some c ->
  (forall l1 e l2,
     l = l1 ++ e :: l2 ->
     Forall (fun e' => c <> strip_sign e') l1 -> c = strip_sign e ->
     acl_check E pattr (Some (mn, name)) type =
     Some (if bool_decide (hd NUL e = ch_minus) then 0 else 1)) /\
  (Forall (fun e => c <> strip_sign e) l ->
   acl_check E pattr (Some (mn, name)) type =
   Some (final_default l (first_default E))).
Proof.
  intros H1 H2 H3 H4 Hl Hc.
  rewrite (acl_check_generic_scan E pattr mn name type l c H1 H2 H3 H4 Hl Hc).
  split.
  - intros l1 e l2 -> Hno He. rewrite scan_first_match.
    + f_equal. destruct e as [|x e]; [done|]. simpl.
      by destruct (byte_eqb_spec x ch_minus); case_bool_decide.
    + rewrite Forall_forall in Hno. apply Forall_forall. intros e' He' Hz.
      apply (Hno e' He').
      apply (strcmp_entry_eq E pattr mn name _ c e' Hl Hc); [set_solver|done].
    + apply (strcmp_entry_eq E pattr mn name _ c e Hl Hc); [set_solver|done].
  - intros Hno. rewrite scan_no_match; [done|].
    rewrite Forall_forall in Hno. apply Forall_forall. intros e He Hz.
    apply (Hno e He).
    by apply (strcmp_entry_eq E pattr mn name l c e Hl Hc).
Qed.

(** C3 fails in the code.  An entry that is exactly "+" or "-" sets the
    default, and the match function is then called with the empty rest of
    the entry all the same: the branch of lines 257 to 262, whose comment
    says that the entry sets the default, has no [continue].  For a type
    code other than those of Host, User, Group and Subnet and the candidate
    that is the empty string, [strcmp] finds the two equal and the entry
    ends the scan: when no entry before it is empty behind its sign,
    [acl_check] returns 1 for "+" and 0 for "-", whatever the entries
    behind it are. *)
Theorem bare_sign_ends_the_scan (E : extern) (pattr : attribute)
    (mn : block) (name : Z) (type : Z) (l1 l2 : list (list byte))
    (sign : byte) :
  type <> ACL_Host E -> type <> ACL_User E -> type <> ACL_Group E ->
  type <> ACL_Subnet E ->
  has_list E pattr (l1 ++ [sign] :: l2) -> cstr mn name = Some [] ->
  sign = ch_plus \/ sign = ch_minus ->
  Forall (fun e => strip_sign e <> []) l1 ->
  acl_check E pattr (Some (mn, name)) type =
  Some (if bool_decide (sign = ch_plus) then 1 else 0).
Proof.
  intros H1 H2 H3 H4 Hl Hc Hsign Hno.
  rewrite (acl_check_generic_scan E pattr mn name type _ [] H1 H2 H3 H4 Hl Hc).
  rewrite scan_first_match.
  - by destruct Hsign as [-> | ->].
  - rewrite Forall_forall in Hno. apply Forall_forall. intros e He Hz.
    apply (Hno e He). symmetry.
    apply (strcmp_entry_eq E pattr mn name _ [] e Hl Hc); [set_solver|done].
  - by destruct Hsign as [-> | ->].
Qed.

(** ** Empty strings and the ends of the strings *)

(** Behind the sign of a string lies the string behind its sign; the
    character before it can be read when the one before the string can. *)
Lemma skip_sign_key_before (m : block) (p : Z) (e : list byte) :
  cstr m p = Some e -> (e = [] -> is_Some (load m (p - 1))) ->
  exists b, skip_sign m p = Some b /\ cstr m b = Some (strip_sign e) /\
            (strip_sign e = [] -> is_Some (load m (b - 1))).
Proof.
  intros Hc He. destruct e as [|x e].
  - unfold skip_sign. rewrite (cstr_load_head _ _ _ Hc).
    cbn [hd mbind option_bind]. exists p. split; [done|]. split; [done|].
    intros _. by apply He.
  - by apply skip_sign_key.
Qed.

Lemma host_order_bytes (m1 : block) (p1 : Z) (m2 : block) (p2 : Z)
    (s1 s2 : list byte) :
  cstr m1 p1 = Some s1 -> cstr m2 p2 = Some s2 ->
  (s1 = [] -> is_Some (load m1 (p1 - 1))) ->
  (s2 = [] -> is_Some (load m2 (p2 - 1))) ->
  host_order m1 p1 m2 p2 = Some (host_ord s1 s2).
Proof.
  intros H1 H2 Hn1 Hn2. unfold host_order, host_ord.
  destruct (skip_sign_key_before _ _ _ H1 Hn1) as (b1 & -> & Hk1 & He1).
  destruct (skip_sign_key_before _ _ _ H2 Hn2) as (b2 & -> & Hk2 & He2).
  cbn [mbind option_bind].
  rewrite (strlen_Some _ _ _ Hk1), (strlen_Some _ _ _ Hk2).
  cbn [mbind option_bind].
  pose proof (host_order_loop_rev (reverse (strip_sign s1))
                (reverse (strip_sign s2))
                (S (Z.to_nat (Z.of_nat (length (strip_sign s1)))))
                m1 b1 m2 b2) as H.
  rewrite !length_reverse in H. apply H.
  - by apply holds_rev_cstr.
  - by apply holds_rev_cstr.
  - intros E. apply He1. apply (f_equal reverse) in E.
    by rewrite reverse_involutive in E.
  - intros E. apply He2. apply (f_equal reverse) in E.
    by rewrite reverse_involutive in E.
  - lia.
  - lia.
Qed.

(** On an empty string [host_order] reads the character before the
    string.  Where there is none, because the string starts its block, the
    read is outside the block; where there is one, an empty first string
    sorts before every string. *)
Theorem host_order_reads_before_empty_string (m1 : block) (p1 : Z)
    (m2 : block) (p2 : Z) (s2 : list byte) :
  cstr m1 p1 = Some [] -> cstr m2 p2 = Some s2 -> s2 <> [] ->
  (load m1 (p1 - 1) = None ->
   host_order m1 p1 m2 p2 = None /\ host_order m2 p2 m1 p1 = None) /\
  (is_Some (load m1 (p1 - 1)) -> host_order m1 p1 m2 p2 = Some (-1)).
Proof.
  intros H1 H2 Hn2. split.
  - intros Hl.
    destruct (skip_sign_key _ _ _ H2 Hn2) as (b2 & Hb2 & Hk2 & He2).
    assert (skip_sign m1 p1 = Some p1) as Hb1.
    { unfold skip_sign. by rewrite (cstr_load_head _ _ _ H1). }
    unfold host_order. rewrite Hb1, Hb2. cbn [mbind option_bind].
    rewrite (strlen_Some _ _ _ Hk2), (strlen_Some _ _ _ H1).
    cbn [mbind option_bind length host_order_loop].
    replace (p1 + Z.of_nat 0 - 1) with (p1 - 1) by lia. rewrite Hl.
    split.
    + by destruct (load m2 (b2 + Z.of_nat (length (strip_sign s2)) - 1)).
    + done.
  - intros Hl. rewrite (host_order_bytes _ _ _ _ [] s2 H1 H2); [|done|done].
    unfold host_ord. simpl. by destruct (reverse (strip_sign s2)).
Qed.

Lemma host_order_reads_before_empty_string_witness :
  (load (lit "") (0 - 1) = None ->
   host_order (lit "") 0 (lit "a.example.com") 0 = None /\
   host_order (lit "a.example.com") 0 (lit "") 0 = None) /\
  (is_Some (load (lit "") (0 - 1)) ->
   host_order (lit "") 0 (lit "a.example.com") 0 = Some (-1)).
Proof.
  apply (host_order_reads_before_empty_string (lit "") 0 (lit "a.example.com")
           0 (bytes "a.example.com")); done.
Defined.

(** ** The order of users *)

Lemma int_of_char_nonul (x : byte) : x <> NUL -> int_of_char x <> 0.
Proof. intros H E. apply H. by apply int_of_char_inj. Qed.

Lemma user_order_loop_ord (k1 : list byte) :
  forall (k2 : list byte) (fuel : nat) (m1 : block) (s1 : Z) (m2 : block)
         (s2 : Z) (d : Z),
    cstr m1 s1 = Some k1 -> cstr m2 s2 = Some k2 ->
    (length k1 < fuel)%nat -> user_ord k1 k2 = Some d ->
    user_order_loop fuel m1 s1 m2 s2 = Some d.
Proof.
  induction k1 as [|x k1 IH]; intros k2 fuel m1 s1 m2 s2 d H1 H2 Hf Hd;
    (destruct fuel as [|fuel]; [simpl in Hf; lia|]); cbn [user_order_loop];
    rewrite (cstr_load_head _ _ _ H1), (cstr_load_head _ _ _ H2);
    cbn [hd mbind option_bind].
  - destruct k2 as [|y k2]; [done|]. simpl in Hd. simplify_eq. cbn [hd].
    assert (int_of_char y <> 0).
    { apply int_of_char_nonul. apply cstr_nonul in H2. set_solver. }
    change (int_of_char NUL) with 0.
    destruct (Z.eqb_spec (0 - int_of_char y) 0); [lia|]. cbn [negb].
    f_equal; lia.
  - assert (x <> NUL) as Hx by (apply cstr_nonul in H1; set_solver).
    pose proof (int_of_char_nonul x Hx).
    destruct k2 as [|y k2]; cbn [hd]; simpl in Hd.
    + simplify_eq. change (int_of_char NUL) with 0.
      destruct (Z.eqb_spec (int_of_char x - 0) 0); [lia|]. cbn [negb].
      f_equal; lia.
    + destruct (Z.eqb_spec (int_of_char x - int_of_char y) 0) as [E|E];
        cbn [negb]; [|done].
      rewrite (byte_eqb_ne _ _ Hx), orb_false_r.
      pose proof (cstr_tail _ _ _ _ H1) as H1'.
      pose proof (cstr_tail _ _ _ _ H2) as H2'.
      destruct (Byte.eqb x ch_at).
      * simplify_eq. apply host_order_bytes; [done|done| |].
        -- intros _. replace (s1 + 1 - 1) with s1 by lia.
           rewrite (cstr_load_head _ _ _ H1). by eexists.
        -- intros _. replace (s2 + 1 - 1) with s2 by lia.
           rewrite (cstr_load_head _ _ _ H2). by eexists.
      * apply (IH k2); [done|done|simpl in Hf; lia|done].
Qed.

Lemma user_ord_None (k1 : list byte) :
  forall k2, user_ord k1 k2 = None -> k1 = k2 /\ ch_at ∉ k1.
Proof.
  induction k1 as [|x k1 IH]; intros [|y k2] H; simpl in H; try done.
  - split; [done|set_solver].
  - destruct (Z.eqb_spec (int_of_char x - int_of_char y) 0) as [E|E]; [|done].
    assert (x = y) as -> by (apply int_of_char_inj; lia).
    destruct (byte_eqb_spec y ch_at) as [|Hat]; [done|].
    destruct (IH _ H) as [-> Hno]. split; [done|set_solver].
Qed.

(** [user_order] on two entries is [user_ord] on their contents behind
    the signs, where that has a value. *)
Lemma user_order_ord (m1 : block) (p1 : Z) (m2 : block) (p2 : Z)
    (e1 e2 : list byte) (d : Z) :
  cstr m1 p1 = Some e1 -> cstr m2 p2 = Some e2 ->
  user_ord (strip_sign e1) (strip_sign e2) = Some d ->
  user_order m1 p1 m2 p2 = Some d.
Proof.
  intros H1 H2 Hd. unfold user_order.
  destruct (skip_sign_strip _ _ _ H1) as (b1 & -> & Hb1).
  destruct (skip_sign_strip _ _ _ H2) as (b2 & -> & Hb2).
  cbn [mbind option_bind].
  apply (user_order_loop_ord _ _ _ _ _ _ _ _ Hb1 Hb2); [|done].
  apply cstr_length in Hb1. lia.
Qed.

Lemma user_order_orders : orders_on user_comparable user_order user_ord_of.
Proof.
  intros m1 p1 m2 p2 s1 s2 H1 H2 _ _ HP. unfold user_ord_of.
  destruct (user_ord (strip_sign s1) (strip_sign s2)) as [d|] eqn:Hd.
  - by apply (user_order_ord _ _ _ _ s1 s2).
  - destruct HP. by apply user_ord_None.
Qed.

(** [user_order] returns on two entries unless they are, behind their
    signs, the same string without '@'.  What it returns follows from the
    contents of the two strings: the difference of the first characters
    that differ when these come before an '@' that both have at the same
    place behind the same characters, and otherwise what [host_order]
    returns on what follows that '@'. *)
Theorem user_order_on_different_entries (m1 : block) (p1 : Z) (m2 : block)
    (p2 : Z) (e1 e2 : list byte) :
  cstr m1 p1 = Some e1 -> cstr m2 p2 = Some e2 ->
  ~ (strip_sign e1 = strip_sign e2 /\ ch_at ∉ strip_sign e1) ->
  exists d, user_order m1 p1 m2 p2 = Some d /\
            user_ord (strip_sign e1) (strip_sign e2) = Some d /\
            (forall u h1 h2,
               strip_sign e1 = u ++ ch_at :: h1 ->
               strip_sign e2 = u ++ ch_at :: h2 -> ch_at ∉ u ->
               d = host_ord h1 h2) /\
            (forall u x r1 y r2,
               strip_sign e1 = u ++ x :: r1 ->
               strip_sign e2 = u ++ y :: r2 -> ch_at ∉ u -> x <> y ->
               d = int_of_char x - int_of_char y).
Proof.
  intros H1 H2 Hne.
  destruct (user_ord (strip_sign e1) (strip_sign e2)) as [d|] eqn:Hd.
  2:{ by apply user_ord_None in Hd. }
  exists d. split; [|split; [done|split]].
  - by apply (user_order_ord _ _ _ _ e1 e2).
  - intros u h1 h2 E1 E2 Hu. rewrite E1, E2 in Hd. clear -Hd Hu.
    induction u as [|c u IH]; cbn [app user_ord] in Hd.
    + rewrite Z.sub_diag, byte_eqb_refl in Hd. cbn [Z.eqb] in Hd.
      by simplify_eq.
    + rewrite Z.sub_diag in Hd. cbn [Z.eqb] in Hd.
      rewrite byte_eqb_ne in Hd by set_solver. apply IH; [done|set_solver].
  - intros u x r1 y r2 E1 E2 Hu Hxy. rewrite E1, E2 in Hd. clear -Hd Hu Hxy.
    induction u as [|c u IH]; cbn [app user_ord] in Hd.
    + destruct (Z.eqb_spec (int_of_char x - int_of_char y) 0) as [E|E];
        [|by simplify_eq].
      destruct Hxy. apply int_of_char_inj. lia.
    + rewrite Z.sub_diag in Hd. cbn [Z.eqb] in Hd.
      rewrite byte_eqb_ne in Hd by set_solver. apply IH; [done|set_solver].
Qed.

Lemma user_order_on_different_entries_witness :
  exists d, user_order (lit "bob@a.example.com") 0
              (lit "+bob@b.example.com") 0 = Some d /\
            user_ord (strip_sign (bytes "bob@a.example.com"))
              (strip_sign (bytes "+bob@b.example.com")) = Some d /\
            (forall u h1 h2,
               strip_sign (bytes "bob@a.example.com") = u ++ ch_at :: h1 ->
               strip_sign (bytes "+bob@b.example.com") = u ++ ch_at :: h2 ->
               ch_at ∉ u -> d = host_ord h1 h2) /\
            (forall u x r1 y r2,
               strip_sign (bytes "bob@a.example.com") = u ++ x :: r1 ->
               strip_sign (bytes "+bob@b.example.com") = u ++ y :: r2 ->
               ch_at ∉ u -> x <> y -> d = int_of_char x - int_of_char y).
Proof.
  apply (user_order_on_different_entries (lit "bob@a.example.com") 0
           (lit "+bob@b.example.com") 0); [done|done|].
  intros [E _]. by vm_compute in E.
Defined.

(** On two empty strings [user_match] finds the two terminators equal and
    goes on to the character behind the terminator of the master: a read
    outside the block when the master ends its block. *)
Theorem user_match_reads_behind_empty_master (mc : block) (can : Z)
    (mm : block) (master : Z) :
  cstr mc can = Some [] -> cstr mm master = Some [] ->
  load mm (master + 1) = None ->
  user_match mc can mm master = None.
Proof.
  intros Hc Hm Hl. unfold user_match. cbn [user_match_loop].
  rewrite (cstr_load_head _ _ _ Hm), (cstr_load_head _ _ _ Hc).
  cbn [hd mbind option_bind]. rewrite byte_eqb_refl. cbn [negb].
  by rewrite Hl.
Qed.

Lemma user_match_reads_behind_empty_master_witness :
  user_match (lit "") 0 (lit "") 0 = None.
Proof.
  apply (user_match_reads_behind_empty_master (lit "") 0 (lit "") 0); done.
Defined.

(** ** The Add to a User ACL *)

Section on.
Variable P : list byte -> list byte -> Prop.
Variable order_func : match_fn.
Variable ord : list byte -> list byte -> Z.
Hypothesis Hord : orders_on P order_func ord.

Lemma find_place_on (l : list (list byte)) (pas : array_strings)
    (mnew : block) (pnew : Z) (s : list byte) :
  holds l pas -> Forall (fun t => t <> []) l ->
  cstr mnew pnew = Some s -> s <> [] -> (forall e, e ∈ l -> P e s) ->
  forall (fuel k : nat),
    (length l - k <= fuel)%nat -> (k <= length l)%nat ->
    find_place fuel order_func pas mnew pnew (Z.of_nat k) =
    Some (Z.of_nat (k + place ord s (drop k l))).
Proof.
  intros Hh Hne Hs Hsne HP.
  induction fuel as [|fuel IH]; intros k Hf Hk; cbn [find_place];
    rewrite (holds_usedptr _ _ Hh).
  - destruct (Z.ltb_spec (Z.of_nat k) (Z.of_nat (length l))); [lia|].
    rewrite drop_ge by lia. simpl. by rewrite Nat.add_0_r.
  - destruct (Z.ltb_spec (Z.of_nat k) (Z.of_nat (length l))) as [Hlt|Hge].
    + destruct (lookup_lt_is_Some_2 l k) as [e He]; [lia|].
      destruct (holds_read _ _ _ _ Hh He) as [Hslot Hstr].
      rewrite Hslot. cbn [mbind option_bind].
      assert (e ∈ l) as Hel by (by eapply list_elem_of_lookup_2).
      rewrite (Hord _ _ _ _ e s Hstr Hs);
        [|by eapply Forall_lookup_1 in Hne|done|by apply HP].
      cbn [mbind option_bind]. rewrite (drop_S _ _ _ He). cbn [place].
      destruct (0 <? ord e s); [by rewrite Nat.add_0_r|].
      replace (Z.of_nat k + 1) with (Z.of_nat (S k)) by lia.
      rewrite IH by lia. f_equal. lia.
    + rewrite drop_ge by lia. simpl. by rewrite Nat.add_0_r.
Qed.

Lemma insert_entry_on (l ln : list (list byte))
    (pas newpas : array_strings) (i : nat) (s : list byte) :
  holds l pas -> reads ln newpas ->
  Forall (fun t => t <> []) l -> ln !! i = Some s -> s <> [] ->
  (forall e, e ∈ l -> P e s) ->
  as_next pas + Z.of_nat (length s) + 1 <= as_bufsize pas ->
  (length l < length (as_string pas))%nat ->
  exists pas',
    insert_entry order_func pas newpas (Z.of_nat i) = Some pas' /\
    holds (insert_by ord s l) pas' /\
    as_bufsize pas' = as_bufsize pas /\
    length (as_string pas') = length (as_string pas).
Proof.
  intros Hh [_ Hr] Hne Hi Hsne HP Hroom Hslots.
  destruct (Hr _ _ Hi) as (pnew & Hslot & Hstr).
  unfold insert_entry. rewrite Hslot. cbn [mbind option_bind].
  pose proof (find_place_on l pas (buf_of newpas) pnew s Hh Hne Hstr Hsne HP
                (Z.to_nat (as_usedptr pas)) 0) as Hfp.
  change (Z.of_nat 0) with 0 in Hfp. rewrite Hfp.
  2:{ rewrite (holds_usedptr _ _ Hh). lia. }
  2:{ lia. }
  rewrite drop_0, Nat.add_0_l. cbn [mbind option_bind].
  rewrite (strlen_Some _ _ _ Hstr), Hstr. cbn [mbind option_bind].
  destruct (put_entry_spec l pas (place ord s l) s Hh)
    as (pas' & Hput & Hh' & Hsz);
    [apply place_le|by eapply cstr_nonul|done|done|].
  exists pas'. by split.
Qed.

Lemma insert_all_on (ln : list (list byte)) (newpas : array_strings)
    (fuel : nat) (l : list (list byte)) (pas : array_strings) (i : nat) :
  reads ln newpas -> Forall (fun t => t <> []) ln ->
  holds l pas -> Forall (fun t => t <> []) l ->
  ~ duplicate l (drop i ln) ->
  (forall a b, a ∈ l ++ drop i ln -> b ∈ drop i ln -> a <> b -> P a b) ->
  as_next pas + Z.of_nat (length (packed (drop i ln))) <= as_bufsize pas ->
  (length l + (length ln - i) <= length (as_string pas))%nat ->
  (length ln - i <= fuel)%nat -> (i <= length ln)%nat ->
  exists pas',
    insert_all fuel order_func pas newpas (Z.of_nat i) = Some pas' /\
    holds (add_by ord (drop i ln) l) pas'.
Proof.
  intros Hr Hnen. revert l pas i.
  induction fuel as [|fuel IH];
    intros l pas i Hh Hne Hnd HP Hroom Hslots Hfuel Hi.
  - exists pas. simpl. destruct Hr as [-> _].
    destruct (Z.ltb_spec (Z.of_nat i) (Z.of_nat (length ln))); [lia|].
    by rewrite drop_ge by lia.
  - simpl. pose proof Hr as [Hu _]. rewrite Hu.
    destruct (Z.ltb_spec (Z.of_nat i) (Z.of_nat (length ln))) as [Hlt|Hge].
    + destruct (lookup_lt_is_Some_2 ln i) as [s Hs]; [lia|].
      rewrite (drop_S _ _ _ Hs) in Hroom, Hnd, HP.
      rewrite packed_cons, length_app in Hroom. simpl in Hroom.
      assert (s <> []) as Hsne by (by eapply Forall_lookup_1 in Hnen).
      assert (s ∉ l) as Hsl.
      { intros Hin. apply Hnd. right. exists s. set_solver. }
      destruct (insert_entry_on l ln pas newpas i s)
        as (pas1 & -> & Hh1 & Hbs1 & Hlen1); try done; [|lia|lia|].
      { intros e He. apply HP; [set_solver|set_solver|by intros ->]. }
      cbn [mbind option_bind].
      replace (Z.of_nat i + 1) with (Z.of_nat (S i)) by lia.
      destruct (IH (insert_by ord s l) pas1 (S i))
        as (pas' & -> & Hh'); try done.
      * by apply insert_by_nonempty.
      * intros [Hd|(x & Hx & Hx')].
        -- apply Hnd. left. intros Hn. apply Hd.
           by apply NoDup_cons in Hn as [_ ?].
        -- rewrite insert_by_perm in Hx'.
           apply elem_of_cons in Hx' as [->|Hx'].
           ++ apply Hnd. left. intros Hn. by apply NoDup_cons in Hn as [? _].
           ++ apply Hnd. right. exists x. set_solver.
      * intros a b Ha Hb. apply HP; [|set_solver].
        rewrite insert_by_perm in Ha. set_solver.
      * rewrite (holds_next _ _ Hh1), Hbs1, insert_by_packed.
        rewrite (holds_next _ _ Hh) in Hroom. lia.
      * rewrite Hlen1, insert_by_length. lia.
      * lia.
      * lia.
      * exists pas'. split; [done|]. by rewrite (drop_S _ _ _ Hs).
    + exists pas. by rewrite drop_ge by lia.
Qed.

Lemma incr_case_on (A : allocator) (l ln : list (list byte))
    (pas newpas : array_strings) :
  holds l pas -> reads ln newpas ->
  Z.of_nat (length (packed ln)) <= as_next newpas < 2 ^ 31 ->
  ~ duplicate l ln -> grants_add A ->
  (forall a b, a ∈ l ++ ln -> b ∈ ln -> a <> b -> P a b) ->
  Forall (fun t => t <> []) l -> Forall (fun t => t <> []) ln ->
  as_bufsize pas + 2 * as_next newpas < 2 ^ 31 ->
  3 * Z.of_nat (length l + length ln) < 2 ^ 31 ->
  exists pas',
    incr_case A order_func pas newpas = Some (PBSE_NONE, pas') /\
    holds (add_by ord ln l) pas'.
Proof.
  intros Hh Hr Hnext Hnodup [Hrb Hrp] HP Hne Hnen Hbuf Hslots.
  unfold incr_case.
  destruct (chk_dup_acl_spec l ln pas newpas (holds_reads _ _ Hh) Hr)
    as (b & -> & Ht & _).
  destruct b; [by destruct Hnodup; apply Ht|]. cbn [mbind option_bind].
  rewrite (ulong_small (as_next newpas)) by lia.
  destruct (grow_buf_ok A l pas (as_next newpas) Hh)
    as (pas1 & -> & Hh1 & Hroom); [lia|done|done|].
  cbn [mbind option_bind].
  pose proof Hr as [Hun _]. rewrite Hun.
  destruct (grow_ptrs_ok A l pas1 (length ln) Hh1 Hrp Hslots)
    as (pas2 & -> & Hh2 & Hnx2 & Hbs2 & Hslots2).
  destruct (insert_all_on ln newpas (Z.to_nat (Z.of_nat (length ln))) l
              pas2 0 Hr Hnen Hh2 Hne) as (pas' & Hins & Hh').
  { by rewrite drop_0. }
  { by rewrite drop_0. }
  { rewrite drop_0. lia. }
  { lia. }
  { lia. }
  { lia. }
  change (Z.of_nat 0) with 0 in Hins. rewrite Hins.
  cbn [mbind option_bind]. rewrite drop_0 in Hh'. by exists pas'.
Qed.
End on.

(** [set_uacl] on a User ACL: an Add without a duplicate that is granted
    its memory returns 0 and leaves every string of the operand at its
    place in the order of [user_order], when no two different strings among
    the entries and the operand are, behind their signs, the same string
    without '@'.  On such two strings [user_order] would read behind their
    ends. *)
Theorem user_add_puts_entries_at_their_places (E : extern) (A : allocator)
    (post : attribute -> attribute)
    (attr new : attribute) (newpas : array_strings)
    (l ln : list (list byte)) :
  attr_holds l attr -> gives ln new E newpas ->
  at_arst attr <> None \/ malloc_pas A = true ->
  ~ duplicate l ln -> grants_add A ->
  Forall (fun s => s <> []) l -> Forall (fun s => s <> []) ln ->
  bufsize_of attr + 2 * as_next newpas < 2 ^ 31 ->
  3 * Z.of_nat (length l + length ln) < 2 ^ 31 ->
  (forall a b, a ∈ l ++ ln -> b ∈ ln -> a <> b -> user_comparable a b) ->
  exists pas',
    set_uacl E A post attr new INCR =
    Some (PBSE_NONE, post (with_arst attr pas')) /\
    holds (add_by user_ord_of ln l) pas' /\
    add_by user_ord_of ln l ≡ₚ l ++ ln /\
    sublist l (add_by user_ord_of ln l).
Proof.
  intros Hattr Hnew Halloc Hnodup Hgrants Hne Hnen Hbuf Hslots HP.
  pose proof (gives_reads _ _ _ _ Hnew) as Hr.
  unfold set_uacl, set_allacl.
  destruct (Z.eqb_spec (Z.land (at_flags new) (ATR_VFLAG_SET E)) 0) as [Hz|_].
  { by destruct Hnew. }
  rewrite (gives_arst _ _ _ _ Hnew).
  destruct (make_arst_holds A l attr newpas Hattr (gives_npointers _ _ _ _ Hnew)
              Halloc) as (pas & -> & Hh & Hbs & _).
  destruct (incr_case_on user_comparable user_order user_ord_of
              user_order_orders A l ln pas newpas Hh Hr
              (gives_next _ _ _ _ Hnew) Hnodup Hgrants HP Hne Hnen)
    as (pas' & -> & Hh'); [lia|done|].
  cbn [mbind option_bind]. exists pas'. split; [done|]. split; [done|].
  split; [apply add_by_perm|].
  clear. revert l. induction ln as [|s ln IH]; intros l; [done|].
  unfold add_by. simpl. etrans; [|apply IH]. apply insert_middle_sublist.
Qed.

(** ** Replace with an order function that answers on the operand *)

(** An order function that answers on the strings of a relation returns
    on the entries that stand in it. *)
Lemma orders_on_returns_entries (P : list byte -> list byte -> Prop)
    (order_func : match_fn) (ord : list byte -> list byte -> Z)
    (l ln : list (list byte)) :
  orders_on P order_func ord ->
  Forall (fun s => s <> []) (l ++ ln) ->
  (forall a b, a ∈ l ++ ln -> b ∈ ln -> a <> b -> P a b) ->
  returns_on_entries order_func l ln.
Proof.
  intros Hord Hne HP m1 p1 m2 p2 s1 s2 H1 H2 Hs1 Hs2 Hdiff.
  rewrite Forall_forall in Hne.
  rewrite (Hord _ _ _ _ s1 s2 H1 H2); [by eexists| | |by apply HP].
  - by apply Hne.
  - apply Hne. set_solver.
Qed.

(** The order of a list without two equal strings and the order of the
    array that holds it. *)
Lemma holds_in_order_nodup (order_func : match_fn)
    (ord : list byte -> list byte -> Z) (l : list (list byte))
    (pas : array_strings) :
  holds l pas -> NoDup l ->
  (forall m1 p1 m2 p2 s1 s2,
     s1 ∈ l -> s2 ∈ l -> s1 <> s2 ->
     cstr m1 p1 = Some s1 -> cstr m2 p2 = Some s2 ->
     order_func m1 p1 m2 p2 = Some (ord s1 s2)) ->
  in_order order_func pas <-> sorted_by ord l.
Proof.
  intros Hh Hnd Hord.
  assert (forall i a b, l !! i = Some a -> l !! S i = Some b -> a <> b)
    as Hadj.
  { intros i a b Ha Hb ->.
    pose proof (NoDup_lookup _ _ _ _ Hnd Ha Hb). lia. }
  split.
  - intros H i a b Ha Hb.
    destruct (H i) as (p & q & d & Hp & Hq & Hd & Hle).
    { rewrite (holds_usedptr _ _ Hh). apply lookup_lt_Some in Hb. lia. }
    destruct (holds_read _ _ _ _ Hh Ha) as [Hp' Hca].
    destruct (holds_read _ _ _ _ Hh Hb) as [Hq' Hcb].
    rewrite Hp in Hp'. rewrite Hq in Hq'. simplify_eq.
    rewrite (Hord _ _ _ _ a b) in Hd; try done;
      [by simplify_eq|by eapply list_elem_of_lookup_2..|by eapply Hadj].
  - intros H i Hi. rewrite (holds_usedptr _ _ Hh) in Hi.
    destruct (lookup_lt_is_Some_2 l i) as [a Ha]; [lia|].
    destruct (lookup_lt_is_Some_2 l (S i)) as [b Hb]; [lia|].
    destruct (holds_read _ _ _ _ Hh Ha) as [Hp Hca].
    destruct (holds_read _ _ _ _ Hh Hb) as [Hq Hcb].
    eexists _, _, _. split; [done|]. split; [done|]. split.
    + apply (Hord _ _ _ _ a b); try done;
        [by eapply list_elem_of_lookup_2..|by eapply Hadj].
    + by apply (H i a b).
Qed.

(** A Replace that is granted its memory returns 0 and leaves the strings
    of the operand, put into the empty list at their places. *)
Lemma set_allacl_replace_on (P : list byte -> list byte -> Prop)
    (E : extern) (A : allocator)
    (post : attribute -> attribute) (order_func : match_fn)
    (ord : list byte -> list byte -> Z)
    (attr new : attribute) (newpas : array_strings)
    (l ln : list (list byte)) :
  attr_holds l attr -> gives ln new E newpas ->
  at_arst attr <> None \/ malloc_pas A = true ->
  NoDup ln -> grants_replace A -> orders_on P order_func ord ->
  (forall a b, a ∈ ln -> b ∈ ln -> a <> b -> P a b) ->
  Forall (fun s => s <> []) ln ->
  bufsize_of attr + 2 * as_next newpas < 2 ^ 31 ->
  4 * as_next newpas < 2 ^ 31 ->
  3 * Z.of_nat (length ln) < 2 ^ 31 ->
  exists pas',
    set_allacl E A post order_func attr new SET =
    Some (PBSE_NONE, post (with_arst attr pas')) /\
    holds (add_by ord ln []) pas'.
Proof.
  intros Hattr Hnew Halloc Hnodup [Hmb Hgrants] Hord HP Hnen Hbuf Hbuf4
    Hslots.
  pose proof (gives_reads _ _ _ _ Hnew) as Hr.
  pose proof (gives_next _ _ _ _ Hnew) as Hnext.
  unfold set_allacl.
  destruct (Z.eqb_spec (Z.land (at_flags new) (ATR_VFLAG_SET E)) 0) as [Hz|_].
  { by destruct Hnew. }
  rewrite (gives_arst _ _ _ _ Hnew).
  destruct (make_arst_holds A l attr newpas Hattr (gives_npointers _ _ _ _ Hnew)
              Halloc) as (pas & -> & Hh & Hbs & _).
  assert (0 <= as_next newpas / 2 <= as_next newpas) as Hhalf.
  { split; [apply Z.div_pos; lia|apply Z.div_le_upper_bound; lia]. }
  destruct (set_case_ok A l pas newpas Hh) as (f & -> & Hf); [lia|lia|done|].
  cbn [mbind option_bind].
  destruct f as [[e pas0]|pas0].
  - destruct Hf as (-> & Hu0 & Hh0). exists pas0. split; [done|].
    rewrite (gives_usedptr _ _ _ _ Hnew) in Hu0.
    by destruct ln; [|simpl in Hu0; lia].
  - destruct Hf as (Hu0 & Hh0 & Hroom & Hbs0).
    destruct (incr_case_on P order_func ord Hord A [] ln pas0 newpas Hh0 Hr
                Hnext) as (pas' & -> & Hh'); try done.
    + intros [Hd|(s & _ & Hs)]; [done|]. by apply elem_of_nil in Hs.
    + revert Hbs0 Hhalf. generalize (as_next newpas / 2). intros. lia.
    + by exists pas'.
Qed.

(** A Replace returns 0 and leaves the strings of the operand and nothing
    else, each put at its place among those put before it, whatever the
    attribute held before, under these conditions: the array of the
    attribute holds its strings one behind the other, or there is none and
    it can be allocated; the operand gives its strings, no two of them are
    equal and none is empty; the allocator grants the memory the Replace
    asks for; on every two different strings of the operand the order
    function answers from their contents alone (for [user_order]: the two
    do not end together without '@' in both); the size of the buffer and
    twice that of the operand stay below 2^31, as do four times the size
    of the operand and three times the number of its strings.  The
    entries are then in the order of the order function, when it never
    puts two different strings of the operand behind each other both
    ways. *)
Theorem replace_leaves_the_operand (P : list byte -> list byte -> Prop)
    (E : extern) (A : allocator)
    (post : attribute -> attribute) (order_func : match_fn)
    (ord : list byte -> list byte -> Z)
    (attr new : attribute) (newpas : array_strings)
    (l ln : list (list byte)) :
  attr_holds l attr -> gives ln new E newpas ->
  at_arst attr <> None \/ malloc_pas A = true ->
  NoDup ln -> grants_replace A -> orders_on P order_func ord ->
  (forall a b, a ∈ ln -> b ∈ ln -> a <> b -> P a b) ->
  Forall (fun s => s <> []) ln ->
  bufsize_of attr + 2 * as_next newpas < 2 ^ 31 ->
  4 * as_next newpas < 2 ^ 31 ->
  3 * Z.of_nat (length ln) < 2 ^ 31 ->
  exists pas',
    set_allacl E A post order_func attr new SET =
    Some (PBSE_NONE, post (with_arst attr pas')) /\
    holds (add_by ord ln []) pas' /\
    add_by ord ln [] ≡ₚ ln /\
    ((forall a b, a ∈ ln -> b ∈ ln -> a <> b ->
                  0 < ord a b -> ord b a <= 0) ->
     in_order order_func pas').
Proof.
  intros Hattr Hnew Halloc Hnodup Hgrants Hord HP Hnen Hbuf Hbuf4 Hslots.
  destruct (set_allacl_replace_on P E A post order_func ord attr new newpas
              l ln) as (pas' & Hset & Hh'); try done.
  exists pas'. split; [done|]. split; [done|].
  pose proof (add_by_perm ord ln []) as Hperm. simpl in Hperm.
  split; [done|]. intros Hanti.
  apply (holds_in_order_nodup order_func ord _ pas' Hh').
  - by rewrite Hperm.
  - intros m1 p1 m2 p2 s1 s2 H1 H2 Hdiff Hc1 Hc2.
    rewrite Hperm in H1, H2. rewrite Forall_forall in Hnen.
    apply Hord; auto.
  - apply add_by_sorted; [apply sorted_by_nil| |done].
    intros [Hd|(s & _ & Hs)]; [done|]. by apply elem_of_nil in Hs.
Qed.

(** ** The properties on given lists *)

Lemma has_list_attr_of (l : list string) :
  l <> [] -> Forall (fun s => NUL ∉ s) (bytes <$> l) ->
  Z.of_nat (length (packed (bytes <$> l))) < 2 ^ 31 ->
  has_list example_extern (attr_of l) (bytes <$> l).
Proof.
  intros Hne Hn Hl. split; [done|]. split.
  - by destruct l.
  - eexists. split; [done|]. by apply holds_arst_of.
Qed.

Lemma mark_set_arst (a : attribute) : at_arst (mark_set a) = at_arst a.
Proof. done. Qed.

Lemma mark_set_flag (a : attribute) :
  Z.land (at_flags (mark_set a)) (ATR_VFLAG_SET example_extern) <> 0.
Proof.
  cbn. rewrite Z.land_lor_distr_l. change (Z.land 1 1) with 1.
  intros H. apply Z.lor_eq_0_iff in H. lia.
Qed.

Lemma not_duplicate (l ln : list (list byte)) :
  NoDup ln -> Forall (fun s => s ∉ l) ln -> ~ duplicate l ln.
Proof.
  intros Hn Hf [Hd|(s & Hs & Hs')]; [done|].
  rewrite Forall_forall in Hf. by apply (Hf s).
Qed.

(** No two of the given strings are the same. *)
Ltac no_duplicate :=
  apply not_duplicate;
  match goal with
  | |- ?P => apply (bool_decide_unpack P); vm_compute; exact I
  end.

Lemma acl_check_first_match_decides_witness :
  acl_check example_extern
    (attr_of ["+*.example.org"; "-c.example.com"; "*.example.com"])
    (Some (lit "c.example.com", 0)) 1 =
  Some (if bool_decide (hd NUL (bytes "-c.example.com") = ch_minus)
        then 0 else 1).
Proof.
  apply (acl_check_first_match_decides example_extern
           (attr_of ["+*.example.org"; "-c.example.com"; "*.example.com"])
           (lit "c.example.com") 0 1 [bytes "+*.example.org"]
           [bytes "*.example.com"] (bytes "-c.example.com")
           (bytes "c.example.com")).
  - apply (has_list_attr_of
             ["+*.example.org"; "-c.example.com"; "*.example.com"]);
      [done|no_nul|by vm_compute].
  - done.
  - done.
  - repeat constructor. by vm_compute.
  - by vm_compute.
Defined.

Lemma acl_check_no_match_default_witness :
  acl_check example_extern (attr_of ["+*.example.org"; "+"; "-x.example.com"])
    (Some (lit "c.example.com", 0)) 1 =
  Some (final_default (bytes <$> ["+*.example.org"; "+"; "-x.example.com"])
          (first_default example_extern)) /\
  (forall l' d, final_default (l' ++ [[ch_plus]]) d = 1) /\
  (forall l' d, final_default (l' ++ [[ch_minus]]) d = 0) /\
  (forall l' e d, length e <> 1%nat ->
                  final_default (l' ++ [e]) d = final_default l' d).
Proof.
  apply (acl_check_no_match_default example_extern
           (attr_of ["+*.example.org"; "+"; "-x.example.com"])
           (lit "c.example.com") 0 1
           (bytes <$> ["+*.example.org"; "+"; "-x.example.com"])
           (bytes "c.example.com")).
  - apply has_list_attr_of; [done|no_nul|by vm_compute].
  - done.
  - done.
  - repeat constructor; by vm_compute.
Defined.

Lemma acl_check_without_entries_witness :
  exists r, acl_check example_extern no_list
              (Some (lit "Server.Example.Com", 0)) 1 = Some r /\
            (r = 0 \/ r = 1) /\
            (r = 1 <-> HOST_ACL_DEFAULT_ALL example_extern = true \/
                       (1 = ACL_Host example_extern /\
                        hacl_amended (bytes "Server.Example.Com")
                          (bytes "server.example.com"))).
Proof.
  apply (acl_check_without_entries example_extern no_list
           (lit "Server.Example.Com") 0 1); [by left|done|done].
Defined.

Lemma add_puts_each_entry_at_its_place_witness :
  exists pas',
    set_allacl example_extern generous id host_order
      (attr_of ["a.example.com"; "*.example.com"])
      (attr_of ["b.example.com"; "*.com"]) INCR =
    Some (PBSE_NONE,
          id (with_arst (attr_of ["a.example.com"; "*.example.com"]) pas')) /\
    holds (add_by host_ord (bytes <$> ["b.example.com"; "*.com"])
             (bytes <$> ["a.example.com"; "*.example.com"])) pas'.
Proof.
  destruct (add_puts_each_entry_at_its_place example_extern generous id
              host_order host_ord
              (attr_of ["a.example.com"; "*.example.com"])
              (attr_of ["b.example.com"; "*.com"])
              (arst_of (bytes <$> ["b.example.com"; "*.com"]))
              (bytes <$> ["a.example.com"; "*.example.com"])
              (bytes <$> ["b.example.com"; "*.com"])) as [H _];
    [..|exact H].
  - apply attr_holds_attr_of; [no_nul|by vm_compute].
  - apply gives_attr_of; [no_nul|by vm_compute].
  - by left.
  - no_duplicate.
  - split; [by eexists|done].
  - exact host_order_orders.
  - by repeat constructor.
  - by repeat constructor.
  - by vm_compute.
  - by vm_compute.
Defined.

(** The two entries of the given attribute are in order. *)
Ltac two_in_order :=
  let i := fresh "i" in
  let Hi := fresh "Hi" in
  intros i Hi; destruct i as [|i]; [|simpl in Hi; lia];
  eexists _, _, _;
  split; [reflexivity|split; [reflexivity|split; [reflexivity|by vm_compute]]].

Lemma group_add_keeps_order_witness :
  exists pas' l',
    set_gacl example_extern generous id (attr_of ["admin"; "staff"])
      (attr_of ["+ops"; "-guests"]) INCR =
    Some (PBSE_NONE, id (with_arst (attr_of ["admin"; "staff"]) pas')) /\
    holds l' pas' /\
    l' ≡ₚ (bytes <$> ["admin"; "staff"]) ++ (bytes <$> ["+ops"; "-guests"]) /\
    in_order group_order pas'.
Proof.
  apply (group_add_keeps_order example_extern generous id
           (attr_of ["admin"; "staff"]) (attr_of ["+ops"; "-guests"])
           (arst_of (bytes <$> ["+ops"; "-guests"]))
           (bytes <$> ["admin"; "staff"]) (bytes <$> ["+ops"; "-guests"])).
  - apply attr_holds_attr_of; [no_nul|by vm_compute].
  - apply gives_attr_of; [no_nul|by vm_compute].
  - by left.
  - no_duplicate.
  - split; [by eexists|done].
  - by repeat constructor.
  - by repeat constructor.
  - by vm_compute.
  - by vm_compute.
  - unfold attr_in_order, attr_of. cbn [at_arst]. two_in_order.
Defined.

Lemma group_remove_keeps_order_witness :
  exists pas',
    set_gacl example_extern refusing id (attr_of ["admin"; "ops"; "staff"])
      (attr_of ["ops"; "guests"]) DECR =
    Some (PBSE_NONE, id (with_arst (attr_of ["admin"; "ops"; "staff"]) pas')) /\
    holds (remove_each (bytes <$> ["ops"; "guests"])
             (bytes <$> ["admin"; "ops"; "staff"])) pas' /\
    in_order group_order pas'.
Proof.
  apply (group_remove_keeps_order example_extern refusing id
           (attr_of ["admin"; "ops"; "staff"]) (attr_of ["ops"; "guests"])
           (arst_of (bytes <$> ["ops"; "guests"]))).
  - apply attr_holds_attr_of; [no_nul|by vm_compute].
  - apply gives_attr_of; [no_nul|by vm_compute].
  - by left.
  - unfold attr_in_order, attr_of. cbn [at_arst].
    intros i Hi. destruct i as [|[|i]]; [| |simpl in Hi; lia];
      eexists _, _, _;
      (split; [reflexivity|split; [reflexivity
                                  |split; [reflexivity|by vm_compute]]]).
Defined.

Lemma host_add_keeps_order_witness :
  exists pas' l',
    set_hostacl example_extern generous id
      (attr_of ["a.example.com"; "*.example.com"])
      (attr_of ["b.example.com"; "-a.example.com"]) INCR =
    Some (PBSE_NONE,
          id (with_arst (attr_of ["a.example.com"; "*.example.com"]) pas')) /\
    holds l' pas' /\
    l' ≡ₚ (bytes <$> ["a.example.com"; "*.example.com"]) ++
          (bytes <$> ["b.example.com"; "-a.example.com"]) /\
    in_order host_order pas'.
Proof.
  apply (host_add_keeps_order example_extern generous id
           (attr_of ["a.example.com"; "*.example.com"])
           (attr_of ["b.example.com"; "-a.example.com"])
           (arst_of (bytes <$> ["b.example.com"; "-a.example.com"]))
           (bytes <$> ["a.example.com"; "*.example.com"])
           (bytes <$> ["b.example.com"; "-a.example.com"])).
  - apply attr_holds_attr_of; [no_nul|by vm_compute].
  - apply gives_attr_of; [no_nul|by vm_compute].
  - by left.
  - no_duplicate.
  - split; [by eexists|done].
  - by repeat constructor.
  - by repeat constructor.
  - by vm_compute.
  - by vm_compute.
  - unfold attr_in_order, attr_of. cbn [at_arst]. two_in_order.
  - intros a b _ Hb _ _ [r Hr].
    assert (Forall (fun b => forall r, strip_sign b <> ch_star :: r)
              (bytes <$> ["b.example.com"; "-a.example.com"])) as Hf.
    { repeat constructor; intros r' E; by vm_compute in E. }
    rewrite Forall_forall in Hf. by apply (Hf b Hb r).
Defined.

Lemma user_add_puts_entries_at_their_places_witness :
  exists pas',
    set_uacl example_extern generous id
      (attr_of ["alice"; "bob@a.example.com"])
      (attr_of ["+bob@b.example.com"; "carol"]) INCR =
    Some (PBSE_NONE,
          id (with_arst (attr_of ["alice"; "bob@a.example.com"]) pas')) /\
    holds (add_by user_ord_of (bytes <$> ["+bob@b.example.com"; "carol"])
             (bytes <$> ["alice"; "bob@a.example.com"])) pas' /\
    add_by user_ord_of (bytes <$> ["+bob@b.example.com"; "carol"])
      (bytes <$> ["alice"; "bob@a.example.com"]) ≡ₚ
    (bytes <$> ["alice"; "bob@a.example.com"]) ++
    (bytes <$> ["+bob@b.example.com"; "carol"]) /\
    sublist (bytes <$> ["alice"; "bob@a.example.com"])
      (add_by user_ord_of (bytes <$> ["+bob@b.example.com"; "carol"])
         (bytes <$> ["alice"; "bob@a.example.com"])).
Proof.
  apply (user_add_puts_entries_at_their_places example_extern generous id
           (attr_of ["alice"; "bob@a.example.com"])
           (attr_of ["+bob@b.example.com"; "carol"])
           (arst_of (bytes <$> ["+bob@b.example.com"; "carol"]))
           (bytes <$> ["alice"; "bob@a.example.com"])
           (bytes <$> ["+bob@b.example.com"; "carol"])).
  - apply attr_holds_attr_of; [no_nul|by vm_compute].
  - apply gives_attr_of; [no_nul|by vm_compute].
  - by left.
  - no_duplicate.
  - split; [by eexists|done].
  - by repeat constructor.
  - by repeat constructor.
  - by vm_compute.
  - by vm_compute.
  - assert (Forall (fun b =>
              Forall (fun a => a <> b ->
                        ~ (strip_sign a = strip_sign b /\
                           ch_at ∉ strip_sign a))
                ((bytes <$> ["alice"; "bob@a.example.com"]) ++
                 (bytes <$> ["+bob@b.example.com"; "carol"])))
              (bytes <$> ["+bob@b.example.com"; "carol"])) as Hf.
    { match goal with
      | |- ?P => apply (bool_decide_unpack P); vm_compute; exact I
      end. }
    intros a b Ha Hb Hab. rewrite Forall_forall in Hf.
    specialize (Hf b Hb). rewrite Forall_forall in Hf. by apply Hf.
Defined.

(** Every two different strings of [la] and [lb] are ones on which
    [user_order] stays inside the strings. *)
Ltac all_comparable la lb :=
  let Hf := fresh "Hf" in
  assert (Forall (fun b =>
            Forall (fun a => a <> b ->
                      ~ (strip_sign a = strip_sign b /\
                         ch_at ∉ strip_sign a)) la) lb) as Hf;
  [match goal with
   | |- ?P => apply (bool_decide_unpack P); vm_compute; exact I
   end|];
  let a := fresh "a" in
  let b := fresh "b" in
  let Ha := fresh "Ha" in
  let Hb := fresh "Hb" in
  let Hab := fresh "Hab" in
  intros a b Ha Hb Hab; rewrite Forall_forall in Hf;
  specialize (Hf b Hb); rewrite Forall_forall in Hf; by apply Hf.

Lemma add_duplicate_or_granted_witness :
  exists pas' l',
    set_allacl example_extern generous id user_order
      (attr_of ["alice"; "bob@a.example.com"])
      (attr_of ["+bob@b.example.com"; "carol"]) INCR =
    Some (PBSE_NONE,
          id (with_arst (attr_of ["alice"; "bob@a.example.com"]) pas')) /\
    holds l' pas' /\
    l' ≡ₚ (bytes <$> ["alice"; "bob@a.example.com"]) ++
          (bytes <$> ["+bob@b.example.com"; "carol"]) /\
    sublist (bytes <$> ["alice"; "bob@a.example.com"]) l'.
Proof.
  destruct (add_duplicate_or_granted example_extern generous id user_order
              (attr_of ["alice"; "bob@a.example.com"])
              (attr_of ["+bob@b.example.com"; "carol"])
              (arst_of (bytes <$> ["+bob@b.example.com"; "carol"]))
              (bytes <$> ["alice"; "bob@a.example.com"])
              (bytes <$> ["+bob@b.example.com"; "carol"])) as [_ Hadd].
  - apply attr_holds_attr_of; [no_nul|by vm_compute].
  - apply gives_attr_of; [no_nul|by vm_compute].
  - by left.
  - apply Hadd.
    + no_duplicate.
    + split; [by eexists|done].
    + apply (orders_on_returns_entries user_comparable user_order
               user_ord_of); [exact user_order_orders|by repeat constructor|].
      all_comparable
        ((bytes <$> ["alice"; "bob@a.example.com"]) ++
         (bytes <$> ["+bob@b.example.com"; "carol"]))
        (bytes <$> ["+bob@b.example.com"; "carol"]).
    + by vm_compute.
    + by vm_compute.
Defined.

Lemma generic_acl_check_exact_match_witness :
  acl_check example_extern (attr_of ["+bob"; "-carol"; "carol"])
    (Some (lit "carol", 0)) 7 =
  Some (if bool_decide (hd NUL (bytes "-carol") = ch_minus) then 0 else 1).
Proof.
  destruct (generic_acl_check_exact_match example_extern
              (attr_of ["+bob"; "-carol"; "carol"]) (lit "carol") 0 7
              (bytes <$> ["+bob"; "-carol"; "carol"]) (bytes "carol"))
    as [H _]; [discriminate..| | |].
  - apply (has_list_attr_of ["+bob"; "-carol"; "carol"]);
      [done|no_nul|by vm_compute].
  - reflexivity.
  - apply (H [bytes "+bob"] (bytes "-carol") [bytes "carol"]);
      [reflexivity| |reflexivity].
    repeat constructor. by vm_compute.
Defined.

(** On the list "-", "+" and the empty candidate the scan of the design
    document ends with allow, and [acl_check] with deny. *)
Lemma bare_sign_ends_the_scan_witness :
  scan_claimed (strcmp_bytes []) (bytes <$> ["-"; "+"])
    (first_default example_extern) = 1 /\
  acl_check example_extern (attr_of ["-"; "+"]) (Some (lit "", 0)) 7 =
  Some (if bool_decide (ch_minus = ch_plus) then 1 else 0).
Proof.
  split; [reflexivity|].
  apply (bare_sign_ends_the_scan example_extern (attr_of ["-"; "+"])
           (lit "") 0 7 [] [bytes "+"] ch_minus); [discriminate..| | | |].
  - apply (has_list_attr_of ["-"; "+"]); [done|no_nul|by vm_compute].
  - reflexivity.
  - by right.
  - constructor.
Defined.

Lemma replace_leaves_the_operand_witness :
  exists pas',
    set_allacl example_extern generous id user_order
      (attr_of ["x@example.org"])
      (attr_of ["bob@b.example.com"; "+alice"; "-bob@*.com"]) SET =
    Some (PBSE_NONE, id (with_arst (attr_of ["x@example.org"]) pas')) /\
    holds (add_by user_ord_of
             (bytes <$> ["bob@b.example.com"; "+alice"; "-bob@*.com"]) [])
      pas' /\
    add_by user_ord_of
      (bytes <$> ["bob@b.example.com"; "+alice"; "-bob@*.com"]) [] ≡ₚ
    bytes <$> ["bob@b.example.com"; "+alice"; "-bob@*.com"] /\
    ((forall a b,
        a ∈ bytes <$> ["bob@b.example.com"; "+alice"; "-bob@*.com"] ->
        b ∈ bytes <$> ["bob@b.example.com"; "+alice"; "-bob@*.com"] ->
        a <> b -> 0 < user_ord_of a b -> user_ord_of b a <= 0) ->
     in_order user_order pas').
Proof.
  apply (replace_leaves_the_operand user_comparable example_extern generous
           id user_order user_ord_of (attr_of ["x@example.org"])
           (attr_of ["bob@b.example.com"; "+alice"; "-bob@*.com"])
           (arst_of (bytes <$> ["bob@b.example.com"; "+alice"; "-bob@*.com"]))
           (bytes <$> ["x@example.org"])).
  - apply attr_holds_attr_of; [no_nul|by vm_compute].
  - apply gives_attr_of; [no_nul|by vm_compute].
  - by left.
  - match goal with
    | |- ?P => apply (bool_decide_unpack P); vm_compute; exact I
    end.
  - split; [by eexists|]. split; [by eexists|done].
  - exact user_order_orders.
  - all_comparable
      (bytes <$> ["bob@b.example.com"; "+alice"; "-bob@*.com"])
      (bytes <$> ["bob@b.example.com"; "+alice"; "-bob@*.com"]).
  - by repeat constructor.
  - by vm_compute.
  - by vm_compute.
  - by vm_compute.
Defined.

Lemma add_then_remove_gives_back_witness :
  exists attr2,
    set_allacl example_extern refusing mark_set user_order
      (default no_list
         (snd <$> set_allacl example_extern generous mark_set user_order
                    (attr_of ["alice"; "bob@a.example.com"])
                    (attr_of ["+bob@b.example.com"; "carol"]) INCR))
      (attr_of ["+bob@b.example.com"; "carol"]) DECR =
    Some (PBSE_NONE, attr2) /\
    attr_holds (bytes <$> ["alice"; "bob@a.example.com"]) attr2 /\
    entries_of attr2 = Some <$> (bytes <$> ["alice"; "bob@a.example.com"]).
Proof.
  apply (add_then_remove_gives_back example_extern generous refusing mark_set
           user_order (attr_of ["alice"; "bob@a.example.com"])
           (attr_of ["+bob@b.example.com"; "carol"])
           (default no_list
              (snd <$> set_allacl example_extern generous mark_set user_order
                         (attr_of ["alice"; "bob@a.example.com"])
                         (attr_of ["+bob@b.example.com"; "carol"]) INCR))
           (arst_of (bytes <$> ["+bob@b.example.com"; "carol"]))
           (bytes <$> ["alice"; "bob@a.example.com"])
           (bytes <$> ["+bob@b.example.com"; "carol"])).
  - apply attr_holds_attr_of; [no_nul|by vm_compute].
  - apply gives_attr_of; [no_nul|by vm_compute].
  - by vm_compute.
  - by vm_compute.
  - exact mark_set_arst.
  - vm_compute. reflexivity.
Defined.

Lemma acl_check_after_replace_witness :
  exists l',
    attr_holds l'
      (default no_list
         (snd <$> set_allacl example_extern generous mark_set host_order
                    (attr_of ["x.example.org"])
                    (attr_of ["-b.example.com"; "*.com"]) SET)) /\
    l' ≡ₚ bytes <$> ["-b.example.com"; "*.com"] /\
    (bytes <$> ["-b.example.com"; "*.com"] <> [] ->
     acl_check example_extern
       (default no_list
          (snd <$> set_allacl example_extern generous mark_set host_order
                     (attr_of ["x.example.org"])
                     (attr_of ["-b.example.com"; "*.com"]) SET))
       (Some (lit "b.example.com", 0)) 1 =
     Some (scan (match_bytes example_extern (acl_type_of example_extern 1)
                   (bytes "b.example.com")) l'
             (first_default example_extern))) /\
    (bytes <$> ["-b.example.com"; "*.com"] = [] ->
     no_entries example_extern
       (default no_list
          (snd <$> set_allacl example_extern generous mark_set host_order
                     (attr_of ["x.example.org"])
                     (attr_of ["-b.example.com"; "*.com"]) SET))).
Proof.
  apply (acl_check_after_replace example_extern generous mark_set host_order
           (attr_of ["x.example.org"])
           (attr_of ["-b.example.com"; "*.com"])
           (default no_list
              (snd <$> set_allacl example_extern generous mark_set host_order
                         (attr_of ["x.example.org"])
                         (attr_of ["-b.example.com"; "*.com"]) SET))
           (arst_of (bytes <$> ["-b.example.com"; "*.com"]))
           (bytes <$> ["x.example.org"])).
  - apply attr_holds_attr_of; [no_nul|by vm_compute].
  - apply gives_attr_of; [no_nul|by vm_compute].
  - by vm_compute.
  - by vm_compute.
  - by vm_compute.
  - exact mark_set_arst.
  - exact mark_set_flag.
  - done.
  - done.
  - vm_compute. reflexivity.
Defined.
